(** * mm-ready-go: the offline schema-dump parser ([internal/parser])

    A shallow embedding of [parser.go] and [types.go] and the properties of
    the statement segmenter, the entity extractors, the table-body parser and
    the schema model.

    Go strings are byte sequences: they are modelled as [string] (a list of
    [ascii] bytes).  Where the Go code walks a string rune by rune ([range],
    [regexp], [strings.TrimSpace], [strings.ToUpper]) the model decodes UTF-8
    the way package [unicode/utf8] does.  A run-time panic is the [None] of an
    option. *)

From Stdlib Require Import ZArith List Bool Ascii String Lia DecimalString.
Import ListNotations.

Local Open Scope string_scope.
Local Open Scope list_scope.

(** Part I: the program *)

(** ** Package unicode/utf8 *)
Module Utf8.

Definition byte_val (c : ascii) : Z := Z.of_N (N_of_ascii c).
Definition byte_of (z : Z) : ascii := ascii_of_N (Z.to_N z).

Definition RuneError : Z := 0xFFFD.

Definition between (lo hi : Z) (c : ascii) : bool :=
  (lo <=? byte_val c)%Z && (byte_val c <=? hi)%Z.

(** continuation byte, [locb..hicb] *)
Definition cont (c : ascii) : bool := between 0x80 0xBF c.

(** [acceptRanges]: the range allowed for the second byte after lead [b0] *)
Definition accept_lo (b0 : Z) : Z :=
  if (b0 =? 0xE0)%Z then 0xA0 else if (b0 =? 0xF0)%Z then 0x90 else 0x80.
Definition accept_hi (b0 : Z) : Z :=
  if (b0 =? 0xED)%Z then 0x9F else if (b0 =? 0xF4)%Z then 0x8F else 0xBF.

Definition low6 (c : ascii) : Z := Z.land (byte_val c) 0x3F.

(** [utf8.DecodeRuneInString]: the first rune of [s] and its width in bytes;
    [(RuneError, 0)] on the empty string and [(RuneError, 1)] on a byte that
    starts no valid encoding. *)
Definition DecodeRuneInString (s : string) : Z * nat :=
  match s with
  | EmptyString => (RuneError, 0)
  | String c0 t =>
    let b0 := byte_val c0 in
    if (b0 <? 0x80)%Z then (b0, 1)
    else if (0xC2 <=? b0)%Z && (b0 <=? 0xDF)%Z then
      match t with
      | String c1 _ =>
        if cont c1
        then (Z.lor (Z.shiftl (Z.land b0 0x1F) 6) (low6 c1), 2)
        else (RuneError, 1)
      | _ => (RuneError, 1)
      end
    else if (0xE0 <=? b0)%Z && (b0 <=? 0xEF)%Z then
      match t with
      | String c1 (String c2 _) =>
        if between (accept_lo b0) (accept_hi b0) c1 && cont c2
        then (Z.lor (Z.shiftl (Z.land b0 0x0F) 12)
               (Z.lor (Z.shiftl (low6 c1) 6) (low6 c2)), 3)
        else (RuneError, 1)
      | _ => (RuneError, 1)
      end
    else if (0xF0 <=? b0)%Z && (b0 <=? 0xF4)%Z then
      match t with
      | String c1 (String c2 (String c3 _)) =>
        if between (accept_lo b0) (accept_hi b0) c1 && cont c2 && cont c3
        then (Z.lor (Z.shiftl (Z.land b0 0x07) 18)
               (Z.lor (Z.shiftl (low6 c1) 12)
                 (Z.lor (Z.shiftl (low6 c2) 6) (low6 c3))), 4)
        else (RuneError, 1)
      | _ => (RuneError, 1)
      end
    else (RuneError, 1)
  end.

(** The runes of a string in order, each with its width: what
    [for _, ch := range s] visits.  [skip] counts the bytes of the current
    rune that are still to be passed over. *)
Fixpoint runes_from (skip : nat) (s : string) : list (Z * nat) :=
  match s with
  | EmptyString => []
  | String _ t =>
    match skip with
    | S k => runes_from k t
    | O => let rw := DecodeRuneInString s in rw :: runes_from (snd rw - 1) t
    end
  end.

Definition runes (s : string) : list (Z * nat) := runes_from 0 s.

(** [utf8.AppendRune] / [strings.Builder.WriteRune]: the encoding of a rune;
    surrogates and values out of range are written as [RuneError]. *)
Definition encode3 (r : Z) : string :=
  String (byte_of (Z.lor 0xE0 (Z.shiftr r 12)))
    (String (byte_of (Z.lor 0x80 (Z.land (Z.shiftr r 6) 0x3F)))
      (String (byte_of (Z.lor 0x80 (Z.land r 0x3F))) EmptyString)).

Definition EncodeRune (r : Z) : string :=
  if (r <? 0)%Z then encode3 RuneError
  else if (r <? 0x80)%Z then String (byte_of r) EmptyString
  else if (r <? 0x800)%Z then
    String (byte_of (Z.lor 0xC0 (Z.shiftr r 6)))
      (String (byte_of (Z.lor 0x80 (Z.land r 0x3F))) EmptyString)
  else if (0xD800 <=? r)%Z && (r <=? 0xDFFF)%Z then encode3 RuneError
  else if (r <? 0x10000)%Z then encode3 r
  else if (r <=? 0x10FFFF)%Z then
    String (byte_of (Z.lor 0xF0 (Z.shiftr r 18)))
      (String (byte_of (Z.lor 0x80 (Z.land (Z.shiftr r 12) 0x3F)))
        (String (byte_of (Z.lor 0x80 (Z.land (Z.shiftr r 6) 0x3F)))
          (String (byte_of (Z.lor 0x80 (Z.land r 0x3F))) EmptyString)))
  else encode3 RuneError.

(** a decoded rune that is not the error of width 1, the mark of a byte
    that belongs to no valid encoding *)
Definition valid_token (rw : Z * nat) : bool :=
  negb ((fst rw =? RuneError)%Z && (snd rw =? 1)%nat).

(** [utf8.ValidString] *)
Definition ValidString (s : string) : bool := forallb valid_token (runes s).

End Utf8.

(** ** Package strings *)
Module Strings.

Import Utf8.

Definition len (s : string) : nat := String.length s.

(** [s[lo:]] and [s[lo:hi]] for indices already known to be in range. *)
Fixpoint from (lo : nat) (s : string) : string :=
  match lo, s with
  | S k, String _ t => from k t
  | _, _ => s
  end.

Definition slice (lo hi : nat) (s : string) : string :=
  String.substring lo (hi - lo) s.

Fixpoint HasPrefix (s p : string) : bool :=
  match p with
  | EmptyString => true
  | String a p' =>
    match s with
    | EmptyString => false
    | String b s' => Ascii.eqb a b && HasPrefix s' p'
    end
  end.

Definition HasSuffix (s suf : string) : bool :=
  (len suf <=? len s)%nat && String.eqb (from (len s - len suf) s) suf.

(** [strings.Index]: [None] stands for Go's -1. *)
Fixpoint Index (s sub : string) : option nat :=
  if HasPrefix s sub then Some 0
  else match s with
       | EmptyString => None
       | String _ t => option_map S (Index t sub)
       end.

Definition Contains (s sub : string) : bool :=
  match Index s sub with Some _ => true | None => false end.

Definition TrimPrefix (s p : string) : string :=
  if HasPrefix s p then from (len p) s else s.

Definition TrimSuffix (s suf : string) : string :=
  if HasSuffix s suf then slice 0 (len s - len suf) s else s.

(** [strings.Split] with a one-byte separator, the only kind the parser
    uses: always at least one piece. *)
Fixpoint Split_acc (cur : string) (s : string) (sep : ascii) : list string :=
  match s with
  | EmptyString => [cur]
  | String c t =>
    if Ascii.eqb c sep then cur :: Split_acc EmptyString t sep
    else Split_acc (cur ++ String c EmptyString) t sep
  end.

Definition Split (s : string) (sep : ascii) : list string :=
  Split_acc EmptyString s sep.

Fixpoint Join (elems : list string) (sep : string) : string :=
  match elems with
  | [] => EmptyString
  | [x] => x
  | x :: rest => x ++ sep ++ Join rest sep
  end.

(** [strings.ReplaceAll] for a non-empty [old]: non-overlapping occurrences,
    left to right.  [skip] passes over the rest of a replaced occurrence. *)
Fixpoint ReplaceAll_from (skip : nat) (s old new : string) : string :=
  match s with
  | EmptyString => EmptyString
  | String c t =>
    match skip with
    | S k => ReplaceAll_from k t old new
    | O =>
      if HasPrefix s old
      then new ++ ReplaceAll_from (len old - 1) t old new
      else String c (ReplaceAll_from 0 t old new)
    end
  end.

Definition ReplaceAll (s old new : string) : string :=
  ReplaceAll_from 0 s old new.

(** [strings.Trim] with a cutset of ASCII bytes. *)
Fixpoint in_cutset (c : ascii) (cutset : string) : bool :=
  match cutset with
  | EmptyString => false
  | String d t => Ascii.eqb c d || in_cutset c t
  end.

Fixpoint TrimLeft (s cutset : string) : string :=
  match s with
  | String c t => if in_cutset c cutset then TrimLeft t cutset else s
  | EmptyString => EmptyString
  end.

Fixpoint TrimRight (s cutset : string) : string :=
  match s with
  | EmptyString => EmptyString
  | String c t =>
    match TrimRight t cutset with
    | EmptyString => if in_cutset c cutset then EmptyString
                     else String c EmptyString
    | t' => String c t'
    end
  end.

Definition Trim (s cutset : string) : string :=
  TrimRight (TrimLeft s cutset) cutset.

(** [unicode.IsSpace] *)
Definition IsSpace (r : Z) : bool :=
  ((0x09 <=? r) && (r <=? 0x0D) || (r =? 0x20) || (r =? 0x85) || (r =? 0xA0)
   || (r =? 0x1680) || (0x2000 <=? r) && (r <=? 0x200A)
   || (r =? 0x2028) || (r =? 0x2029) || (r =? 0x202F) || (r =? 0x205F)
   || (r =? 0x3000))%Z.

(** total width of the leading runes that satisfy [f] *)
Fixpoint leading (f : Z -> bool) (rs : list (Z * nat)) : nat :=
  match rs with
  | (r, w) :: t => if f r then w + leading f t else 0
  | [] => 0
  end.

(** [strings.TrimSpace]: leading and trailing white-space runes removed. *)
Definition TrimSpace (s : string) : string :=
  let s1 := from (leading IsSpace (runes s)) s in
  slice 0 (len s1 - leading IsSpace (rev (runes s1))) s1.

(** [unicode.ToUpper] and [unicode.ToLower], given on ASCII and on the
    other runes whose image is an ASCII letter (U+017F, U+0131; U+212A,
    U+0130).  The remaining letters map to runes outside ASCII, which no
    comparison of the parser tells apart from the originals; they are left in
    place. *)
Definition unicode_ToUpper (r : Z) : Z :=
  if ((0x61 <=? r) && (r <=? 0x7A))%Z then (r - 32)%Z
  else if (r =? 0x17F)%Z then 0x53
  else if (r =? 0x131)%Z then 0x49
  else r.

Definition unicode_ToLower (r : Z) : Z :=
  if ((0x41 <=? r) && (r <=? 0x5A))%Z then (r + 32)%Z
  else if (r =? 0x212A)%Z then 0x6B
  else if (r =? 0x130)%Z then 0x69
  else r.

(** [strings.Map]: every rune is mapped and written back; an invalid byte
    comes out as the encoding of [RuneError]. *)
Definition Map (f : Z -> Z) (s : string) : string :=
  String.concat EmptyString (map (fun rw => EncodeRune (f (fst rw))) (runes s)).

Definition ToUpper (s : string) : string := Map unicode_ToUpper s.
Definition ToLower (s : string) : string := Map unicode_ToLower s.

End Strings.

(** ** Package regexp

    The patterns of [parser.go] use literals, one-rune classes, repetition
    of one-rune classes, optional groups, alternation, capture groups and the
    assertions [^], [$] and [\b].  The matcher is a backtracking one: it
    prefers the left branch of an alternation, more iterations of a greedy
    repetition and fewer of a lazy one, and it tries start positions from left
    to right, which is the leftmost-first match RE2 returns. *)
Module Regexp.

Import Utf8.

Inductive regex : Type :=
| Eps                                   (* the empty pattern *)
| Rn (p : Z -> bool)                    (* one rune satisfying [p] *)
| Cat (a b : regex)                     (* ab *)
| Or (a b : regex)                      (* a|b *)
| Star (greedy : bool) (p : Z -> bool)  (* x* and x*? over a one-rune class *)
| Opt (a : regex)                       (* (?:a)? *)
| Cap (i : nat) (a : regex)             (* capture group number i *)
| Bot                                   (* ^ without the m flag *)
| Eot                                   (* $ without the m flag *)
| Wb.                                   (* \b, ASCII word boundary *)

(** The place of the matcher in the text: byte offset, the rune before it
    (-1 at the start of the text) and the runes still ahead. *)
Record cursor : Type := Cursor { pos : nat; prev : Z; rest : list (Z * nat) }.

(** Capture registers: group number, start and end offset; the latest entry
    of a group is the one in force. *)
Definition caps : Type := list (nat * (nat * nat)).

Fixpoint get_cap (i : nat) (c : caps) : option (nat * nat) :=
  match c with
  | [] => None
  | (j, se) :: t => if (i =? j)%nat then Some se else get_cap i t
  end.

Definition IsWordChar (r : Z) : bool :=
  ((0x41 <=? r) && (r <=? 0x5A) || (0x61 <=? r) && (r <=? 0x7A)
   || (0x30 <=? r) && (r <=? 0x39) || (r =? 0x5F))%Z.

Definition next_rune (rs : list (Z * nat)) : Z :=
  match rs with (r, _) :: _ => r | [] => (-1)%Z end.

Fixpoint star_greedy (p : Z -> bool) (rs : list (Z * nat)) (at_ : nat)
         (before : Z) (k : cursor -> option caps) : option caps :=
  match rs with
  | (r, w) :: t =>
    if p r then
      match star_greedy p t (at_ + w) r k with
      | Some c => Some c
      | None => k (Cursor at_ before rs)
      end
    else k (Cursor at_ before rs)
  | [] => k (Cursor at_ before rs)
  end.

Fixpoint star_lazy (p : Z -> bool) (rs : list (Z * nat)) (at_ : nat)
         (before : Z) (k : cursor -> option caps) : option caps :=
  match k (Cursor at_ before rs) with
  | Some c => Some c
  | None =>
    match rs with
    | (r, w) :: t => if p r then star_lazy p t (at_ + w) r k else None
    | [] => None
    end
  end.

Fixpoint run (re : regex) (cur : cursor) (c : caps)
         (k : cursor -> caps -> option caps) : option caps :=
  match re with
  | Eps => k cur c
  | Rn p =>
    match rest cur with
    | (r, w) :: t => if p r then k (Cursor (pos cur + w) r t) c else None
    | [] => None
    end
  | Cat a b => run a cur c (fun cur' c' => run b cur' c' k)
  | Or a b =>
    match run a cur c k with
    | Some x => Some x
    | None => run b cur c k
    end
  | Star greedy p =>
    (if greedy then star_greedy else star_lazy)
      p (rest cur) (pos cur) (prev cur) (fun cur' => k cur' c)
  | Opt a =>
    match run a cur c k with
    | Some x => Some x
    | None => k cur c
    end
  | Cap i a => run a cur c (fun cur' c' => k cur' ((i, (pos cur, pos cur')) :: c'))
  | Bot => if (pos cur =? 0)%nat then k cur c else None
  | Eot => match rest cur with [] => k cur c | _ => None end
  | Wb =>
    if xorb (IsWordChar (prev cur)) (IsWordChar (next_rune (rest cur)))
    then k cur c else None
  end.

(** Unanchored search: the first start position with a match. *)
Fixpoint search (re : regex) (rs : list (Z * nat)) (at_ : nat) (before : Z)
  : option caps :=
  match run re (Cursor at_ before rs) []
            (fun cur c => Some ((0, (at_, pos cur)) :: c)) with
  | Some c => Some c
  | None =>
    match rs with
    | [] => None
    | (r, w) :: t => search re t (at_ + w) r
    end
  end.

Fixpoint ngroups (re : regex) : nat :=
  match re with
  | Cat a b | Or a b => Nat.max (ngroups a) (ngroups b)
  | Opt a => ngroups a
  | Cap i a => Nat.max i (ngroups a)
  | _ => 0
  end.

(** [FindStringSubmatchIndex]: the offsets of the match and of its groups. *)
Definition FindStringSubmatchIndex (re : regex) (s : string) : option caps :=
  search re (runes s) 0 (-1)%Z.

(** [loc[2*i]] and [loc[2*i+1]] of a successful match, for a group that took
    part in it. *)
Definition cap_start (loc : caps) (i : nat) : nat :=
  match get_cap i loc with Some (a, _) => a | None => 0 end.
Definition cap_end (loc : caps) (i : nat) : nat :=
  match get_cap i loc with Some (_, b) => b | None => 0 end.

Definition group_text (s : string) (loc : caps) (i : nat) : string :=
  match get_cap i loc with
  | Some (a, b) => Strings.slice a b s
  | None => EmptyString
  end.

(** [FindStringSubmatch]: the text of the match and of each group, the empty
    string for a group that took no part. *)
Definition submatches (re : regex) (s : string) (loc : caps) : list string :=
  map (group_text s loc) (seq 0 (S (ngroups re))).

Definition FindStringSubmatch (re : regex) (s : string) : option (list string) :=
  option_map (submatches re s) (FindStringSubmatchIndex re s).

Definition FindStringIndex (re : regex) (s : string) : option (nat * nat) :=
  match FindStringSubmatchIndex re s with
  | Some loc => get_cap 0 loc
  | None => None
  end.

Definition MatchString (re : regex) (s : string) : bool :=
  match FindStringSubmatchIndex re s with Some _ => true | None => false end.

(** [m[i]] *)
Definition sub (m : list string) (i : nat) : string := nth i m EmptyString.

(** *** Pattern syntax *)

Definition cat (l : list regex) : regex := fold_right Cat Eps l.

Fixpoint alt (l : list regex) : regex :=
  match l with
  | [] => Eps
  | [a] => a
  | a :: t => Or a (alt t)
  end.

Definition eq_rune (c : Z) (r : Z) : bool := (r =? c)%Z.

Definition ascii_letter (r : Z) : bool :=
  ((0x41 <=? r) && (r <=? 0x5A) || (0x61 <=? r) && (r <=? 0x7A))%Z.
Definition ascii_upper (r : Z) : Z :=
  if ((0x61 <=? r) && (r <=? 0x7A))%Z then (r - 32)%Z else r.

(** A literal ASCII character [c] under [(?i)]: the runes of its simple
    case-folding orbit (for k and s the orbit holds U+212A and U+017F). *)
Definition fold_is (c : Z) (r : Z) : bool :=
  ((r =? c)
   || ascii_letter c && ascii_letter r && (ascii_upper r =? ascii_upper c)
   || (ascii_upper c =? 0x4B) && (r =? 0x212A)
   || (ascii_upper c =? 0x53) && (r =? 0x17F))%Z.

Fixpoint lit_with (f : Z -> Z -> bool) (s : string) : regex :=
  match s with
  | EmptyString => Eps
  | String c EmptyString => Rn (f (byte_val c))
  | String c t => Cat (Rn (f (byte_val c))) (lit_with f t)
  end.

Definition lit : string -> regex := lit_with eq_rune.     (* literal text *)
Definition ilit : string -> regex := lit_with fold_is. (* literal text under (?i) *)

Definition plus (p : Z -> bool) : regex := Cat (Rn p) (Star true p).       (* x+ *)
Definition plus_lazy (p : Z -> bool) : regex := Cat (Rn p) (Star false p). (* x+? *)

(** one-rune classes *)
Definition space (r : Z) : bool :=                       (* \s *)
  ((r =? 0x09) || (r =? 0x0A) || (r =? 0x0C) || (r =? 0x0D) || (r =? 0x20))%Z.
Definition nonspace (r : Z) : bool := negb (space r).    (* \S *)
Definition word (r : Z) : bool := IsWordChar r.          (* \w *)
Definition iword (r : Z) : bool :=                       (* \w under (?i) *)
  (IsWordChar r || (r =? 0x17F) || (r =? 0x212A))%Z.
Definition digit (r : Z) : bool := ((0x30 <=? r) && (r <=? 0x39))%Z. (* \d *)
Definition dot (r : Z) : bool := negb (r =? 0x0A)%Z.     (* . *)
Definition isnot (c : Z) (r : Z) : bool := negb (r =? c)%Z. (* [^c] *)
Definition dq : Z := 0x22.
Definition iword_dq (r : Z) : bool := iword r || eq_rune dq r. (* word or double quote, under (?i) *)
Definition word_dq (r : Z) : bool := word r || eq_rune dq r.   (* word or double quote *)

Definition ws0 : regex := Star true space.   (* \s* *)
Definition ws1 : regex := plus space.        (* \s+ *)

(** an optionally qualified name: one or more word-or-double-quote runes,
    optionally a dot and one or more again, under (?i) *)
Definition qname : regex :=
  cat [plus iword_dq; Opt (cat [lit "."; plus iword_dq])].

(** [(?:IF\s+NOT\s+EXISTS\s+)?] *)
Definition if_not_exists : regex :=
  Opt (cat [ilit "IF"; ws1; ilit "NOT"; ws1; ilit "EXISTS"; ws1]).

(** [(CASCADE|SET\s+NULL|SET\s+DEFAULT|RESTRICT|NO\s+ACTION)] *)
Definition fk_action : regex :=
  Cap 1 (alt [ilit "CASCADE"; cat [ilit "SET"; ws1; ilit "NULL"];
              cat [ilit "SET"; ws1; ilit "DEFAULT"]; ilit "RESTRICT";
              cat [ilit "NO"; ws1; ilit "ACTION"]]).

(** [(PRIMARY\s+KEY|UNIQUE|FOREIGN\s+KEY|EXCLUDE|CHECK)] as group [i] *)
Definition constraint_kind (i : nat) (more : list regex) : regex :=
  Cap i (alt ([cat [ilit "PRIMARY"; ws1; ilit "KEY"]; ilit "UNIQUE";
               cat [ilit "FOREIGN"; ws1; ilit "KEY"]; ilit "EXCLUDE";
               ilit "CHECK"] ++ more)).

(** [(ALWAYS|BY\s+DEFAULT)] as group [i] *)
Definition identity_kind (i : nat) : regex :=
  Cap i (alt [ilit "ALWAYS"; cat [ilit "BY"; ws1; ilit "DEFAULT"]]).

End Regexp.

(** ** Package parser: types.go *)

Module ColumnDef.
Record t : Type := mk {
  Name : string;
  DataType : string;
  NotNull : bool;
  DefaultExpr : string;
  Identity : string;
  GeneratedExpr : string }.
Definition with_DefaultExpr (v : string) (c : t) : t :=
  mk (Name c) (DataType c) (NotNull c) v (Identity c) (GeneratedExpr c).
Definition with_Identity (v : string) (c : t) : t :=
  mk (Name c) (DataType c) (NotNull c) (DefaultExpr c) v (GeneratedExpr c).
End ColumnDef.

Module ConstraintDef.
Record t : Type := mk {
  Name : string;
  ConstraintType : string;
  TableSchema : string;
  TableName : string;
  Columns : list string;
  RefSchema : string;
  RefTable : string;
  RefColumns : list string;
  OnDelete : string;
  OnUpdate : string;
  Deferrable : bool;
  InitiallyDeferred : bool }.
End ConstraintDef.

Module IndexDef.
Record t : Type := mk {
  Name : string;
  TableSchema : string;
  TableName : string;
  Columns : list string;
  IsUnique : bool;
  Method : string }.
End IndexDef.

(** The numeric options are [*int64] in Go: [None] is the nil pointer. *)
Module SequenceDef.
Record t : Type := mk {
  SchemaName : string;
  SequenceName : string;
  DataType : string;
  StartValue : option Z;
  Increment : option Z;
  MinValue : option Z;
  MaxValue : option Z;
  Cycle : bool;
  OwnedByTable : string;
  OwnedByColumn : string }.
Definition with_OwnedBy (tbl col : string) (q : t) : t :=
  mk (SchemaName q) (SequenceName q) (DataType q) (StartValue q) (Increment q)
     (MinValue q) (MaxValue q) (Cycle q) tbl col.
End SequenceDef.

Module TableDef.
Record t : Type := mk {
  SchemaName : string;
  TableName : string;
  Columns : list ColumnDef.t;
  Unlogged : bool;
  Inherits : list string;
  PartitionBy : string }.
Definition with_Columns (v : list ColumnDef.t) (x : t) : t :=
  mk (SchemaName x) (TableName x) v (Unlogged x) (Inherits x) (PartitionBy x).
Definition with_Inherits (v : list string) (x : t) : t :=
  mk (SchemaName x) (TableName x) (Columns x) (Unlogged x) v (PartitionBy x).
Definition with_PartitionBy (v : string) (x : t) : t :=
  mk (SchemaName x) (TableName x) (Columns x) (Unlogged x) (Inherits x) v.
End TableDef.

Module ExtensionDef.
Record t : Type := mk { Name : string; SchemaName : string }.
End ExtensionDef.

Module EnumTypeDef.
Record t : Type := mk {
  SchemaName : string;
  TypeName : string;
  Labels : list string }.
End EnumTypeDef.

Module RuleDef.
Record t : Type := mk {
  SchemaName : string;
  TableName : string;
  RuleName : string;
  Event : string;
  IsInstead : bool }.
End RuleDef.

Module Parser.

Import Utf8 Strings Regexp.

Record ParsedSchema : Type := mkSchema {
  Tables : list TableDef.t;
  Constraints : list ConstraintDef.t;
  Indexes : list IndexDef.t;
  Sequences : list SequenceDef.t;
  Extensions : list ExtensionDef.t;
  EnumTypes : list EnumTypeDef.t;
  Rules : list RuleDef.t;
  PgVersion : string }.

(** [&ParsedSchema{}] *)
Definition emptySchema : ParsedSchema :=
  mkSchema [] [] [] [] [] [] [] EmptyString.

Definition with_Tables (v : list TableDef.t) (s : ParsedSchema) : ParsedSchema :=
  mkSchema v (Constraints s) (Indexes s) (Sequences s) (Extensions s)
           (EnumTypes s) (Rules s) (PgVersion s).
Definition with_Constraints (v : list ConstraintDef.t) (s : ParsedSchema) : ParsedSchema :=
  mkSchema (Tables s) v (Indexes s) (Sequences s) (Extensions s)
           (EnumTypes s) (Rules s) (PgVersion s).
Definition with_Indexes (v : list IndexDef.t) (s : ParsedSchema) : ParsedSchema :=
  mkSchema (Tables s) (Constraints s) v (Sequences s) (Extensions s)
           (EnumTypes s) (Rules s) (PgVersion s).
Definition with_Sequences (v : list SequenceDef.t) (s : ParsedSchema) : ParsedSchema :=
  mkSchema (Tables s) (Constraints s) (Indexes s) v (Extensions s)
           (EnumTypes s) (Rules s) (PgVersion s).
Definition with_Extensions (v : list ExtensionDef.t) (s : ParsedSchema) : ParsedSchema :=
  mkSchema (Tables s) (Constraints s) (Indexes s) (Sequences s) v
           (EnumTypes s) (Rules s) (PgVersion s).
Definition with_EnumTypes (v : list EnumTypeDef.t) (s : ParsedSchema) : ParsedSchema :=
  mkSchema (Tables s) (Constraints s) (Indexes s) (Sequences s) (Extensions s)
           v (Rules s) (PgVersion s).
Definition with_Rules (v : list RuleDef.t) (s : ParsedSchema) : ParsedSchema :=
  mkSchema (Tables s) (Constraints s) (Indexes s) (Sequences s) (Extensions s)
           (EnumTypes s) v (PgVersion s).
Definition with_PgVersion (v : string) (s : ParsedSchema) : ParsedSchema :=
  mkSchema (Tables s) (Constraints s) (Indexes s) (Sequences s) (Extensions s)
           (EnumTypes s) (Rules s) v.

(** [GetTable]: the pointer [&s.Tables[i]] is the index [i] of the first
    table with the given schema and name; [None] is nil. *)
Fixpoint GetTable_from (i : nat) (ts : list TableDef.t) (schema name : string)
  : option nat :=
  match ts with
  | [] => None
  | x :: rest =>
    if String.eqb (TableDef.SchemaName x) schema
       && String.eqb (TableDef.TableName x) name
    then Some i
    else GetTable_from (S i) rest schema name
  end.

Definition GetTable (s : ParsedSchema) (schema name : string) : option nat :=
  GetTable_from 0 (Tables s) schema name.

Definition GetConstraintsForTable (s : ParsedSchema)
           (schema name constraintType : string) : list ConstraintDef.t :=
  filter (fun c =>
            String.eqb (ConstraintDef.TableSchema c) schema
            && String.eqb (ConstraintDef.TableName c) name
            && (String.eqb constraintType EmptyString
                || String.eqb (ConstraintDef.ConstraintType c) constraintType))
         (Constraints s).

Definition GetIndexesForTable (s : ParsedSchema) (schema name : string)
  : list IndexDef.t :=
  filter (fun x =>
            String.eqb (IndexDef.TableSchema x) schema
            && String.eqb (IndexDef.TableName x) name)
         (Indexes s).

(** ** Package parser: parser.go *)

Definition excludedSchemas (s : string) : bool :=
  String.eqb s "pg_catalog" || String.eqb s "information_schema"
  || String.eqb s "spock" || String.eqb s "pg_toast".

(** *** The compiled patterns, under the names they have in the source

    The comment before each pattern gives its source text, with blanks
    between its parts and with Q for the double-quote character. *)

(* source:
      -- \s* Dumped from database version  ( \S+ ) *)
Definition rePgVersion : regex :=
  cat [lit "--"; ws0; lit "Dumped from database version "; Cap 1 (plus nonspace)].

(* source:
      (?i) SELECT \s+ pg_catalog\.set_config\( \s* 'search_path' \s* , \s* '
      ( [^']* ) ' \s*  |  SET \s+ search_path \s* = \s* ( .+? ) \s* ; *)
Definition reSetSearchPath : regex :=
  Or (cat [ilit "SELECT"; ws1; ilit "pg_catalog.set_config("; ws0;
           ilit "'search_path'"; ws0; lit ","; ws0; lit "'";
           Cap 1 (Star true (isnot 0x27)); lit "'"; ws0])
     (cat [ilit "SET"; ws1; ilit "search_path"; ws0; lit "="; ws0;
           Cap 2 (plus_lazy dot); ws0; lit ";"]).

(* source:
      (?i) CREATE \s+ EXTENSION \s+ (?: IF \s+ NOT \s+ EXISTS \s+ )? ( \S+ )
      (?: \s+ (?: WITH \s+ )? SCHEMA \s+ ( \S+ ) )? *)
Definition reCreateExtension : regex :=
  cat [ilit "CREATE"; ws1; ilit "EXTENSION"; ws1; if_not_exists;
       Cap 1 (plus nonspace);
       Opt (cat [ws1; Opt (cat [ilit "WITH"; ws1]); ilit "SCHEMA"; ws1;
                 Cap 2 (plus nonspace)])].

(* source:
      (?i) CREATE \s+ ( UNLOGGED \s+ )? TABLE \s+ (?: IF \s+ NOT \s+ EXISTS
      \s+ )? ( [\wQ]+ (?: \. [\wQ]+ )? ) \s* \( *)
Definition reCreateTable : regex :=
  cat [ilit "CREATE"; ws1; Opt (Cap 1 (cat [ilit "UNLOGGED"; ws1]));
       ilit "TABLE"; ws1; if_not_exists; Cap 2 qname; ws0; lit "("].

(* source:
      (?i) CREATE \s+ SEQUENCE \s+ (?: IF \s+ NOT \s+ EXISTS \s+ )? ( [\wQ]+
      (?: \. [\wQ]+ )? ) *)
Definition reCreateSequence : regex :=
  cat [ilit "CREATE"; ws1; ilit "SEQUENCE"; ws1; if_not_exists; Cap 1 qname].

(* source:
      (?i) ALTER \s+ TABLE \s+ (?: ONLY \s+ )? ( [\wQ]+ (?: \. [\wQ]+ )? )
      \s+ ADD \s+ CONSTRAINT \s+ ( [\wQ]+ ) \s+ ( PRIMARY \s+ KEY | UNIQUE |
      FOREIGN \s+ KEY | EXCLUDE | CHECK ) *)
Definition reAlterAddConstraint : regex :=
  cat [ilit "ALTER"; ws1; ilit "TABLE"; ws1; Opt (cat [ilit "ONLY"; ws1]);
       Cap 1 qname; ws1; ilit "ADD"; ws1; ilit "CONSTRAINT"; ws1;
       Cap 2 (plus iword_dq); ws1; constraint_kind 3 []].

(* source:
      (?i) CREATE \s+ ( UNIQUE \s+ )? INDEX \s+ (?: IF \s+ NOT \s+ EXISTS
      \s+ )? ( [\wQ]+ ) \s+ ON \s+ (?: ONLY \s+ )? ( [\wQ]+ (?: \. [\wQ]+ )?
      ) *)
Definition reCreateIndex : regex :=
  cat [ilit "CREATE"; ws1; Opt (Cap 1 (cat [ilit "UNIQUE"; ws1]));
       ilit "INDEX"; ws1; if_not_exists; Cap 2 (plus iword_dq); ws1;
       ilit "ON"; ws1; Opt (cat [ilit "ONLY"; ws1]); Cap 3 qname].

(* source:
      (?i) ALTER \s+ TABLE \s+ (?: ONLY \s+ )? ( [\wQ]+ (?: \. [\wQ]+ )? )
      \s+ ALTER \s+ COLUMN \s+ ( [\wQ]+ ) \s+ SET \s+ DEFAULT \s+ ( .+? )
      \s* ; *)
Definition reAlterSetDefault : regex :=
  cat [ilit "ALTER"; ws1; ilit "TABLE"; ws1; Opt (cat [ilit "ONLY"; ws1]);
       Cap 1 qname; ws1; ilit "ALTER"; ws1; ilit "COLUMN"; ws1;
       Cap 2 (plus iword_dq); ws1; ilit "SET"; ws1; ilit "DEFAULT"; ws1;
       Cap 3 (plus_lazy dot); ws0; lit ";"].

(* source:
      (?i) ALTER \s+ TABLE \s+ (?: ONLY \s+ )? ( [\wQ]+ (?: \. [\wQ]+ )? )
      \s+ ALTER \s+ COLUMN \s+ ( [\wQ]+ ) \s+ ADD \s+ GENERATED \s+ ( ALWAYS
      | BY \s+ DEFAULT ) \s+ AS \s+ IDENTITY *)
Definition reAlterAddIdentity : regex :=
  cat [ilit "ALTER"; ws1; ilit "TABLE"; ws1; Opt (cat [ilit "ONLY"; ws1]);
       Cap 1 qname; ws1; ilit "ALTER"; ws1; ilit "COLUMN"; ws1;
       Cap 2 (plus iword_dq); ws1; ilit "ADD"; ws1; ilit "GENERATED"; ws1;
       identity_kind 3; ws1; ilit "AS"; ws1; ilit "IDENTITY"].

(* source:
      (?i) ALTER \s+ SEQUENCE \s+ ( [\wQ]+ (?: \. [\wQ]+ )? ) \s+ OWNED \s+
      BY \s+ ( [\wQ]+ (?: \. [\wQ]+ )? ) \. ( [\wQ]+ ) *)
Definition reAlterSeqOwned : regex :=
  cat [ilit "ALTER"; ws1; ilit "SEQUENCE"; ws1; Cap 1 qname; ws1;
       ilit "OWNED"; ws1; ilit "BY"; ws1; Cap 2 qname; lit ".";
       Cap 3 (plus iword_dq)].

(* source:
      (?i) CREATE \s+ TYPE \s+ ( [\wQ]+ (?: \. [\wQ]+ )? ) \s+ AS \s+ ENUM
      \s* \( *)
Definition reCreateTypeEnum : regex :=
  cat [ilit "CREATE"; ws1; ilit "TYPE"; ws1; Cap 1 qname; ws1; ilit "AS";
       ws1; ilit "ENUM"; ws0; lit "("].

(* source:
      (?i) CREATE \s+ (?: OR \s+ REPLACE \s+ )? RULE \s+ ( [\wQ]+ ) \s+ AS
      \s+ ON \s+ ( \w+ ) \s+ TO \s+ ( [\wQ]+ (?: \. [\wQ]+ )? ) \s+ DO \s+ (
      INSTEAD \s+ )? *)
Definition reCreateRule : regex :=
  cat [ilit "CREATE"; ws1; Opt (cat [ilit "OR"; ws1; ilit "REPLACE"; ws1]);
       ilit "RULE"; ws1; Cap 1 (plus iword_dq); ws1; ilit "AS"; ws1;
       ilit "ON"; ws1; Cap 2 (plus iword); ws1; ilit "TO"; ws1; Cap 3 qname;
       ws1; ilit "DO"; ws1; Opt (Cap 4 (cat [ilit "INSTEAD"; ws1]))].

(* source:
      (?i) REFERENCES \s+ ( [\wQ]+ (?: \. [\wQ]+ )? ) \s* \( ( [^)]+ ) \) *)
Definition reFkReferences : regex :=
  cat [ilit "REFERENCES"; ws1; Cap 1 qname; ws0; lit "(";
       Cap 2 (plus (isnot 0x29)); lit ")"].

(* source:
      (?i) ON \s+ DELETE \s+ ( CASCADE | SET \s+ NULL | SET \s+ DEFAULT |
      RESTRICT | NO \s+ ACTION ) *)
Definition reFkOnDelete : regex :=
  cat [ilit "ON"; ws1; ilit "DELETE"; ws1; fk_action].

(* source:
      (?i) ON \s+ UPDATE \s+ ( CASCADE | SET \s+ NULL | SET \s+ DEFAULT |
      RESTRICT | NO \s+ ACTION ) *)
Definition reFkOnUpdate : regex :=
  cat [ilit "ON"; ws1; ilit "UPDATE"; ws1; fk_action].

(* source:
      ^ \s* ( [\wQ]+ ) \s+ ( .+ ) $ *)
Definition reColumnLine : regex :=
  cat [Bot; ws0; Cap 1 (plus word_dq); ws1; Cap 2 (plus dot); Eot].

(* source:
      (?i) \b NOT \s+ NULL \b *)
Definition reNotNull : regex :=
  cat [Wb; ilit "NOT"; ws1; ilit "NULL"; Wb].

(* source:
      (?i) \b DEFAULT \s+ ( .+? ) (?: \s+ NOT \s+ NULL | \s+ NULL | \s* ,?
      \s* $ ) *)
Definition reDefault : regex :=
  cat [Wb; ilit "DEFAULT"; ws1; Cap 1 (plus_lazy dot);
       alt [cat [ws1; ilit "NOT"; ws1; ilit "NULL"];
            cat [ws1; ilit "NULL"];
            cat [ws0; Opt (lit ","); ws0; Eot]]].

(* source:
      (?i) \b GENERATED \s+ ALWAYS \s+ AS \s* \( ( .+? ) \) \s+ STORED *)
Definition reGenerated : regex :=
  cat [Wb; ilit "GENERATED"; ws1; ilit "ALWAYS"; ws1; ilit "AS"; ws0;
       lit "("; Cap 1 (plus_lazy dot); lit ")"; ws1; ilit "STORED"].

(* source:
      (?i) \b GENERATED \s+ ( ALWAYS | BY \s+ DEFAULT ) \s+ AS \s+ IDENTITY *)
Definition reIdentityInline : regex :=
  cat [Wb; ilit "GENERATED"; ws1; identity_kind 1; ws1; ilit "AS"; ws1;
       ilit "IDENTITY"].

(* source:
      (?i) ^ \s* ( PRIMARY \s+ KEY | UNIQUE | FOREIGN \s+ KEY | EXCLUDE |
      CHECK | CONSTRAINT ) \b *)
Definition reTableConstraintKw : regex :=
  cat [Bot; ws0; constraint_kind 1 [ilit "CONSTRAINT"]; Wb].

(* source:
      ( \$ [\w]* \$ ) *)
Definition reDollarQuote : regex :=
  Cap 1 (cat [lit "$"; Star true word; lit "$"]).

(* source:
      (?i) \b AS \s+ ( smallint | integer | bigint ) \b *)
Definition reSeqAs : regex :=
  cat [Wb; ilit "AS"; ws1;
       Cap 1 (alt [ilit "smallint"; ilit "integer"; ilit "bigint"]); Wb].

(* source:
      (?i) \b START \s+ WITH \s+ ( \d+ ) *)
Definition reSeqStart : regex :=
  cat [Wb; ilit "START"; ws1; ilit "WITH"; ws1; Cap 1 (plus digit)].
(* source:
      (?i) \b INCREMENT \s+ BY \s+ ( \d+ ) *)
Definition reSeqIncrement : regex :=
  cat [Wb; ilit "INCREMENT"; ws1; ilit "BY"; ws1; Cap 1 (plus digit)].
(* source:
      (?i) \b MINVALUE \s+ ( \d+ ) *)
Definition reSeqMinValue : regex :=
  cat [Wb; ilit "MINVALUE"; ws1; Cap 1 (plus digit)].
(* source:
      (?i) \b MAXVALUE \s+ ( \d+ ) *)
Definition reSeqMaxValue : regex :=
  cat [Wb; ilit "MAXVALUE"; ws1; Cap 1 (plus digit)].
(* source:
      (?i) \b CYCLE \b *)
Definition reSeqCycle : regex := cat [Wb; ilit "CYCLE"; Wb].
(* source:
      (?i) \b NO \s+ CYCLE \b *)
Definition reSeqNoCycle : regex := cat [Wb; ilit "NO"; ws1; ilit "CYCLE"; Wb].

(* source:
      (?i) \) \s* INHERITS \s* \( ( [^)]+ ) \) *)
Definition reInherits : regex :=
  cat [lit ")"; ws0; ilit "INHERITS"; ws0; lit "(";
       Cap 1 (plus (isnot 0x29)); lit ")"].

(* source:
      (?i) \) \s* (?: INHERITS \s* \( [^)]* \) \s* )? PARTITION \s+ BY \s+ (
      .+? ) (?: \s* ; | $ ) *)
Definition rePartitionBy : regex :=
  cat [lit ")"; ws0;
       Opt (cat [ilit "INHERITS"; ws0; lit "("; Star true (isnot 0x29);
                 lit ")"; ws0]);
       ilit "PARTITION"; ws1; ilit "BY"; ws1; Cap 1 (plus_lazy dot);
       Or (cat [ws0; lit ";"]) Eot].

(* source:
      (?i) \b USING \s+ ( \w+ ) *)
Definition reIndexMethod : regex :=
  cat [Wb; ilit "USING"; ws1; Cap 1 (plus iword)].

(* source:
      (?i) \b DEFERRABLE \b *)
Definition reDeferrable : regex := cat [Wb; ilit "DEFERRABLE"; Wb].
(* source:
      (?i) \b NOT \s+ DEFERRABLE \b *)
Definition reNotDeferrable : regex :=
  cat [Wb; ilit "NOT"; ws1; ilit "DEFERRABLE"; Wb].
(* source:
      (?i) \b INITIALLY \s+ DEFERRED \b *)
Definition reInitiallyDeferred : regex :=
  cat [Wb; ilit "INITIALLY"; ws1; ilit "DEFERRED"; Wb].

(* source:
      (?i) CONSTRAINT \s+ ( [\wQ]+ ) \s+ *)
Definition reConstraintName : regex :=
  cat [ilit "CONSTRAINT"; ws1; Cap 1 (plus iword_dq); ws1].

(** the pattern compiled inside the CREATE TABLE branch of [processStatement] *)
(* source:
      (?i) ^ \s* CREATE \s *)
Definition reCreateLead : regex := cat [Bot; ws0; ilit "CREATE"; Rn space].

(** *** Run-time panics

    A computation that may panic returns an option; [None] is the panic,
    which unwinds the whole of [ParseDump]. *)

Notation "x <- e ;; f" :=
  (match e with Some x => f | None => None end)
  (at level 61, e at next level, right associativity).

(** The double-quote character and the one-character string made of it. *)
Definition dquote_char : ascii := ascii_of_nat 34.
Definition dquote : string := String dquote_char EmptyString.

(** The slice expression [s[lo:hi]] with Go's bounds check: it panics unless
    [0 <= lo <= hi <= len(s)]. *)
Definition go_slice (s : string) (lo hi : Z) : option string :=
  if ((0 <=? lo) && (lo <=? hi) && (hi <=? Z.of_nat (len s)))%Z
  then Some (slice (Z.to_nat lo) (Z.to_nat hi) s)
  else None.

(** *** Helper functions (parser.go 650-703) *)

(** [unquote] strips double-quote wrappers from identifiers. *)
Definition unquote (name : string) : option string :=
  if HasPrefix name dquote && HasSuffix name dquote
  then go_slice name 1 (Z.of_nat (len name) - 1)
  else Some name.

(** [splitQualified] splits schema.name, or just name, into (schema, name). *)
Definition splitQualified (name defaultSchema : string)
  : option (string * string) :=
  match Index name "." with
  | Some idx =>
    a <- unquote (slice 0 idx name) ;;
    b <- unquote (from (idx + 1) name) ;;
    Some (a, b)
  | None =>
    b <- unquote name ;;
    Some (defaultSchema, b)
  end.

(** the loop of [parseColumnList] *)
Fixpoint parseColumnList_loop (pieces : list string) (cols : list string)
  : option (list string) :=
  match pieces with
  | [] => Some cols
  | c :: rest =>
    let c := TrimSpace c in
    if negb (String.eqb c EmptyString)
    then u <- unquote c ;; parseColumnList_loop rest (cols ++ [u])
    else parseColumnList_loop rest cols
  end.

Definition parseColumnList (text : string) : option (list string) :=
  let text := TrimSpace text in
  let text := TrimPrefix text "(" in
  let text := TrimSuffix text ")" in
  parseColumnList_loop (Split text ",") [].

(** [extractParenContent]: the content of the first balanced parentheses.
    [i] is the byte offset of the rune at hand, [start] is -1 until the first
    opening parenthesis at depth 0. *)
Fixpoint extractParenContent_loop (text : string) (rs : list (Z * nat))
         (i : nat) (depth : Z) (start : Z) : string :=
  match rs with
  | [] => EmptyString
  | (ch, w) :: t =>
    if (ch =? 0x28)%Z then
      extractParenContent_loop text t (i + w) (depth + 1)
        (if (depth =? 0)%Z then Z.of_nat i + 1 else start)%Z
    else if (ch =? 0x29)%Z then
      let depth := (depth - 1)%Z in
      if ((depth =? 0) && (0 <=? start))%Z
      then slice (Z.to_nat start) i text
      else extractParenContent_loop text t (i + w) depth start
    else extractParenContent_loop text t (i + w) depth start
  end.

Definition extractParenContent (text : string) : string :=
  extractParenContent_loop text (runes text) 0 0%Z (-1)%Z.

(** [splitBodyParts] splits the body of CREATE TABLE on top-level commas.
    [current] is the [strings.Builder]. *)
Fixpoint splitBodyParts_loop (rs : list (Z * nat)) (parts : list string)
         (depth : Z) (current : string) : list string :=
  match rs with
  | [] =>
    if (0 <? len current)%nat then parts ++ [current] else parts
  | (ch, _) :: t =>
    if (ch =? 0x28)%Z then
      splitBodyParts_loop t parts (depth + 1)%Z (current ++ EncodeRune ch)
    else if (ch =? 0x29)%Z then
      splitBodyParts_loop t parts (depth - 1)%Z (current ++ EncodeRune ch)
    else if (ch =? 0x2C)%Z then
      if (depth =? 0)%Z
      then splitBodyParts_loop t (parts ++ [current]) depth EmptyString
      else splitBodyParts_loop t parts depth (current ++ EncodeRune ch)
    else splitBodyParts_loop t parts depth (current ++ EncodeRune ch)
  end.

Definition splitBodyParts (body : string) : list string :=
  splitBodyParts_loop (runes body) [] 0%Z EmptyString.

(** *** Columns and inline constraints (parser.go 474-648) *)

Definition constraintKeyword (upperName : string) : bool :=
  String.eqb upperName "PRIMARY" || String.eqb upperName "UNIQUE"
  || String.eqb upperName "FOREIGN" || String.eqb upperName "EXCLUDE"
  || String.eqb upperName "CHECK" || String.eqb upperName "CONSTRAINT".

(** the loop of [parseColumn] that finds where the data type ends *)
Definition typeEnd_step (rest : string) (typeEnd : nat) (pat : regex) : nat :=
  match FindStringIndex pat rest with
  | Some (lo, _) => if (lo <? typeEnd)%nat then lo else typeEnd
  | None => typeEnd
  end.

(** [parseColumn]: the inner [None] is the nil result. *)
Definition parseColumn (line : string) : option (option ColumnDef.t) :=
  let line := TrimSuffix (TrimSpace line) "," in
  if String.eqb line EmptyString || HasPrefix line "--" then Some None
  else if MatchString reTableConstraintKw line then Some None
  else
    match FindStringSubmatch reColumnLine line with
    | None => Some None
    | Some m =>
      name <- unquote (sub m 1) ;;
      let rest := sub m 2 in
      let upperName := ToUpper name in
      if constraintKeyword upperName then Some None
      else
        let typeEnd :=
          fold_left (typeEnd_step rest)
                    [reNotNull; reDefault; reGenerated; reIdentityInline]
                    (len rest) in
        let dataType := TrimSuffix (TrimSpace (slice 0 typeEnd rest)) "," in
        let notNull := MatchString reNotNull rest in
        let defaultExpr :=
          match FindStringSubmatch reDefault rest with
          | Some dm => TrimSuffix (TrimSpace (sub dm 1)) ","
          | None => EmptyString
          end in
        let generatedExpr :=
          match FindStringSubmatch reGenerated rest with
          | Some gm => TrimSpace (sub gm 1)
          | None => EmptyString
          end in
        let identity :=
          match FindStringSubmatch reIdentityInline rest with
          | Some im => ToUpper (ReplaceAll (sub im 1) "  " " ")
          | None => EmptyString
          end in
        Some (Some (ColumnDef.mk name dataType notNull defaultExpr identity
                                 generatedExpr))
    end.

(** the foreign-key part of [parseInlineConstraint] *)
Definition inlineForeignKey (conName rest : string) (tbl : TableDef.t)
           (searchPath : string) : option ConstraintDef.t :=
  cols <- parseColumnList (extractParenContent rest) ;;
  ref <- match FindStringSubmatch reFkReferences rest with
         | Some ref =>
           rsn <- splitQualified (sub ref 1) searchPath ;;
           rc <- parseColumnList (sub ref 2) ;;
           Some (fst rsn, snd rsn, rc)
         | None => Some (EmptyString, EmptyString, [])
         end ;;
  let onDelete := match FindStringSubmatch reFkOnDelete rest with
                  | Some del => ToUpper (sub del 1)
                  | None => EmptyString
                  end in
  let onUpdate := match FindStringSubmatch reFkOnUpdate rest with
                  | Some upd => ToUpper (sub upd 1)
                  | None => EmptyString
                  end in
  Some (ConstraintDef.mk conName "FOREIGN KEY" (TableDef.SchemaName tbl)
          (TableDef.TableName tbl) cols (fst (fst ref)) (snd (fst ref))
          (snd ref) onDelete onUpdate false false).

(** [parseInlineConstraint] parses a table-level constraint inside the body
    of CREATE TABLE and appends it to the schema's constraints. *)
Definition parseInlineConstraint (text : string) (tbl : TableDef.t)
           (searchPath : string) (schema : ParsedSchema)
  : option ParsedSchema :=
  nr <- match FindStringSubmatch reConstraintName text with
        | Some m =>
          conName <- unquote (sub m 1) ;;
          Some (conName, from (len (sub m 0)) text)
        | None => Some (EmptyString, text)
        end ;;
  let conName := fst nr in
  let rest := snd nr in
  let restUpper := ToUpper (TrimSpace rest) in
  if HasPrefix restUpper "PRIMARY KEY" then
    cols <- parseColumnList (extractParenContent rest) ;;
    Some (with_Constraints
            (Constraints schema ++
             [ConstraintDef.mk conName "PRIMARY KEY" (TableDef.SchemaName tbl)
                (TableDef.TableName tbl) cols EmptyString EmptyString []
                EmptyString EmptyString false false]) schema)
  else if HasPrefix restUpper "UNIQUE" then
    cols <- parseColumnList (extractParenContent rest) ;;
    Some (with_Constraints
            (Constraints schema ++
             [ConstraintDef.mk conName "UNIQUE" (TableDef.SchemaName tbl)
                (TableDef.TableName tbl) cols EmptyString EmptyString []
                EmptyString EmptyString
                (MatchString reDeferrable rest
                 && negb (MatchString reNotDeferrable rest))
                false]) schema)
  else if HasPrefix restUpper "FOREIGN KEY" then
    con <- inlineForeignKey conName rest tbl searchPath ;;
    Some (with_Constraints (Constraints schema ++ [con]) schema)
  else Some schema.

(** the loop of [parseTableBody] over the parts of the body *)
Fixpoint parseTableBody_loop (parts : list string) (tbl : TableDef.t)
         (searchPath : string) (schema : ParsedSchema)
  : option (TableDef.t * ParsedSchema) :=
  match parts with
  | [] => Some (tbl, schema)
  | part :: more =>
    let part := TrimSpace part in
    if String.eqb part EmptyString
    then parseTableBody_loop more tbl searchPath schema
    else if MatchString reTableConstraintKw part then
      schema' <- parseInlineConstraint part tbl searchPath schema ;;
      parseTableBody_loop more tbl searchPath schema'
    else
      col <- parseColumn part ;;
      match col with
      | Some c =>
        parseTableBody_loop more
          (TableDef.with_Columns (TableDef.Columns tbl ++ [c]) tbl)
          searchPath schema
      | None => parseTableBody_loop more tbl searchPath schema
      end
  end.

(** [parseTableBody] parses the body (between parentheses) of CREATE TABLE. *)
Definition parseTableBody (body : string) (tbl : TableDef.t)
           (searchPath : string) (schema : ParsedSchema)
  : option (TableDef.t * ParsedSchema) :=
  parseTableBody_loop (splitBodyParts body) tbl searchPath schema.

(** *** Statements (parser.go 192-472) *)

(** [strconv.ParseInt(s, 10, 64)]: [None] is a non-nil error (a syntax
    error or a value outside int64). *)
Fixpoint digits_val (s : string) (acc : Z) : option Z :=
  match s with
  | EmptyString => Some acc
  | String c t =>
    let d := (byte_val c - 0x30)%Z in
    if ((0 <=? d) && (d <=? 9))%Z then digits_val t (acc * 10 + d)%Z else None
  end.

Definition ParseInt (s : string) : option Z :=
  let neg := HasPrefix s "-" in
  let body := if neg || HasPrefix s "+" then from 1 s else s in
  if String.eqb body EmptyString then None
  else
    match digits_val body 0 with
    | Some v =>
      let v := if neg then (- v)%Z else v in
      if ((- 2 ^ 63 <=? v) && (v <=? 2 ^ 63 - 1))%Z then Some v else None
    | None => None
    end.

(** The recognisers in the order [processStatement] tries them.  Each carries
    the offsets of its match. *)
Inductive shape : Type :=
| CreateExtension (loc : caps)
| CreateTypeEnum (loc : caps)
| CreateSequence (loc : caps)
| CreateTable (loc : caps)
| AlterAddConstraint (loc : caps)
| CreateIndex (loc : caps)
| AlterSetDefault (loc : caps)
| AlterAddIdentity (loc : caps)
| AlterSeqOwned (loc : caps)
| CreateRule (loc : caps)
| NoShape.

Definition first_match (l : list (regex * (caps -> shape) * bool)) (stmt : string)
  : shape :=
  fold_right
    (fun (r : regex * (caps -> shape) * bool) (next : shape) =>
       match FindStringSubmatchIndex (fst (fst r)) stmt with
       | Some loc => if snd r then snd (fst r) loc else next
       | None => next
       end)
    NoShape l.

(** The chain of [if m := re.Find...(stmt); m != nil] tests: the first
    recogniser whose pattern (and extra condition, for the first and the
    third) holds claims the statement. *)
Definition recognise (stmt : string) : shape :=
  let upper := ToUpper (TrimSpace stmt) in
  first_match
    [(reCreateExtension, CreateExtension, HasPrefix (TrimSpace upper) "CREATE");
     (reCreateTypeEnum, CreateTypeEnum, true);
     (reCreateSequence, CreateSequence, Contains upper "CREATE SEQUENCE");
     (reCreateTable, CreateTable, true);
     (reAlterAddConstraint, AlterAddConstraint, true);
     (reCreateIndex, CreateIndex, true);
     (reAlterSetDefault, AlterSetDefault, true);
     (reAlterAddIdentity, AlterAddIdentity, true);
     (reAlterSeqOwned, AlterSeqOwned, true);
     (reCreateRule, CreateRule, true)]
    stmt.

(** CREATE EXTENSION (194-210) *)
Definition doCreateExtension (stmt : string) (schema : ParsedSchema)
           (loc : caps) : option ParsedSchema :=
  let m := submatches reCreateExtension stmt loc in
  u1 <- unquote (sub m 1) ;;
  let name := TrimSuffix u1 ";" in
  extSchema <- (if negb (String.eqb (sub m 2) EmptyString)
                then u2 <- unquote (sub m 2) ;; Some (TrimSuffix u2 ";")
                else Some "public") ;;
  if negb (excludedSchemas (ToLower name))
  then Some (with_Extensions
               (Extensions schema ++ [ExtensionDef.mk name extSchema]) schema)
  else Some schema.

Fixpoint enumLabels (pieces : list string) (labels : list string) : list string :=
  match pieces with
  | [] => labels
  | lbl :: rest =>
    let lbl := Trim (TrimSpace lbl) "'" in
    if negb (String.eqb lbl EmptyString)
    then enumLabels rest (labels ++ [lbl])
    else enumLabels rest labels
  end.

(** CREATE TYPE AS ENUM (212-233) *)
Definition doCreateTypeEnum (stmt searchPath : string) (schema : ParsedSchema)
           (loc : caps) : option ParsedSchema :=
  let matches := submatches reCreateTypeEnum stmt loc in
  sn <- splitQualified (sub matches 1) searchPath ;;
  if negb (excludedSchemas (fst sn)) then
    let content := extractParenContent (from (cap_start loc 0) stmt) in
    let labels := enumLabels (Split content ",") [] in
    Some (with_EnumTypes
            (EnumTypes schema ++ [EnumTypeDef.mk (fst sn) (snd sn) labels])
            schema)
  else Some schema.

(** a numeric option of CREATE SEQUENCE: nil unless the pattern matches and
    the digits parse *)
Definition seqOption (re : regex) (stmt : string) : option Z :=
  match FindStringSubmatch re stmt with
  | Some m => ParseInt (sub m 1)
  | None => None
  end.

(** CREATE SEQUENCE (235-276) *)
Definition doCreateSequence (stmt searchPath : string) (schema : ParsedSchema)
           (loc : caps) : option ParsedSchema :=
  let m := submatches reCreateSequence stmt loc in
  sn <- splitQualified (sub m 1) searchPath ;;
  if negb (excludedSchemas (fst sn)) then
    let dataType := match FindStringSubmatch reSeqAs stmt with
                    | Some a => ToLower (sub a 1)
                    | None => "bigint"
                    end in
    let seq :=
      SequenceDef.mk (fst sn) (snd sn) dataType
        (seqOption reSeqStart stmt) (seqOption reSeqIncrement stmt)
        (seqOption reSeqMinValue stmt) (seqOption reSeqMaxValue stmt)
        (MatchString reSeqCycle stmt && negb (MatchString reSeqNoCycle stmt))
        EmptyString EmptyString in
    Some (with_Sequences (Sequences schema ++ [seq]) schema)
  else Some schema.

(** CREATE TABLE (278-315) *)
Definition doCreateTable (stmt searchPath : string) (schema : ParsedSchema)
           (loc : caps) : option ParsedSchema :=
  let m := submatches reCreateTable stmt loc in
  if negb (MatchString reCreateLead stmt) then Some schema
  else
    let unlogged := negb (String.eqb (sub m 1) EmptyString) in
    sn <- splitQualified (sub m 2) searchPath ;;
    if excludedSchemas (fst sn) then Some schema
    else
      let tbl := TableDef.mk (fst sn) (snd sn) [] unlogged [] EmptyString in
      let body := extractParenContent stmt in
      ts <- (if negb (String.eqb body EmptyString)
             then parseTableBody body tbl (fst sn) schema
             else Some (tbl, schema)) ;;
      let tbl := fst ts in
      let schema := snd ts in
      let tbl := match FindStringSubmatch reInherits stmt with
                 | Some inh =>
                   TableDef.with_Inherits
                     (TableDef.Inherits tbl ++ map TrimSpace (Split (sub inh 1) ","))
                     tbl
                 | None => tbl
                 end in
      let tbl := match FindStringSubmatch rePartitionBy stmt with
                 | Some part =>
                   TableDef.with_PartitionBy
                     (TrimSuffix (TrimSpace (sub part 1)) ";") tbl
                 | None => tbl
                 end in
      Some (with_Tables (Tables schema ++ [tbl]) schema).

(** ALTER TABLE ADD CONSTRAINT (317-366) *)
Definition doAlterAddConstraint (stmt searchPath : string)
           (schema : ParsedSchema) (loc : caps) : option ParsedSchema :=
  let m := submatches reAlterAddConstraint stmt loc in
  sn <- splitQualified (sub m 1) searchPath ;;
  if excludedSchemas (fst sn) then Some schema
  else
    conName <- unquote (sub m 2) ;;
    let conType := ToUpper (ReplaceAll (sub m 3) "  " " ") in
    let afterType := from (cap_end loc 3) stmt in
    let colContent := extractParenContent afterType in
    cols <- (if negb (String.eqb colContent EmptyString)
                && negb (String.eqb conType "EXCLUDE")
             then parseColumnList colContent else Some []) ;;
    let isFK := String.eqb conType "FOREIGN KEY" in
    ref <- match (if isFK then FindStringSubmatch reFkReferences afterType
                  else None) with
           | Some ref =>
             rsn <- splitQualified (sub ref 1) searchPath ;;
             rc <- parseColumnList (sub ref 2) ;;
             Some (fst rsn, snd rsn, rc)
           | None => Some (EmptyString, EmptyString, [])
           end ;;
    let onDelete :=
      match (if isFK then FindStringSubmatch reFkOnDelete afterType
             else None) with
      | Some del => ToUpper (ReplaceAll (sub del 1) "  " " ")
      | None => EmptyString
      end in
    let onUpdate :=
      match (if isFK then FindStringSubmatch reFkOnUpdate afterType
             else None) with
      | Some upd => ToUpper (ReplaceAll (sub upd 1) "  " " ")
      | None => EmptyString
      end in
    let con :=
      ConstraintDef.mk conName conType (fst sn) (snd sn) cols
        (fst (fst ref)) (snd (fst ref)) (snd ref) onDelete onUpdate
        (MatchString reDeferrable stmt && negb (MatchString reNotDeferrable stmt))
        (MatchString reInitiallyDeferred stmt) in
    Some (with_Constraints (Constraints schema ++ [con]) schema).

(** CREATE INDEX (368-400) *)
Definition doCreateIndex (stmt searchPath : string) (schema : ParsedSchema)
           (loc : caps) : option ParsedSchema :=
  let m := submatches reCreateIndex stmt loc in
  let isUnique := negb (String.eqb (sub m 1) EmptyString) in
  idxName <- unquote (sub m 2) ;;
  sn <- splitQualified (sub m 3) searchPath ;;
  if excludedSchemas (fst sn) then Some schema
  else
    let method := match FindStringSubmatch reIndexMethod stmt with
                  | Some me => ToLower (sub me 1)
                  | None => "btree"
                  end in
    let afterTable := from (cap_end loc 3) stmt in
    let colContent := extractParenContent afterTable in
    cols <- (if negb (String.eqb colContent EmptyString)
             then parseColumnList colContent else Some []) ;;
    Some (with_Indexes
            (Indexes schema ++
             [IndexDef.mk idxName (fst sn) (snd sn) cols isUnique method])
            schema).

(** [for i := range cols { if cols[i].Name == col { ...; break } }] *)
Fixpoint updateFirstColumn (upd : ColumnDef.t -> ColumnDef.t) (col : string)
         (cols : list ColumnDef.t) : list ColumnDef.t :=
  match cols with
  | [] => []
  | c :: rest =>
    if String.eqb (ColumnDef.Name c) col then upd c :: rest
    else c :: updateFirstColumn upd col rest
  end.

(** assignment through the pointer [GetTable] returned *)
Fixpoint updateAt {A : Type} (i : nat) (f : A -> A) (l : list A) : list A :=
  match l, i with
  | [], _ => []
  | x :: rest, O => f x :: rest
  | x :: rest, S k => x :: updateAt k f rest
  end.

(** the common part of the two column back-fills *)
Definition backfillColumn (upd : ColumnDef.t -> ColumnDef.t)
           (s n col : string) (schema : ParsedSchema) : ParsedSchema :=
  if negb (excludedSchemas s) then
    match GetTable schema s n with
    | Some i =>
      with_Tables
        (updateAt i
           (fun tbl => TableDef.with_Columns
                         (updateFirstColumn upd col (TableDef.Columns tbl)) tbl)
           (Tables schema))
        schema
    | None => schema
    end
  else schema.

(** ALTER TABLE ... SET DEFAULT (402-419) *)
Definition doAlterSetDefault (stmt searchPath : string) (schema : ParsedSchema)
           (loc : caps) : option ParsedSchema :=
  let m := submatches reAlterSetDefault stmt loc in
  sn <- splitQualified (sub m 1) searchPath ;;
  col <- unquote (sub m 2) ;;
  let defaultExpr := TrimSpace (sub m 3) in
  Some (backfillColumn (ColumnDef.with_DefaultExpr defaultExpr)
                       (fst sn) (snd sn) col schema).

(** ALTER TABLE ... ADD GENERATED ... AS IDENTITY (421-438) *)
Definition doAlterAddIdentity (stmt searchPath : string) (schema : ParsedSchema)
           (loc : caps) : option ParsedSchema :=
  let m := submatches reAlterAddIdentity stmt loc in
  sn <- splitQualified (sub m 1) searchPath ;;
  col <- unquote (sub m 2) ;;
  let identityType := ToUpper (ReplaceAll (sub m 3) "  " " ") in
  Some (backfillColumn (ColumnDef.with_Identity identityType)
                       (fst sn) (snd sn) col schema).

(** [for i := range seqs { if seqs[i] is (seqS, seqN) { ...; break } }] *)
Fixpoint updateFirstSequence (seqS seqN owner col : string)
         (seqs : list SequenceDef.t) : list SequenceDef.t :=
  match seqs with
  | [] => []
  | q :: rest =>
    if String.eqb (SequenceDef.SchemaName q) seqS
       && String.eqb (SequenceDef.SequenceName q) seqN
    then SequenceDef.with_OwnedBy owner col q :: rest
    else q :: updateFirstSequence seqS seqN owner col rest
  end.

(** ALTER SEQUENCE ... OWNED BY (440-453) *)
Definition doAlterSeqOwned (stmt searchPath : string) (schema : ParsedSchema)
           (loc : caps) : option ParsedSchema :=
  let m := submatches reAlterSeqOwned stmt loc in
  seq <- splitQualified (sub m 1) searchPath ;;
  tbl <- splitQualified (sub m 2) searchPath ;;
  col <- unquote (sub m 3) ;;
  Some (with_Sequences
          (updateFirstSequence (fst seq) (snd seq)
             (fst tbl ++ "." ++ snd tbl) col (Sequences schema))
          schema).

(** CREATE RULE (455-471) *)
Definition doCreateRule (stmt searchPath : string) (schema : ParsedSchema)
           (loc : caps) : option ParsedSchema :=
  let m := submatches reCreateRule stmt loc in
  ruleName <- unquote (sub m 1) ;;
  let event := ToUpper (sub m 2) in
  sn <- splitQualified (sub m 3) searchPath ;;
  let isInstead := negb (String.eqb (sub m 4) EmptyString) in
  if negb (excludedSchemas (fst sn))
  then Some (with_Rules
               (Rules schema ++
                [RuleDef.mk (fst sn) (snd sn) ruleName event isInstead])
               schema)
  else Some schema.

(** [processStatement] processes a single complete SQL statement. *)
Definition processStatement (stmt searchPath : string) (schema : ParsedSchema)
  : option ParsedSchema :=
  match recognise stmt with
  | CreateExtension loc => doCreateExtension stmt schema loc
  | CreateTypeEnum loc => doCreateTypeEnum stmt searchPath schema loc
  | CreateSequence loc => doCreateSequence stmt searchPath schema loc
  | CreateTable loc => doCreateTable stmt searchPath schema loc
  | AlterAddConstraint loc => doAlterAddConstraint stmt searchPath schema loc
  | CreateIndex loc => doCreateIndex stmt searchPath schema loc
  | AlterSetDefault loc => doAlterSetDefault stmt searchPath schema loc
  | AlterAddIdentity loc => doAlterAddIdentity stmt searchPath schema loc
  | AlterSeqOwned loc => doAlterSeqOwned stmt searchPath schema loc
  | CreateRule loc => doCreateRule stmt searchPath schema loc
  | NoShape => Some schema
  end.

(** *** The statement segmenter (parser.go 107-190) *)

Record statementInfo : Type := mkStmt { stmt : string; searchPath : string }.

(** The variables of [splitStatements] that live across lines, and the
    [PgVersion] field of the schema it writes to. *)
Record segmenter : Type := mkSeg {
  results : list statementInfo;
  buf : list string;
  inDollarQuote : bool;
  dollarTag : string;
  curSearchPath : string;
  version : string }.

(** the loop over the entries of a search_path value: the first entry that
    is neither empty nor pg_catalog *)
Fixpoint firstSchema (parts : list string) (searchPath : string) : string :=
  match parts with
  | [] => searchPath
  | p :: rest =>
    let p := Trim (TrimSpace p) (String "'" dquote) in
    if negb (String.eqb p EmptyString) && negb (String.eqb p "pg_catalog")
    then p else firstSchema rest searchPath
  end.

(** Track search_path changes (138-154) *)
Definition trackSearchPath (stripped searchPath : string) : string :=
  match FindStringSubmatch reSetSearchPath stripped with
  | Some m =>
    let spVal := if String.eqb (sub m 1) EmptyString then sub m 2 else sub m 1 in
    if negb (String.eqb spVal EmptyString)
    then firstSchema (Split spVal ",") searchPath
    else searchPath
  | None => searchPath
  end.

(** [restAfter := stripped[idx+len(tag):]] with [idx := strings.Index(stripped,
    tag)]; [idx] is -1 when the tag does not occur, which cannot happen for a
    tag just matched in [stripped]. *)
Definition restAfter (stripped tag : string) : string :=
  match Index stripped tag with
  | Some idx => from (idx + len tag) stripped
  | None => from (len tag - 1) stripped
  end.

(** Handle dollar-quoted strings (156-171): the new values of
    [inDollarQuote] and [dollarTag] *)
Definition trackDollarQuote (stripped : string) (inDQ : bool) (tag : string)
  : bool * string :=
  if negb inDQ then
    match FindStringSubmatch reDollarQuote stripped with
    | Some m =>
      let tag' := sub m 1 in
      if negb (Contains (restAfter stripped tag') tag')
      then (true, tag') else (inDQ, tag)
    | None => (inDQ, tag)
    end
  else if Contains stripped tag then (false, EmptyString)
  else (inDQ, tag).

(** the body of the loop over the lines *)
Definition splitLine (st : segmenter) (line : string) : segmenter :=
  let stripped := TrimSpace line in
  if HasPrefix stripped "--" then
    if String.eqb (version st) EmptyString then
      match FindStringSubmatch rePgVersion stripped with
      | Some m => mkSeg (results st) (buf st) (inDollarQuote st) (dollarTag st)
                        (curSearchPath st) (sub m 1)
      | None => st
      end
    else st
  else if String.eqb stripped EmptyString then st
  else
    let sp := trackSearchPath stripped (curSearchPath st) in
    let dq := trackDollarQuote stripped (inDollarQuote st) (dollarTag st) in
    let buf' := buf st ++ [line] in
    if negb (fst dq) && HasSuffix stripped ";"
    then mkSeg (results st ++ [mkStmt (Join buf' (String "010" EmptyString)) sp])
               [] (fst dq) (snd dq) sp (version st)
    else mkSeg (results st) buf' (fst dq) (snd dq) sp (version st).

(** Flush any remaining buffer (183-187) *)
Definition flush (st : segmenter) : list statementInfo :=
  if (0 <? List.length (buf st))%nat
  then results st ++
       [mkStmt (Join (buf st) (String "010" EmptyString)) (curSearchPath st)]
  else results st.

Definition splitLines (lines : list string) (st : segmenter) : segmenter :=
  fold_left splitLine lines st.

(** [splitStatements] splits SQL text into statements, tracking search_path
    and extracting the PG version into the schema. *)
Definition splitStatements (text : string) (schema : ParsedSchema)
           (searchPath : string) : list statementInfo * ParsedSchema :=
  let st := splitLines (Split text "010")
                       (mkSeg [] [] false EmptyString searchPath
                              (PgVersion schema)) in
  (flush st, with_PgVersion (version st) schema).

(** the loop of [ParseDump] over the statements *)
Fixpoint processStatements (statements : list statementInfo)
         (schema : ParsedSchema) : option ParsedSchema :=
  match statements with
  | [] => Some schema
  | stmtInfo :: rest =>
    schema' <- processStatement (stmt stmtInfo) (searchPath stmtInfo) schema ;;
    processStatements rest schema'
  end.

(** [ParseDump], after the file has been read: [data] is the content of the
    file.  [None] is a panic; the error result of Go is that of
    [os.ReadFile] alone. *)
Definition ParseDump (data : string) : option ParsedSchema :=
  let text := data in
  let ss := splitStatements text emptySchema "public" in
  processStatements (fst ss) (snd ss).

End Parser.

(** ** Package models: the findings of a check and the report *)
Module Models.

(** [strconv.FormatInt(v, 10)] and the verb [%d] of [fmt.Sprintf] *)
Definition FormatInt (v : Z) : string := NilZero.string_of_int (Z.to_int v).

(** [type Severity int], with the constants of the [iota] block *)
Definition Severity : Type := Z.
Definition SeverityCritical : Severity := 0%Z.
Definition SeverityWarning : Severity := 1%Z.
Definition SeverityConsider : Severity := 2%Z.
Definition SeverityInfo : Severity := 3%Z.

(** the map [severityNames]: [None] is a key the map does not hold *)
Definition severityNames (s : Severity) : option string :=
  if (s =? SeverityCritical)%Z then Some "CRITICAL"
  else if (s =? SeverityWarning)%Z then Some "WARNING"
  else if (s =? SeverityConsider)%Z then Some "CONSIDER"
  else if (s =? SeverityInfo)%Z then Some "INFO"
  else None.

(** the map [severityFromName] *)
Definition severityFromName (name : string) : option Severity :=
  if String.eqb name "CRITICAL" then Some SeverityCritical
  else if String.eqb name "WARNING" then Some SeverityWarning
  else if String.eqb name "CONSIDER" then Some SeverityConsider
  else if String.eqb name "INFO" then Some SeverityInfo
  else None.

(** the method [String] of [Severity] *)
Definition Severity_String (s : Severity) : string :=
  match severityNames s with
  | Some name => name
  | None => "Severity(" ++ FormatInt s ++ ")"
  end.

(** [ParseSeverity]: the severity and the error, [None] for a nil error *)
Definition ParseSeverity (s : string) : Severity * option string :=
  match severityFromName s with
  | Some sev => (sev, None)
  | None => (0%Z, Some ("unknown severity: " ++ s)%string)
  end.

(** the values the checks store under [any] *)
Inductive any : Type :=
| AString (s : string)
| AInt (n : Z)
| ABool (b : bool)
| AStrings (l : list string).

End Models.

(** A map literal of [Metadata] is the list of its entries in the order of
    the source; the keys of a literal are distinct.  The nil map is []. *)
Module Finding.
Record t : Type := mk {
  Severity : Models.Severity;
  CheckName : string;
  Category : string;
  Title : string;
  Detail : string;
  ObjectName : string;
  Remediation : string;
  Metadata : list (string * Models.any) }.
End Finding.

Module CheckResult.
Record t : Type := mk {
  CheckName : string;
  Category : string;
  Description : string;
  Findings : list Finding.t;
  Error : string;
  Skipped : bool;
  SkipReason : string }.
End CheckResult.

(** [Time] stands for [time.Time], which no method here looks into. *)
Module ScanReport.
Section WithTime.
Variable Time : Type.

Record t : Type := mk {
  Database : string;
  Host : string;
  Port : Z;
  Timestamp : Time;
  Results : list CheckResult.t;
  PGVersion : string;
  SpockTarget : string;
  ScanMode : string }.

(** [Findings] returns all findings from all check results, flattened. *)
Definition Findings (r : t) : list Finding.t :=
  fold_left (fun all cr => all ++ CheckResult.Findings cr) (Results r) [].

Definition countBySeverity (r : t) (sev : Models.Severity) : Z :=
  fold_left (fun count f =>
               if (Finding.Severity f =? sev)%Z then (count + 1)%Z else count)
            (Findings r) 0%Z.

Definition CriticalCount (r : t) : Z := countBySeverity r Models.SeverityCritical.
Definition WarningCount (r : t) : Z := countBySeverity r Models.SeverityWarning.
Definition ConsiderCount (r : t) : Z := countBySeverity r Models.SeverityConsider.
Definition InfoCount (r : t) : Z := countBySeverity r Models.SeverityInfo.

(** [ChecksPassed]: the checks with no findings, no error, and not skipped *)
Definition ChecksPassed (r : t) : Z :=
  fold_left (fun count cr =>
               if (List.length (CheckResult.Findings cr) =? 0)%nat
                  && String.eqb (CheckResult.Error cr) EmptyString
                  && negb (CheckResult.Skipped cr)
               then (count + 1)%Z else count)
            (Results r) 0%Z.

Definition ChecksTotal (r : t) : Z := Z.of_nat (List.length (Results r)).

End WithTime.
Arguments Results {Time} _.
Arguments Findings {Time} _.
Arguments countBySeverity {Time} _ _.
Arguments CriticalCount {Time} _.
Arguments WarningCount {Time} _.
Arguments ConsiderCount {Time} _.
Arguments InfoCount {Time} _.
Arguments ChecksPassed {Time} _.
Arguments ChecksTotal {Time} _.
End ScanReport.

(** ** Package analyzer: the static checks on a parsed schema *)
Module Analyzer.

Import Utf8 Strings Regexp Parser Models.

(** the character U+2014 of the texts, in UTF-8 *)
Definition emdash : string :=
  String (byte_of 0xE2) (String (byte_of 0x80) (String (byte_of 0x94) EmptyString)).

(** the line feed of the texts *)
Definition nl : string := String "010" EmptyString.

(** [supportedPgMajors]: the PostgreSQL majors Spock 5 supports *)
Definition supportedPgMajors (major : Z) : bool :=
  ((major =? 15) || (major =? 16) || (major =? 17) || (major =? 18))%Z.

(** [sliceEqual] compares two slices of strings. *)
Fixpoint sliceEqual_loop (a b : list string) : bool :=
  match a, b with
  | x :: a', y :: b' =>
    if negb (String.eqb x y) then false else sliceEqual_loop a' b'
  | _, _ => true
  end.

Definition sliceEqual (a b : list string) : bool :=
  if negb (List.length a =? List.length b)%nat then false
  else sliceEqual_loop a b.

(** *** checkPrimaryKeys identifies tables without primary keys. *)

(** the keys of the set [pkTables] *)
Definition pkTables (schema : ParsedSchema) : list string :=
  map (fun c => (ConstraintDef.TableSchema c ++ "." ++ ConstraintDef.TableName c)%string)
      (filter (fun c => String.eqb (ConstraintDef.ConstraintType c) "PRIMARY KEY")
              (Constraints schema)).

(** [set[key]] for a set given by its keys *)
Definition member (set : list string) (key : string) : bool :=
  existsb (String.eqb key) set.

Definition noPrimaryKey (checkName category fqn : string) : Finding.t :=
  Finding.mk SeverityWarning checkName category
    ("Table '" ++ fqn ++ "' has no primary key")
    ("Table '" ++ fqn ++ "' lacks a primary key. Spock automatically places tables without primary keys into the 'default_insert_only' replication set. In this set, only INSERT and TRUNCATE operations are replicated " ++ emdash ++ " UPDATE and DELETE operations are silently filtered out by the Spock output plugin and never sent to subscribers.")
    fqn
    ("Add a primary key to '" ++ fqn ++ "' if UPDATE/DELETE replication is needed. If the table is genuinely insert-only (e.g. an event log), no action is required " ++ emdash ++ " it will replicate correctly in the default_insert_only replication set.")
    [].

Definition checkPrimaryKeys (schema : ParsedSchema) (checkName category : string)
  : list Finding.t :=
  let pk := pkTables schema in
  flat_map
    (fun tbl =>
       if negb (String.eqb (TableDef.PartitionBy tbl) EmptyString) then []
       else
         let fqn := (TableDef.SchemaName tbl ++ "." ++ TableDef.TableName tbl)%string in
         if negb (member pk fqn) then [noPrimaryKey checkName category fqn]
         else [])
    (Tables schema).

(** *** checkForeignKeys identifies FK constraints and warns about CASCADE
    actions. *)

Definition constraintFqn (c : ConstraintDef.t) : string :=
  ConstraintDef.TableSchema c ++ "." ++ ConstraintDef.TableName c.

Definition refFqn (fk : ConstraintDef.t) : string :=
  if negb (String.eqb (ConstraintDef.RefTable fk) EmptyString)
  then ConstraintDef.RefSchema fk ++ "." ++ ConstraintDef.RefTable fk
  else "unknown".

Definition isCascade (fk : ConstraintDef.t) : bool :=
  String.eqb (ConstraintDef.OnDelete fk) "CASCADE"
  || String.eqb (ConstraintDef.OnUpdate fk) "CASCADE".

Definition cascadeFinding (checkName category : string) (fk : ConstraintDef.t)
  : Finding.t :=
  let fqn := constraintFqn fk in
  Finding.mk SeverityWarning checkName category
    ("CASCADE foreign key '" ++ ConstraintDef.Name fk ++ "' on '" ++ fqn ++ "'")
    ("Foreign key '" ++ ConstraintDef.Name fk ++ "' on '" ++ fqn ++ "' references '" ++ refFqn fk ++ "' with ON DELETE " ++ ConstraintDef.OnDelete fk ++ " / ON UPDATE " ++ ConstraintDef.OnUpdate fk ++ ". CASCADE actions are executed locally on each node, meaning the cascaded changes happen independently on provider and subscriber, which can lead to conflicts in a multi-master setup.")
    fqn
    "Review CASCADE behavior. In multi-master, consider handling cascades in application logic or ensuring operations flow through a single node."
    [("constraint", AString (ConstraintDef.Name fk));
     ("references", AString (refFqn fk))].

Definition foreignKeySummary (checkName category : string) (fkCount cascadeCount : Z)
  : Finding.t :=
  Finding.mk SeverityConsider checkName category
    ("Database has " ++ FormatInt fkCount ++ " foreign key constraint(s)")
    ("Found " ++ FormatInt fkCount ++ " foreign key constraints. Ensure all referenced tables are included in the replication set, and that replication ordering will satisfy referential integrity.")
    "(database)"
    "Ensure all FK-related tables are in the same replication set."
    [("fk_count", AInt fkCount); ("cascade_count", AInt cascadeCount)].

Definition checkForeignKeys (schema : ParsedSchema) (checkName category : string)
  : list Finding.t :=
  let fkConstraints :=
    filter (fun c => String.eqb (ConstraintDef.ConstraintType c) "FOREIGN KEY")
           (Constraints schema) in
  let cascadeFKs := filter isCascade fkConstraints in
  let findings := map (cascadeFinding checkName category) cascadeFKs in
  if (0 <? List.length fkConstraints)%nat
  then findings ++
       [foreignKeySummary checkName category
          (Z.of_nat (List.length fkConstraints))
          (Z.of_nat (List.length cascadeFKs))]
  else findings.

(** *** checkExclusionConstraints identifies EXCLUDE constraints. *)

Definition exclusionFinding (checkName category : string) (con : ConstraintDef.t)
  : Finding.t :=
  let fqn := constraintFqn con in
  Finding.mk SeverityWarning checkName category
    ("Exclusion constraint '" ++ ConstraintDef.Name con ++ "' on '" ++ fqn ++ "'")
    ("Table '" ++ fqn ++ "' has exclusion constraint '" ++ ConstraintDef.Name con ++ "'. Exclusion constraints are evaluated locally on each node. In a multi-master topology, two nodes could independently accept rows that would violate the exclusion constraint if evaluated globally, leading to replication conflicts or data inconsistencies.")
    (fqn ++ "." ++ ConstraintDef.Name con)
    "Review whether this exclusion constraint can be replaced with application-level logic, or ensure that only one node writes data that could conflict under this constraint."
    [].

Definition checkExclusionConstraints (schema : ParsedSchema)
           (checkName category : string) : list Finding.t :=
  flat_map
    (fun con =>
       if negb (String.eqb (ConstraintDef.ConstraintType con) "EXCLUDE") then []
       else [exclusionFinding checkName category con])
    (Constraints schema).

(** *** checkMissingFKIndexes identifies FK columns without supporting
    indexes. *)

(** [len(cols) >= len(fkCols) && sliceEqual(cols[:len(fkCols)], fkCols)] *)
Definition coversColumns (cols fkCols : list string) : bool :=
  (List.length fkCols <=? List.length cols)%nat
  && sliceEqual (firstn (List.length fkCols) cols) fkCols.

(** the columns of the PRIMARY KEY and UNIQUE constraints of the table of
    [fk] *)
Definition pkUkCols (schema : ParsedSchema) (fk : ConstraintDef.t)
  : list (list string) :=
  map ConstraintDef.Columns
      (filter (fun c =>
                 String.eqb (ConstraintDef.TableSchema c) (ConstraintDef.TableSchema fk)
                 && String.eqb (ConstraintDef.TableName c) (ConstraintDef.TableName fk)
                 && (String.eqb (ConstraintDef.ConstraintType c) "PRIMARY KEY"
                     || String.eqb (ConstraintDef.ConstraintType c) "UNIQUE"))
              (Constraints schema)).

Definition hasIndex (schema : ParsedSchema) (fk : ConstraintDef.t) : bool :=
  let fkCols := ConstraintDef.Columns fk in
  let indexes :=
    GetIndexesForTable schema (ConstraintDef.TableSchema fk)
                       (ConstraintDef.TableName fk) in
  existsb (fun idx => coversColumns (IndexDef.Columns idx) fkCols) indexes
  || existsb (fun pkCols => coversColumns pkCols fkCols) (pkUkCols schema fk).

Definition missingIndex (checkName category : string) (fk : ConstraintDef.t)
  : Finding.t :=
  let fqn := constraintFqn fk in
  let fkCols := ConstraintDef.Columns fk in
  let colList := Join fkCols ", " in
  Finding.mk SeverityConsider checkName category
    ("No index on FK columns '" ++ fqn ++ "' (" ++ colList ++ ")")
    ("Foreign key constraint '" ++ ConstraintDef.Name fk ++ "' on '" ++ fqn ++ "' references columns (" ++ colList ++ ") that have no supporting index. Without an index, DELETE and UPDATE on the referenced (parent) table require a sequential scan of the child table while holding a lock. In multi-master replication, this causes longer lock hold times and increases the likelihood of conflicts.")
    fqn
    ("Create an index:" ++ nl ++ "  CREATE INDEX ON " ++ fqn ++ " (" ++ colList ++ ");")
    [("constraint", AString (ConstraintDef.Name fk)); ("columns", AStrings fkCols)].

Definition checkMissingFKIndexes (schema : ParsedSchema)
           (checkName category : string) : list Finding.t :=
  flat_map
    (fun fk =>
       if negb (String.eqb (ConstraintDef.ConstraintType fk) "FOREIGN KEY")
          || (List.length (ConstraintDef.Columns fk) =? 0)%nat
       then []
       else if negb (hasIndex schema fk)
            then [missingIndex checkName category fk]
            else [])
    (Constraints schema).

(** *** checkPgVersion checks the PostgreSQL version against Spock 5. *)

(* source:
      ^ ( \d+ ) *)
Definition reMajor : regex := cat [Bot; Cap 1 (plus digit)].

(** [strconv.Atoi]: the value and whether the error is non-nil.  A syntax
    error gives 0, a value outside [int] gives the nearest bound. *)
Definition Atoi (s : string) : Z * bool :=
  let neg := HasPrefix s "-" in
  let body := if neg || HasPrefix s "+" then from 1 s else s in
  if String.eqb body EmptyString then (0%Z, true)
  else
    match digits_val body 0 with
    | Some v =>
      let v := if neg then (- v)%Z else v in
      if (2 ^ 63 - 1 <? v)%Z then ((2 ^ 63 - 1)%Z, true)
      else if (v <? - 2 ^ 63)%Z then ((- 2 ^ 63)%Z, true)
      else (v, false)
    | None => (0%Z, true)
    end.

Definition supportedList : list string := ["15"; "16"; "17"; "18"].

Definition versionUnknown (checkName category : string) : Finding.t :=
  Finding.mk SeverityWarning checkName category
    "PostgreSQL version could not be determined from dump header"
    "The pg_dump file does not contain a recognizable 'Dumped from database version' header comment. Cannot assess PostgreSQL version compatibility."
    "pg_version"
    "Verify the PostgreSQL version manually."
    [].

Definition versionUnrecognized (checkName category versionStr : string)
  : Finding.t :=
  Finding.mk SeverityWarning checkName category
    ("Unrecognized PostgreSQL version: " ++ versionStr)
    ("Could not parse major version from '" ++ versionStr ++ "'.")
    "pg_version"
    "Verify the PostgreSQL version manually."
    [].

Definition versionUnsupported (checkName category : string) (major : Z)
           (versionStr : string) : Finding.t :=
  Finding.mk SeverityCritical checkName category
    ("PostgreSQL " ++ FormatInt major ++ " is not supported by Spock 5")
    ("Dump was taken from PostgreSQL " ++ FormatInt major ++ " (" ++ versionStr ++ "). Spock 5 supports PostgreSQL versions: " ++ Join supportedList ", " ++ ". A PostgreSQL upgrade is required before Spock can be installed.")
    "pg_version"
    ("Upgrade PostgreSQL to version 18 (recommended) or any of: " ++ Join supportedList ", " ++ ".")
    [("major", AInt major); ("version", AString versionStr)].

Definition versionSupported (checkName category : string) (major : Z)
           (versionStr : string) : Finding.t :=
  Finding.mk SeverityInfo checkName category
    ("PostgreSQL " ++ FormatInt major ++ " is supported by Spock 5")
    ("Dump was taken from PostgreSQL " ++ versionStr ++ ", which is compatible with Spock 5.")
    "pg_version"
    EmptyString
    [("major", AInt major); ("version", AString versionStr)].

Definition checkPgVersion (schema : ParsedSchema) (checkName category : string)
  : list Finding.t :=
  let versionStr := PgVersion schema in
  if String.eqb versionStr EmptyString then [versionUnknown checkName category]
  else
    match FindStringSubmatch reMajor versionStr with
    | None => [versionUnrecognized checkName category versionStr]
    | Some m =>
      let major := fst (Atoi (sub m 1)) in
      if negb (supportedPgMajors major)
      then [versionUnsupported checkName category major versionStr]
      else [versionSupported checkName category major versionStr]
    end.

End Analyzer.

(** ** Package path/filepath, on a system whose separator is the slash *)
Module Filepath.

Import Strings.

Definition IsPathSeparator (c : ascii) : bool := Ascii.eqb c "/".

(** [for len(path) > 0 && IsPathSeparator(path[len(path)-1]) { path =
    path[0 : len(path)-1] }], with [n] the length of [path] *)
Fixpoint stripTrailing (path : string) (n : nat) : string :=
  match n with
  | O => path
  | S k =>
    match String.get k path with
    | Some c => if IsPathSeparator c then stripTrailing (slice 0 k path) k
                else path
    | None => path
    end
  end.

(** [i := n - 1; for i >= 0 && !IsPathSeparator(path[i]) { i-- }]: [None]
    is the index -1 *)
Fixpoint lastSeparator (path : string) (n : nat) : option nat :=
  match n with
  | O => None
  | S i =>
    match String.get i path with
    | Some c => if IsPathSeparator c then Some i else lastSeparator path i
    | None => None
    end
  end.

(** [filepath.Base]: the last element of the path *)
Definition Base (path : string) : string :=
  if String.eqb path EmptyString then "."
  else
    let path := stripTrailing path (len path) in
    let path := match lastSeparator path (len path) with
                | Some i => from (i + 1) path
                | None => path
                end in
    if String.eqb path EmptyString then "/" else path.

(** [for i := n - 1; i >= 0 && !IsPathSeparator(path[i]); i-- { if path[i]
    == '.' { return path[i:] } }] *)
Fixpoint Ext_loop (path : string) (n : nat) : string :=
  match n with
  | O => EmptyString
  | S i =>
    match String.get i path with
    | Some c => if IsPathSeparator c then EmptyString
                else if Ascii.eqb c "." then from i path
                else Ext_loop path i
    | None => EmptyString
    end
  end.

(** [filepath.Ext]: the suffix of the last element from its last dot on *)
Definition Ext (path : string) : string := Ext_loop path (len path).

End Filepath.

(** ** Package analyzer: analyzer.go *)
Module Run.

Import Utf8 Strings Regexp Parser Models Analyzer.

(** What a call of a check function comes to: the findings it returns, or
    the value it panics with, as the verb [%v] writes it. *)
Inductive outcome : Type :=
| Returned (findings : list Finding.t)
| Panicked (value : string).

(** [CheckFunc] is the signature for a static analysis check function. *)
Definition CheckFunc : Type := ParsedSchema -> string -> string -> outcome.

(** a check function that returns on every schema *)
Definition total (f : ParsedSchema -> string -> string -> list Finding.t)
  : CheckFunc :=
  fun schema checkName category => Returned (f schema checkName category).

(** [CheckDef] defines a static analysis check. *)
Record CheckDef : Type := mkCheckDef {
  Name : string;
  Category : string;
  Description : string;
  Fn : CheckFunc }.

(** [SkippedCheckDef] defines a check that requires a live database
    connection. *)
Record SkippedCheckDef : Type := mkSkippedCheckDef {
  SkippedName : string;
  SkippedCategory : string;
  SkippedDescription : string }.

Section WithTheOtherChecks.

(** the check functions that are not embedded here, by the name of the Go
    function *)
Variable given : string -> CheckFunc.

(** [time.Time] and the value of [time.Now().UTC()] at the call *)
Variable Time : Type.
Variable now : Time.

Definition StaticChecks : list CheckDef :=
  [mkCheckDef "primary_keys" "schema" "Tables without primary keys" (total checkPrimaryKeys);
   mkCheckDef "sequence_pks" "schema" "Primary keys using standard sequences" (given "checkSequencePKs");
   mkCheckDef "foreign_keys" "schema" "Foreign key relationships" (total checkForeignKeys);
   mkCheckDef "deferrable_constraints" "schema" "Deferrable unique/PK constraints" (given "checkDeferrableConstraints");
   mkCheckDef "exclusion_constraints" "schema" "Exclusion constraints" (total checkExclusionConstraints);
   mkCheckDef "missing_fk_indexes" "schema" "Foreign key columns without indexes" (total checkMissingFKIndexes);
   mkCheckDef "unlogged_tables" "schema" "UNLOGGED tables" (given "checkUnloggedTables");
   mkCheckDef "large_objects" "schema" "Large object (OID column) usage" (given "checkLargeObjects");
   mkCheckDef "column_defaults" "schema" "Volatile column defaults" (given "checkColumnDefaults");
   mkCheckDef "numeric_columns" "schema" "Numeric columns (Delta-Apply candidates)" (given "checkNumericColumns");
   mkCheckDef "multiple_unique_indexes" "schema" "Tables with multiple unique indexes" (given "checkMultipleUniqueIndexes");
   mkCheckDef "enum_types" "schema" "ENUM types" (given "checkEnumTypes");
   mkCheckDef "generated_columns" "schema" "Generated/stored columns" (given "checkGeneratedColumns");
   mkCheckDef "rules" "schema" "Rules on tables" (given "checkRules");
   mkCheckDef "inheritance" "schema" "Table inheritance (non-partition)" (given "checkInheritance");
   mkCheckDef "installed_extensions" "extensions" "Installed extensions audit" (given "checkInstalledExtensions");
   mkCheckDef "sequence_audit" "sequences" "Sequence inventory and ownership" (given "checkSequenceAudit");
   mkCheckDef "sequence_data_types" "sequences" "Sequence data types" (given "checkSequenceDataTypes");
   mkCheckDef "pg_version" "config" "PostgreSQL version compatibility with Spock 5" (total checkPgVersion)].

Definition SkippedChecks : list SkippedCheckDef :=
  [mkSkippedCheckDef "wal_level" "replication" "WAL level check (wal_level = logical)";
   mkSkippedCheckDef "max_replication_slots" "replication" "Sufficient replication slots for Spock nodes";
   mkSkippedCheckDef "max_worker_processes" "replication" "Sufficient worker processes for Spock apply workers";
   mkSkippedCheckDef "max_wal_senders" "replication" "Sufficient WAL senders for replication connections";
   mkSkippedCheckDef "database_encoding" "replication" "Database encoding consistency across nodes";
   mkSkippedCheckDef "hba_config" "replication" "pg_hba.conf allows replication connections";
   mkSkippedCheckDef "stale_replication_slots" "replication" "Check for stale replication slots";
   mkSkippedCheckDef "multiple_databases" "replication" "Multiple databases in the cluster";
   mkSkippedCheckDef "repset_membership" "replication" "Spock replication set membership audit";
   mkSkippedCheckDef "subscription_health" "replication" "Spock subscription health check";
   mkSkippedCheckDef "conflict_log" "replication" "Spock conflict log review";
   mkSkippedCheckDef "exception_log" "replication" "Spock exception log review";
   mkSkippedCheckDef "track_commit_timestamp" "config" "track_commit_timestamp GUC enabled";
   mkSkippedCheckDef "shared_preload_libraries" "config" "shared_preload_libraries includes spock";
   mkSkippedCheckDef "spock_gucs" "config" "Spock-specific GUC settings";
   mkSkippedCheckDef "idle_transaction_timeout" "config" "Idle transaction timeout settings";
   mkSkippedCheckDef "pg_minor_version" "config" "PostgreSQL minor version patch level";
   mkSkippedCheckDef "parallel_apply" "config" "Parallel apply worker settings";
   mkSkippedCheckDef "timezone_config" "config" "Timezone configuration consistency";
   mkSkippedCheckDef "snowflake_check" "extensions" "pgEdge snowflake extension installation";
   mkSkippedCheckDef "pg_stat_statements_check" "extensions" "pg_stat_statements availability";
   mkSkippedCheckDef "lolor_check" "extensions" "LOLOR extension for large object replication";
   mkSkippedCheckDef "advisory_locks" "sql_patterns" "Advisory lock usage in queries";
   mkSkippedCheckDef "ddl_statements" "sql_patterns" "DDL statements in pg_stat_statements";
   mkSkippedCheckDef "truncate_cascade" "sql_patterns" "TRUNCATE CASCADE usage";
   mkSkippedCheckDef "concurrent_indexes" "sql_patterns" "Concurrent index operations";
   mkSkippedCheckDef "temp_table_queries" "sql_patterns" "Temporary table usage in queries";
   mkSkippedCheckDef "stored_procedures" "functions" "Stored procedures and functions audit";
   mkSkippedCheckDef "trigger_functions" "functions" "Trigger functions audit";
   mkSkippedCheckDef "views_audit" "functions" "Views audit";
   mkSkippedCheckDef "tables_update_delete_no_pk" "schema" "UPDATE/DELETE on tables without PKs (requires pg_stat)";
   mkSkippedCheckDef "row_level_security" "schema" "Row-level security policies";
   mkSkippedCheckDef "partitioned_tables" "schema" "Partitioned table hierarchy";
   mkSkippedCheckDef "tablespace_usage" "schema" "Non-default tablespace usage";
   mkSkippedCheckDef "temp_tables" "schema" "Temporary table existence";
   mkSkippedCheckDef "event_triggers" "schema" "Event triggers";
   mkSkippedCheckDef "notify_listen" "schema" "NOTIFY/LISTEN channel usage"].

(** [catFilter]: [None] is the nil map *)
Definition catFilter (categories : list string) : option (list string) :=
  if (0 <? List.length categories)%nat then Some categories else None.

(** [catFilter == nil || catFilter[category]] *)
Definition selected (filter : option (list string)) (category : string) : bool :=
  match filter with
  | None => true
  | Some set => member set category
  end.

(** the database name: the base of the file path without its extension *)
Definition databaseName (filePath : string) : string :=
  let dbName := Filepath.Base filePath in
  let ext := Filepath.Ext dbName in
  if negb (String.eqb ext EmptyString)
  then slice 0 (len dbName - len ext) dbName
  else dbName.

(** One turn of the loop over the checks to run: what is written to the
    standard error and the result of the check.  [i] is the index of the
    check among the [n] checks to run. *)
Definition runCheck (schema : ParsedSchema) (verbose : bool) (n i : nat)
           (check : CheckDef) : list string * CheckResult.t :=
  let progress :=
    if verbose
    then [("  [" ++ FormatInt (Z.of_nat i + 1) ++ "/" ++ FormatInt (Z.of_nat n)
           ++ "] " ++ Category check ++ "/" ++ Name check ++ ": "
           ++ Description check ++ nl)%string]
    else [] in
  match Fn check schema (Name check) (Category check) with
  | Returned findings =>
    (progress,
     CheckResult.mk (Name check) (Category check) (Description check)
                    findings EmptyString false EmptyString)
  | Panicked r =>
    let error := ("panic: " ++ r)%string in
    (progress ++ (if verbose then [("    ERROR: " ++ error ++ nl)%string] else []),
     CheckResult.mk (Name check) (Category check) (Description check)
                    [] error false EmptyString)
  end.

Fixpoint runChecks (schema : ParsedSchema) (verbose : bool) (n i : nat)
         (checks : list CheckDef) : list string * list CheckResult.t :=
  match checks with
  | [] => ([], [])
  | check :: more =>
    let one := runCheck schema verbose n i check in
    let others := runChecks schema verbose n (S i) more in
    (fst one ++ fst others, snd one :: snd others)
  end.

Definition skippedResult (skip : SkippedCheckDef) : CheckResult.t :=
  CheckResult.mk (SkippedName skip) (SkippedCategory skip)
                 (SkippedDescription skip) [] EmptyString true
                 "Requires live database connection".

(** [RunAnalyze] runs all static checks against a parsed schema dump: what
    it writes to the standard error, the report and the error, which is
    always nil. *)
Definition RunAnalyze (schema : ParsedSchema) (filePath : string)
           (categories : list string) (verbose : bool)
  : list string * ScanReport.t Time * option string :=
  let filter := catFilter categories in
  let dbName := databaseName filePath in
  let pgVersion :=
    if String.eqb (PgVersion schema) EmptyString then "unknown"
    else PgVersion schema in
  let checksToRun :=
    List.filter (fun check => selected filter (Category check)) StaticChecks in
  let n := List.length checksToRun in
  let start :=
    if verbose
    then [("Analyze: running " ++ FormatInt (Z.of_nat n)
           ++ " static checks against " ++ filePath ++ "..." ++ nl)%string]
    else [] in
  let ran := runChecks schema verbose n 0 checksToRun in
  let skipped :=
    map skippedResult
        (List.filter (fun skip => selected filter (SkippedCategory skip))
                     SkippedChecks) in
  let report :=
    ScanReport.mk Time dbName filePath 0%Z now (snd ran ++ skipped)
                  pgVersion "5.0" "analyze" in
  let done :=
    if verbose
    then [("Done. " ++ FormatInt (ScanReport.CriticalCount report)
           ++ " critical, " ++ FormatInt (ScanReport.WarningCount report)
           ++ " warnings, " ++ FormatInt (ScanReport.ConsiderCount report)
           ++ " consider, " ++ FormatInt (ScanReport.InfoCount report)
           ++ " info." ++ nl)%string]
    else [] in
  (start ++ fst ran ++ done, report, None).

End WithTheOtherChecks.

End Run.

Import Utf8 Strings Regexp Parser.

(** Part II: the notions and the inputs of the properties *)

(** ** The matching relation of a pattern *)

(** [steps re cur c cur' c']: the pattern [re] can take the matcher from
    cursor [cur] with registers [c] to cursor [cur'] with registers [c']. *)
Inductive steps : regex -> cursor -> caps -> cursor -> caps -> Prop :=
| st_eps cur c : steps Eps cur c cur c
| st_rn p at_ before r w t c :
    p r = true ->
    steps (Rn p) (Cursor at_ before ((r, w) :: t)) c (Cursor (at_ + w) r t) c
| st_cat a b cur c cur1 c1 cur2 c2 :
    steps a cur c cur1 c1 -> steps b cur1 c1 cur2 c2 ->
    steps (Cat a b) cur c cur2 c2
| st_or_left a b cur c cur' c' :
    steps a cur c cur' c' -> steps (Or a b) cur c cur' c'
| st_or_right a b cur c cur' c' :
    steps b cur c cur' c' -> steps (Or a b) cur c cur' c'
| st_star_stop g p cur c : steps (Star g p) cur c cur c
| st_star_more g p at_ before r w t c cur' c' :
    p r = true ->
    steps (Star g p) (Cursor (at_ + w) r t) c cur' c' ->
    steps (Star g p) (Cursor at_ before ((r, w) :: t)) c cur' c'
| st_opt_some a cur c cur' c' :
    steps a cur c cur' c' -> steps (Opt a) cur c cur' c'
| st_opt_none a cur c : steps (Opt a) cur c cur c
| st_cap i a cur c cur' c' :
    steps a cur c cur' c' ->
    steps (Cap i a) cur c cur' ((i, (pos cur, pos cur')) :: c')
| st_bot cur c : pos cur = 0 -> steps Bot cur c cur c
| st_eot cur c : rest cur = [] -> steps Eot cur c cur c
| st_wb cur c :
    xorb (IsWordChar (prev cur)) (IsWordChar (next_rune (rest cur))) = true ->
    steps Wb cur c cur c.

(** the cursors an unanchored search starts from *)
Inductive reachable : cursor -> cursor -> Prop :=
| reach_here cur : reachable cur cur
| reach_next at_ before r w t cur' :
    reachable (Cursor (at_ + w) r t) cur' ->
    reachable (Cursor at_ before ((r, w) :: t)) cur'.

Fixpoint total (rs : list (Z * nat)) : nat :=
  match rs with
  | [] => 0
  | (_, w) :: t => w + total t
  end.

(** a cursor over a text of [n] bytes: the runes ahead fill the text from
    the offset on, and every rune has at least one byte *)
Definition inside (n : nat) (cur : cursor) : Prop :=
  pos cur + total (rest cur) = n
  /\ Forall (fun rw : Z * nat => 1 <= snd rw) (rest cur).

(** patterns without capture groups leave the registers alone *)
Fixpoint capfree (re : regex) : bool :=
  match re with
  | Cat a b | Or a b => capfree a && capfree b
  | Opt a => capfree a
  | Cap _ _ => false
  | _ => true
  end.

(** ** What a statement does to the model *)

Section Effects.

Variable schema : ParsedSchema.

(** Every statement either leaves the model alone, appends one entity (a
    table together with its inline constraints), or back-fills one. *)
Inductive change : ParsedSchema -> Prop :=
| ch_none : change schema
| ch_extension e :
    excludedSchemas (ToLower (ExtensionDef.Name e)) = false ->
    change (with_Extensions (Extensions schema ++ [e]) schema)
| ch_enum e :
    excludedSchemas (EnumTypeDef.SchemaName e) = false ->
    change (with_EnumTypes (EnumTypes schema ++ [e]) schema)
| ch_sequence q :
    excludedSchemas (SequenceDef.SchemaName q) = false ->
    change (with_Sequences (Sequences schema ++ [q]) schema)
| ch_table tbl cs :
    excludedSchemas (TableDef.SchemaName tbl) = false ->
    Forall (fun c => ConstraintDef.TableSchema c = TableDef.SchemaName tbl
                     /\ ConstraintDef.TableName c = TableDef.TableName tbl) cs ->
    change (with_Tables (Tables schema ++ [tbl])
              (with_Constraints (Constraints schema ++ cs) schema))
| ch_constraint c :
    excludedSchemas (ConstraintDef.TableSchema c) = false ->
    change (with_Constraints (Constraints schema ++ [c]) schema)
| ch_index x :
    excludedSchemas (IndexDef.TableSchema x) = false ->
    change (with_Indexes (Indexes schema ++ [x]) schema)
| ch_rule r :
    excludedSchemas (RuleDef.SchemaName r) = false ->
    change (with_Rules (Rules schema ++ [r]) schema)
| ch_default s n col v :
    change (backfillColumn (ColumnDef.with_DefaultExpr v) s n col schema)
| ch_identity s n col v :
    change (backfillColumn (ColumnDef.with_Identity v) s n col schema)
| ch_owned seqS seqN owner col :
    change (with_Sequences
              (updateFirstSequence seqS seqN owner col (Sequences schema))
              schema).

End Effects.

Definition tableKey (t : TableDef.t) : string * string :=
  (TableDef.SchemaName t, TableDef.TableName t).

(** The table a statement declares: the schema and name the CREATE TABLE
    extractor resolves, unless the schema is an excluded one. *)
Definition declaredTable_of (loc : caps) (stmt sp : string)
  : list (string * string) :=
  if MatchString reCreateLead stmt then
    match splitQualified (sub (submatches reCreateTable stmt loc) 2) sp with
    | Some sn => if excludedSchemas (fst sn) then [] else [sn]
    | None => []
    end
  else [].

Definition declaredTable (stmt sp : string) : list (string * string) :=
  match recognise stmt with
  | CreateTable loc => declaredTable_of loc stmt sp
  | _ => []
  end.

Definition declaredTables (statements : list statementInfo)
  : list (string * string) :=
  flat_map (fun si => declaredTable (stmt si) (searchPath si)) statements.

(** No table, constraint, index, sequence, enum type or rule of the model
    sits in an excluded schema. *)
Definition clean (schema : ParsedSchema) : Prop :=
  Forall (fun t => excludedSchemas (TableDef.SchemaName t) = false) (Tables schema)
  /\ Forall (fun c => excludedSchemas (ConstraintDef.TableSchema c) = false)
            (Constraints schema)
  /\ Forall (fun x => excludedSchemas (IndexDef.TableSchema x) = false)
            (Indexes schema)
  /\ Forall (fun q => excludedSchemas (SequenceDef.SchemaName q) = false)
            (Sequences schema)
  /\ Forall (fun e => excludedSchemas (EnumTypeDef.SchemaName e) = false)
            (EnumTypes schema)
  /\ Forall (fun r => excludedSchemas (RuleDef.SchemaName r) = false)
            (Rules schema).

(** ... and no extension has an excluded name. *)
Definition filtered (schema : ParsedSchema) : Prop :=
  clean schema
  /\ Forall (fun e => excludedSchemas (ToLower (ExtensionDef.Name e)) = false)
            (Extensions schema).

(** The target is unknown: the schema is excluded, no table has the schema
    and name, or the table found has no column of the name. *)
Definition unknownColumn (s n col : string) (schema : ParsedSchema) : Prop :=
  excludedSchemas s = true
  \/ GetTable schema s n = None
  \/ exists i t, GetTable schema s n = Some i
                 /\ nth_error (Tables schema) i = Some t
                 /\ forall c, In c (TableDef.Columns t) -> ColumnDef.Name c <> col.

(** ** The lines of the segmenter *)

(** a comment line or a blank line: it belongs to no statement *)
Definition skipped (line : string) : bool :=
  HasPrefix (TrimSpace line) "--" || String.eqb (TrimSpace line) EmptyString.

(** the version a line carries: the group of [rePgVersion] on a comment line *)
Definition versionOf (line : string) : option string :=
  if HasPrefix (TrimSpace line) "--"
  then option_map (fun m => sub m 1)
                  (FindStringSubmatch rePgVersion (TrimSpace line))
  else None.

(** the line opens a dollar-quoted region with [tag]: the first dollar token
    of the line is [tag] and [tag] does not come again later on the line *)
Definition opensRegion (line tag : string) : Prop :=
  skipped line = false
  /\ option_map (fun m => sub m 1)
                (FindStringSubmatch reDollarQuote (TrimSpace line)) = Some tag
  /\ Contains (restAfter (TrimSpace line) tag) tag = false.

(** the lines of a region that reach the buffer *)
Definition kept (lines : list string) : list string :=
  filter (fun l => negb (skipped l)) lines.

(** ** The parts of a table body *)

(** the bytes written when every rune of the list is written back *)
Definition written (rs : list (Z * nat)) : string :=
  String.concat EmptyString (map (fun rw => EncodeRune (fst rw)) rs).

(** the last rune of [rs] is a comma at parenthesis depth zero, [depth]
    being the depth at the start of [rs] *)
Fixpoint endsWithTopComma (rs : list (Z * nat)) (depth : Z) : bool :=
  match rs with
  | [] => false
  | (ch, _) :: t =>
    if (ch =? 0x28)%Z then endsWithTopComma t (depth + 1)
    else if (ch =? 0x29)%Z then endsWithTopComma t (depth - 1)
    else if ((ch =? 0x2C) && (depth =? 0))%Z then
      match t with
      | [] => true
      | _ => endsWithTopComma t depth
      end
    else endsWithTopComma t depth
  end.

(** every part followed by a comma *)
Fixpoint commaTerminated (parts : list string) : string :=
  match parts with
  | [] => EmptyString
  | p :: rest => p ++ "," ++ commaTerminated rest
  end.

(** The name [parseColumn] reads from a line, when it reads a column at
    all: the line, without blanks around it and without a trailing comma, is
    neither empty nor a comment, does not start with a constraint keyword,
    and is a run of word characters and double quotes, white space and a
    remainder; the name is the run without its quotes and is not a
    constraint keyword. *)
Definition columnName (line : string) : option string :=
  let line := TrimSuffix (TrimSpace line) "," in
  if String.eqb line EmptyString || HasPrefix line "--" then None
  else if MatchString reTableConstraintKw line then None
  else
    match FindStringSubmatch reColumnLine line with
    | None => None
    | Some m =>
      match unquote (sub m 1) with
      | Some name => if constraintKeyword (ToUpper name) then None else Some name
      | None => None
      end
    end.

(** a part of the body that declares a column, and the name it declares *)
Definition columnPart (part : string) : option string :=
  let part := TrimSpace part in
  if String.eqb part EmptyString || MatchString reTableConstraintKw part
  then None
  else columnName part.

(** ** The inputs of the scenarios *)

Definition LF : string := String "010" EmptyString.

(** the two statements of the orders scenario, one per line *)
Definition orders_create : string :=
  "create table public.orders (id integer primary key, customer_id text references public.customers(id) on delete cascade);".
Definition orders_set_default : string :=
  "alter table only public.orders alter column id set default nextval('public.orders_id_seq'::regclass);".
Definition orders_dump : string := orders_create ++ LF ++ orders_set_default.

Definition nextval_text : string := "nextval('public.orders_id_seq'::regclass)".

Definition orders_table : TableDef.t :=
  TableDef.mk "public" "orders"
    [ColumnDef.mk "id" "integer primary key" false nextval_text
                  EmptyString EmptyString;
     ColumnDef.mk "customer_id"
                  "text references public.customers(id) on delete cascade"
                  false EmptyString EmptyString EmptyString]
    false [] EmptyString.

Definition sequence_stmt : string :=
  "create sequence s as smallint start with 5 increment by 2 maxvalue 100 cycle;".

(** an index on a column whose quoted name is a comma *)
Definition comma_index_stmt : string :=
  "CREATE INDEX i ON public.t (" ++ dquote ++ "," ++ dquote ++ ");".

(** C1 as claimed: one table with two columns, one primary-key constraint on
    id, one foreign-key constraint to public.customers(id) with ON DELETE
    CASCADE, and the default of id. *)
Definition orders_claim (model : ParsedSchema) : Prop :=
  exists tbl pk fk,
    Tables model = [tbl]
    /\ tableKey tbl = ("public", "orders")
    /\ List.length (TableDef.Columns tbl) = 2
    /\ GetConstraintsForTable model "public" "orders" "PRIMARY KEY" = [pk]
    /\ ConstraintDef.Columns pk = ["id"]
    /\ GetConstraintsForTable model "public" "orders" "FOREIGN KEY" = [fk]
    /\ ConstraintDef.RefSchema fk = "public"
    /\ ConstraintDef.RefTable fk = "customers"
    /\ ConstraintDef.RefColumns fk = ["id"]
    /\ ConstraintDef.OnDelete fk = "CASCADE"
    /\ exists c, In c (TableDef.Columns tbl)
                 /\ ColumnDef.Name c = "id"
                 /\ ColumnDef.DefaultExpr c = nextval_text.

Definition two_tables_dump : string :=
  "CREATE TABLE public.a (id integer);" ++ LF ++
  "CREATE TABLE pg_catalog.hidden (id integer);" ++ LF ++
  "CREATE TABLE shop.b (id integer, a_id integer);".

Definition plpgsql_stmt : string :=
  "CREATE EXTENSION IF NOT EXISTS plpgsql WITH SCHEMA pg_catalog;".

(** a dump with statements in excluded schemas among the others *)
Definition mixed_dump : string :=
  two_tables_dump ++ LF ++
  "CREATE SEQUENCE information_schema.s1;" ++ LF ++
  "CREATE INDEX i1 ON pg_toast.t1 (id);" ++ LF ++
  "CREATE TYPE spock.kind AS ENUM ('a');" ++ LF ++
  "ALTER TABLE ONLY pg_catalog.hidden ADD CONSTRAINT pk PRIMARY KEY (id);" ++ LF ++
  "CREATE EXTENSION spock;" ++ LF ++
  "CREATE INDEX i2 ON public.a (id);".

Definition no_cycle_stmt : string :=
  "CREATE SEQUENCE public.s2 START WITH 1 NO CYCLE;".

(** a set-default statement whose column name is a lone double quote *)
Definition quote_default_stmt : string :=
  "alter table only public.orders alter column " ++ dquote ++ " set default 0;".

(** the same lone quote in an add-identity and in an owned-by statement *)
Definition quote_identity_stmt : string :=
  "alter table public.orders alter column " ++ dquote
  ++ " add generated always as identity;".
Definition quote_owned_stmt : string :=
  "alter sequence public.s owned by public.orders." ++ dquote ++ ";".

Definition numeric_body : string :=
  "id bigint NOT NULL, amount numeric(10,2) DEFAULT 0.00, CHECK (amount > 0), note text".

(** a body in a one-byte encoding: the byte E9 of Latin-1 is no UTF-8 *)
Definition latin1_body : string :=
  "caf" ++ String (byte_of 0xE9) EmptyString ++ " text".

Definition header_dump : string :=
  "--" ++ LF ++
  "-- PostgreSQL database dump" ++ LF ++
  "-- Dumped from database version 15.4" ++ LF ++
  "-- Dumped by pg_dump version 16.1" ++ LF ++
  "-- Dumped from database version 9.9" ++ LF ++
  "SET search_path = public;".

(** the header line pg_dump writes for a packaged server *)
Definition packaged_header : string :=
  "-- Dumped from database version 14.9 (Ubuntu 14.9-0ubuntu0.22.04.1)".

(** a dump with a function whose body holds semicolons, a comment line and a
    blank line *)
Definition fn_pre : list string :=
  ["CREATE TABLE public.a (id integer);";
   "CREATE FUNCTION public.f() RETURNS void"].
Definition fn_open : string := "    LANGUAGE plpgsql AS $$".
Definition fn_comment : string := "  -- remove the old rows;".
Definition fn_body : list string :=
  ["BEGIN"; fn_comment; "  DELETE FROM public.a;"; EmptyString;
   "  PERFORM 1;"; "END;"].
Definition fn_close : string := "$$;".
Definition fn_post : list string := ["SELECT 1;"].
Definition function_dump : string :=
  Join (fn_pre ++ fn_open :: fn_body ++ fn_close :: fn_post) LF.

Definition fn_st0 : segmenter :=
  splitLines fn_pre (mkSeg [] [] false EmptyString "public" EmptyString).

(** a function whose opening line holds a closed dollar-quoted default
    before the tag that opens the body *)
Definition default_fn_dump : string :=
  "CREATE FUNCTION public.g(t text DEFAULT $d$none$d$) RETURNS text LANGUAGE sql AS $$"
  ++ LF ++ "  SELECT t;" ++ LF ++ "$$;".

Definition accounts_stmt : string :=
  "CREATE TABLE shop.accounts (" ++ LF ++
  "    id bigint NOT NULL," ++ LF ++
  "    balance numeric(12,2) DEFAULT 0.00 NOT NULL," ++ LF ++
  "    " ++ dquote ++ "Owner" ++ dquote ++ " character varying(40)" ++ LF ++
  ");".

(** a table with a column whose quoted name is a constraint keyword *)
Definition check_column_stmt : string :=
  "create table public.t (" ++ dquote ++ "check" ++ dquote
  ++ " integer, b text);".

(** ** Parentheses *)

(** no rune of the list is a parenthesis *)
Definition parenFree (rs : list (Z * nat)) : bool :=
  forallb (fun rw : Z * nat =>
             negb (fst rw =? 0x28)%Z && negb (fst rw =? 0x29)%Z) rs.

(** The depth after the runes [rs], counted from [depth], when every closing
    parenthesis of [rs] has its opening one before it in [rs]. *)
Fixpoint closes (rs : list (Z * nat)) (depth : Z) : option Z :=
  match rs with
  | [] => Some depth
  | (ch, _) :: t =>
    if (ch =? 0x28)%Z then closes t (depth + 1)
    else if (ch =? 0x29)%Z then
      if (0 <? depth)%Z then closes t (depth - 1) else None
    else closes t depth
  end.

(** the parentheses of the text are balanced *)
Definition balanced (s : string) : Prop := closes (runes s) 0 = Some 0%Z.

(** ** What a statement of each kind writes *)

Definition sequenceKey (q : SequenceDef.t) : string * string :=
  (SequenceDef.SchemaName q, SequenceDef.SequenceName q).

(** [oneChanged R l l']: [l'] is [l] itself, or [l] with one element [x]
    replaced, where it stands, by an [x'] with [R x x'] *)
Definition oneChanged {A : Type} (R : A -> A -> Prop) (l l' : list A) : Prop :=
  l' = l
  \/ exists pre x x' post,
       l = pre ++ x :: post /\ l' = pre ++ x' :: post /\ R x x'.

(** [t'] is the table [t] with one of its columns changed by [R], at most;
    its schema, name and other fields are those of [t] *)
Definition backfilled (R : ColumnDef.t -> ColumnDef.t -> Prop)
           (t t' : TableDef.t) : Prop :=
  exists cols, t' = TableDef.with_Columns cols t
               /\ oneChanged R (TableDef.Columns t) cols.

(** [schema'] is [schema] with at most one entity appended to the collection
    of the statement's kind (a table brings its inline constraints along), or
    with one field of one column of one table, or the owner of one sequence,
    back-filled. *)
Definition writes (sh : shape) (schema schema' : ParsedSchema) : Prop :=
  match sh with
  | CreateExtension _ =>
    exists es, List.length es <= 1
               /\ schema' = with_Extensions (Extensions schema ++ es) schema
  | CreateTypeEnum _ =>
    exists es, List.length es <= 1
               /\ schema' = with_EnumTypes (EnumTypes schema ++ es) schema
  | CreateSequence _ =>
    exists qs, List.length qs <= 1
               /\ schema' = with_Sequences (Sequences schema ++ qs) schema
  | CreateTable _ =>
    schema' = schema
    \/ exists tbl cs,
         schema' = with_Tables (Tables schema ++ [tbl])
                     (with_Constraints (Constraints schema ++ cs) schema)
  | AlterAddConstraint _ =>
    exists cs, List.length cs <= 1
               /\ schema' = with_Constraints (Constraints schema ++ cs) schema
  | CreateIndex _ =>
    exists xs, List.length xs <= 1
               /\ schema' = with_Indexes (Indexes schema ++ xs) schema
  | AlterSetDefault _ =>
    exists ts,
      schema' = with_Tables ts schema
      /\ oneChanged
           (backfilled (fun c c' => exists v, c' = ColumnDef.with_DefaultExpr v c))
           (Tables schema) ts
  | AlterAddIdentity _ =>
    exists ts,
      schema' = with_Tables ts schema
      /\ oneChanged
           (backfilled (fun c c' => exists v, c' = ColumnDef.with_Identity v c))
           (Tables schema) ts
  | AlterSeqOwned _ =>
    exists qs,
      schema' = with_Sequences qs schema
      /\ oneChanged
           (fun q q' => exists tbl col, q' = SequenceDef.with_OwnedBy tbl col q)
           (Sequences schema) qs
  | CreateRule _ =>
    exists rs, List.length rs <= 1
               /\ schema' = with_Rules (Rules schema ++ rs) schema
  | NoShape => schema' = schema
  end.

(** [new] is [old] with more at its end *)
Definition extends {A : Type} (old new : list A) : Prop :=
  exists more, new = old ++ more.

(** The model only grows: what is recorded stays where it is; of a table and
    of a sequence, the schema and the name stay. *)
Definition grows (old new : ParsedSchema) : Prop :=
  extends (map tableKey (Tables old)) (map tableKey (Tables new))
  /\ extends (Constraints old) (Constraints new)
  /\ extends (Indexes old) (Indexes new)
  /\ extends (map sequenceKey (Sequences old)) (map sequenceKey (Sequences new))
  /\ extends (Extensions old) (Extensions new)
  /\ extends (EnumTypes old) (EnumTypes new)
  /\ extends (Rules old) (Rules new)
  /\ PgVersion new = PgVersion old.

(** a label that is not empty and has no single quote at either end *)
Definition cleanLabel (l : string) : Prop :=
  l <> EmptyString /\ HasPrefix l "'" = false /\ HasSuffix l "'" = false.

Definition cleanEnums (schema : ParsedSchema) : Prop :=
  Forall (fun e => Forall cleanLabel (EnumTypeDef.Labels e)) (EnumTypes schema).

(** a constraint of the table [tbl] of one of the three kinds
    [parseInlineConstraint] records *)
Definition inlineOf (tbl : TableDef.t) (c : ConstraintDef.t) : Prop :=
  ConstraintDef.TableSchema c = TableDef.SchemaName tbl
  /\ ConstraintDef.TableName c = TableDef.TableName tbl
  /\ (ConstraintDef.ConstraintType c = "PRIMARY KEY"
      \/ ConstraintDef.ConstraintType c = "UNIQUE"
      \/ ConstraintDef.ConstraintType c = "FOREIGN KEY").

(** a table with a named check, a primary key and an exclusion constraint in
    its body *)
Definition checked_table_stmt : string :=
  "CREATE TABLE public.t (id bigint, amount numeric(10,2), CONSTRAINT pos CHECK (amount > 0), PRIMARY KEY (id), EXCLUDE USING gist (id WITH =));".

Definition mood_dump : string :=
  "CREATE TYPE public.mood AS ENUM ('sad', '', 'ok', 'happy');" ++ LF ++
  "CREATE INDEX i2 ON public.a (id);".

Definition index_stmt : string := "CREATE INDEX i2 ON public.a (id);".

(** ** The statements of the segmenter *)

(** the lines of a statement *)
Definition linesOf (si : statementInfo) : list string :=
  Split (stmt si) "010".

(** the lines the segmenter holds: those of the statements it has emitted
    and those in its buffer *)
Definition held (st : segmenter) : list string :=
  flat_map linesOf (results st) ++ buf st.

(** a text without a line feed *)
Definition oneLine (l : string) : Prop := Split l "010" = [l].

(** a search path the segmenter may hand out when it starts from [sp] *)
Definition pathFrom (sp p : string) : Prop :=
  p = sp \/ (p <> EmptyString /\ p <> "pg_catalog").

(** ** The notions of the checks *)

(** [cols] starts with the columns [fkCols] *)
Definition covers (cols fkCols : list string) : Prop :=
  exists rest, cols = fkCols ++ rest.

(** An index of the table of [fk], or a PRIMARY KEY or UNIQUE constraint of
    it, starts with the columns of [fk]. *)
Definition supported (schema : ParsedSchema) (fk : ConstraintDef.t) : Prop :=
  (exists idx,
      In idx (GetIndexesForTable schema (ConstraintDef.TableSchema fk)
                                 (ConstraintDef.TableName fk))
      /\ covers (IndexDef.Columns idx) (ConstraintDef.Columns fk))
  \/ (exists c,
         In c (GetConstraintsForTable schema (ConstraintDef.TableSchema fk)
                                      (ConstraintDef.TableName fk) EmptyString)
         /\ (ConstraintDef.ConstraintType c = "PRIMARY KEY"
             \/ ConstraintDef.ConstraintType c = "UNIQUE")
         /\ covers (ConstraintDef.Columns c) (ConstraintDef.Columns fk)).

(** the lookup of the primary-key constraints of a table finds none *)
Definition lacksPrimaryKey (schema : ParsedSchema) (tbl : TableDef.t) : bool :=
  match GetConstraintsForTable schema (TableDef.SchemaName tbl)
                               (TableDef.TableName tbl) "PRIMARY KEY" with
  | [] => true
  | _ => false
  end.

(** the FOREIGN KEY constraints of the model *)
Definition foreignKeysOf (schema : ParsedSchema) : list ConstraintDef.t :=
  filter (fun c => String.eqb (ConstraintDef.ConstraintType c) "FOREIGN KEY")
         (Constraints schema).

(** [picked P l l']: [l'] holds the elements of [l] that satisfy [P], each as
    often as in [l] and in the order of [l] *)
Inductive picked {A : Type} (P : A -> Prop) : list A -> list A -> Prop :=
| picked_nil : picked P [] []
| picked_take x l l' : P x -> picked P l l' -> picked P (x :: l) (x :: l')
| picked_skip x l l' : ~ P x -> picked P l l' -> picked P (x :: l) l'.

(** a foreign key with a CASCADE action *)
Definition cascading (fk : ConstraintDef.t) : Prop :=
  ConstraintDef.OnDelete fk = "CASCADE" \/ ConstraintDef.OnUpdate fk = "CASCADE".

(** no schema name of a table or of a constraint holds a dot *)
Definition plainSchemas (schema : ParsedSchema) : Prop :=
  Forall (fun t => Contains (TableDef.SchemaName t) "." = false) (Tables schema)
  /\ Forall (fun c => Contains (ConstraintDef.TableSchema c) "." = false)
            (Constraints schema).

(** a severity of the four the package declares *)
Definition declaredSeverity (s : Models.Severity) : Prop := (0 <= s <= 3)%Z.

(** ** The inputs of the checks *)

Definition orders_fk : ConstraintDef.t :=
  ConstraintDef.mk "orders_customer_fk" "FOREIGN KEY" "public" "orders"
    ["customer_id"] "public" "customers" ["id"] "CASCADE" EmptyString false false.

Definition shop_model : ParsedSchema :=
  mkSchema
    [TableDef.mk "public" "orders" [] false [] EmptyString;
     TableDef.mk "public" "customers" [] false [] EmptyString;
     TableDef.mk "public" "events" [] false [] "RANGE (at)"]
    [orders_fk;
     ConstraintDef.mk "customers_pkey" "PRIMARY KEY" "public" "customers"
       ["id"] EmptyString EmptyString [] EmptyString EmptyString false false]
    [IndexDef.mk "orders_customer_idx" "public" "orders" ["customer_id"; "at"]
                 false "btree"]
    [] [] [] [] "16.2".

Definition shop_report : ScanReport.t unit :=
  ScanReport.mk unit "shop" "shop.sql" 0%Z tt
    [CheckResult.mk "primary_keys" "schema" "Tables without primary keys"
       (Analyzer.checkPrimaryKeys shop_model "primary_keys" "schema")
       EmptyString false EmptyString;
     CheckResult.mk "foreign_keys" "schema" "Foreign key relationships"
       (Analyzer.checkForeignKeys shop_model "foreign_keys" "schema")
       EmptyString false EmptyString;
     CheckResult.mk "missing_fk_indexes" "schema" "Foreign key columns without indexes"
       (Analyzer.checkMissingFKIndexes shop_model "missing_fk_indexes" "schema")
       EmptyString false EmptyString;
     CheckResult.mk "wal_level" "replication" "WAL level check (wal_level = logical)"
       [] EmptyString true "Requires live database connection"]
    "16.2" "5.0" "analyze".

(** ** Plain names *)

Fixpoint allBytes (f : ascii -> bool) (s : string) : bool :=
  match s with
  | EmptyString => true
  | String c t => f c && allBytes f t
  end.

(** a byte of an unquoted identifier: an ASCII letter, a digit or an
    underscore *)
Definition nameByte (c : ascii) : bool := IsWordChar (byte_val c).

(** a name that is not empty and made of such bytes *)
Definition plainName (s : string) : Prop :=
  s <> EmptyString /\ allBytes nameByte s = true.

(** no rune of the list is [ch] *)
Definition lacks (ch : Z) (rs : list (Z * nat)) : bool :=
  forallb (fun rw : Z * nat => negb (fst rw =? ch)%Z) rs.

(** the last byte of a text *)
Fixpoint lastByte (s : string) : option ascii :=
  match s with
  | EmptyString => None
  | String c EmptyString => Some c
  | String _ t => lastByte t
  end.

(** the pieces between the commas of [Join names ", "] *)
Definition padded (names : list string) : list string :=
  match names with
  | [] => []
  | n :: rest => n :: map (fun m => String " " m) rest
  end.

(** ** The results of a run *)

(** [r] is the result of running [check] on [schema]: the findings the
    function returns, or no finding and the panic as the error *)
Definition resultOf (schema : ParsedSchema) (check : Run.CheckDef)
           (r : CheckResult.t) : Prop :=
  CheckResult.CheckName r = Run.Name check
  /\ CheckResult.Category r = Run.Category check
  /\ CheckResult.Description r = Run.Description check
  /\ CheckResult.Skipped r = false
  /\ match Run.Fn check schema (Run.Name check) (Run.Category check) with
     | Run.Returned findings =>
       CheckResult.Findings r = findings /\ CheckResult.Error r = EmptyString
     | Run.Panicked value =>
       CheckResult.Findings r = []
       /\ CheckResult.Error r = ("panic: " ++ value)%string
     end.

(** [r] stands for the check [skip], which was not run *)
Definition skippedOf (skip : Run.SkippedCheckDef) (r : CheckResult.t) : Prop :=
  CheckResult.CheckName r = Run.SkippedName skip
  /\ CheckResult.Category r = Run.SkippedCategory skip
  /\ CheckResult.Skipped r = true
  /\ CheckResult.Findings r = []
  /\ CheckResult.Error r = EmptyString.

(** the category passes the filter of the categories asked for: every
    category when none is asked for *)
Definition wanted (categories : list string) (category : string) : Prop :=
  categories = [] \/ In category categories.

(** ** Texts without a double quote *)

Definition notQuote (c : ascii) : bool := negb (Ascii.eqb c dquote_char).

(** no byte of the text is a double quote *)
Definition noQuote (s : string) : Prop := allBytes notQuote s = true.

(** a constraint of one of the three kinds recorded from the body of a
    table *)
Definition inlineKind (c : ConstraintDef.t) : Prop :=
  ConstraintDef.ConstraintType c = "PRIMARY KEY"
  \/ ConstraintDef.ConstraintType c = "UNIQUE"
  \/ ConstraintDef.ConstraintType c = "FOREIGN KEY".

(** the statement is an ALTER TABLE ... ADD CONSTRAINT *)
Definition addsConstraint (si : statementInfo) : bool :=
  match recognise (stmt si) with
  | AlterAddConstraint _ => true
  | _ => false
  end.

(** a schema file that declares its constraints inside the tables *)
Definition rooms_dump : string :=
  "CREATE TABLE public.rooms (id integer, during tsrange, PRIMARY KEY (id), EXCLUDE USING gist (during WITH &&));"
  ++ LF ++ "CREATE INDEX rooms_idx ON public.rooms (id);".

(** ** Comment lines and the model *)

(** the variables of the segmenter apart from the version *)
Definition progress (st : segmenter)
  : list statementInfo * list string * bool * string * string :=
  (results st, buf st, inDollarQuote st, dollarTag st, curSearchPath st).

(** a statement whose last line ends with a semicolon, blanks apart *)
Definition terminated (si : statementInfo) : Prop :=
  exists ls l, linesOf si = ls ++ [l] /\ HasSuffix (TrimSpace l) ";" = true.

(** two dumps with the same statements and different comments *)
Definition bare_dump : string :=
  "CREATE TABLE t (" ++ LF ++ "  id integer" ++ LF ++ ");" ++ LF.

Definition commented_dump : string :=
  "-- Dumped from database version 16.2" ++ LF ++ LF
  ++ "CREATE TABLE t (" ++ LF ++ "  -- the key" ++ LF
  ++ "  id integer" ++ LF ++ ");" ++ LF.

(** Part III: properties *)

(** ** C9: [unquote] on a lone double quote *)

(** C9.  [unquote] is not total: on the one-character string made of a single
    double quote both the prefix and the suffix test hold and the slice
    [name[1:0]] panics.  The column-list parser reaches it on a quoted
    comma, and with it an index statement brings the whole of [ParseDump]
    down. *)
Theorem unquote_lone_quote_panics :
  unquote dquote = None
  /\ parseColumnList (dquote ++ "," ++ dquote) = None
  /\ ParseDump comma_index_stmt = None.
Proof. repeat split; vm_compute; reflexivity. Qed.

(** [unquote] panics on the lone double quote and on nothing else. *)
Lemma unquote_panics_iff (name : string) :
  unquote name = None <-> name = dquote.
Proof.
  split; [ | intros ->; reflexivity ].
  unfold unquote, go_slice, HasSuffix, len.
  destruct name as [|c [|d t]].
  - discriminate.
  - change (HasPrefix (String c EmptyString) dquote)
      with (Ascii.eqb dquote_char c && true).
    destruct (Ascii.eqb_spec dquote_char c) as [<- | N];
      [ reflexivity | discriminate ].
  - destruct (_ && _); [ | discriminate ].
    replace ((0 <=? 1)%Z
             && (1 <=? Z.of_nat (String.length (String c (String d t))) - 1)%Z
             && (Z.of_nat (String.length (String c (String d t))) - 1
                 <=? Z.of_nat (String.length (String c (String d t))))%Z)
      with true; [ discriminate | ].
    symmetry. rewrite !andb_true_iff, !Z.leb_le. simpl String.length. lia.
Qed.

(** ** C1: the orders scenario *)

(** C1, as the code has it.  The two statements yield exactly one table,
    public.orders, with exactly two columns and no constraint at all: the
    column-level PRIMARY KEY and REFERENCES clauses stay inside the data-type
    text of their columns.  After the second statement the default
    expression of column id is the nextval text. *)
Theorem orders_scenario :
  ParseDump orders_dump
  = Some (mkSchema [orders_table] [] [] [] [] [] [] EmptyString).
Proof. vm_compute. reflexivity. Qed.

(** C1 as claimed fails: the model of the two statements has no constraint
    for public.orders, neither a primary key nor a foreign key. *)
Lemma orders_claim_fails :
  ~ exists model, ParseDump orders_dump = Some model /\ orders_claim model.
Proof.
  intros (model & H & tbl & pk & fk & _ & _ & _ & PK & _).
  vm_compute in H. injection H as <-. discriminate PK.
Qed.

(** ** What one statement does to the model *)

(** case analysis on a computation that may panic *)
Ltac panic_cases H :=
  repeat match type of H with
         | match ?e with Some _ => _ | None => None end = Some _ =>
           let E := fresh "E" in destruct e eqn:E; [ | discriminate H ]
         | (if ?b then _ else _) = Some _ =>
           let E := fresh "E" in destruct b eqn:E
         | Some _ = Some _ => injection H as H
         end.

Lemma with_Constraints_same (schema : ParsedSchema) :
  with_Constraints (Constraints schema ++ []) schema = schema.
Proof. destruct schema; unfold with_Constraints; simpl; rewrite app_nil_r; reflexivity. Qed.

Lemma inlineForeignKey_owner conName rest tbl sp c :
  inlineForeignKey conName rest tbl sp = Some c ->
  ConstraintDef.TableSchema c = TableDef.SchemaName tbl
  /\ ConstraintDef.TableName c = TableDef.TableName tbl.
Proof.
  unfold inlineForeignKey. intros H. panic_cases H. subst c. split; reflexivity.
Qed.

Lemma parseInlineConstraint_appends text tbl sp schema schema' :
  parseInlineConstraint text tbl sp schema = Some schema' ->
  exists cs,
    schema' = with_Constraints (Constraints schema ++ cs) schema
    /\ Forall (fun c => ConstraintDef.TableSchema c = TableDef.SchemaName tbl
                        /\ ConstraintDef.TableName c = TableDef.TableName tbl) cs.
Proof.
  unfold parseInlineConstraint. intros H.
  panic_cases H; subst schema'.
  - eexists; split; [reflexivity | repeat constructor].
  - eexists; split; [reflexivity | repeat constructor].
  - eexists; split; [reflexivity | ].
    constructor; [ eapply inlineForeignKey_owner; eassumption | constructor ].
  - exists []; split; [ symmetry; apply with_Constraints_same | constructor ].
Qed.

Lemma with_Constraints_app cs1 cs2 schema :
  with_Constraints (Constraints (with_Constraints (Constraints schema ++ cs1) schema) ++ cs2)
                   (with_Constraints (Constraints schema ++ cs1) schema)
  = with_Constraints (Constraints schema ++ cs1 ++ cs2) schema.
Proof. unfold with_Constraints; simpl. rewrite app_assoc. reflexivity. Qed.

(** The body of a table adds columns to the table and constraints owned by
    the table to the schema, and nothing else. *)
Lemma parseTableBody_loop_effect parts : forall tbl sp schema tbl' schema',
  parseTableBody_loop parts tbl sp schema = Some (tbl', schema') ->
  exists cols cs,
    tbl' = TableDef.with_Columns (TableDef.Columns tbl ++ cols) tbl
    /\ schema' = with_Constraints (Constraints schema ++ cs) schema
    /\ Forall (fun c => ConstraintDef.TableSchema c = TableDef.SchemaName tbl
                        /\ ConstraintDef.TableName c = TableDef.TableName tbl) cs.
Proof.
  induction parts as [|part more IH]; simpl; intros tbl sp schema tbl' schema' H.
  - injection H as <- <-. exists [], []. repeat split.
    + destruct tbl; unfold TableDef.with_Columns; simpl; rewrite app_nil_r; reflexivity.
    + symmetry; apply with_Constraints_same.
    + constructor.
  - destruct (String.eqb (TrimSpace part) EmptyString); [ eauto | ].
    destruct (MatchString reTableConstraintKw (TrimSpace part)).
    + destruct (parseInlineConstraint _ _ _ _) as [s1|] eqn:E1; [ | discriminate ].
      apply parseInlineConstraint_appends in E1 as (cs1 & -> & F1).
      apply IH in H as (cols & cs & -> & -> & F).
      exists cols, (cs1 ++ cs). repeat split.
      * apply with_Constraints_app.
      * apply Forall_app; split; assumption.
    + destruct (parseColumn (TrimSpace part)) as [[c|]|] eqn:E1; [ | eauto | discriminate ].
      apply IH in H as (cols & cs & -> & -> & F).
      exists (c :: cols), cs. repeat split; [ | assumption ].
      destruct tbl; unfold TableDef.with_Columns; simpl.
      rewrite <- app_assoc. reflexivity.
Qed.

(** ** The tables of the model and the tables the input declares *)

Lemma updateAt_keys (g : TableDef.t -> list ColumnDef.t) ts : forall i,
  map tableKey
      (updateAt i (fun tbl => TableDef.with_Columns (g tbl) tbl) ts)
  = map tableKey ts.
Proof.
  induction ts as [|t ts IH]; intros [|i]; simpl; try reflexivity.
  now rewrite IH.
Qed.

Lemma backfillColumn_keys upd s n col schema :
  map tableKey (Tables (backfillColumn upd s n col schema))
  = map tableKey (Tables schema).
Proof.
  unfold backfillColumn.
  destruct (negb (excludedSchemas s)); [ | reflexivity ].
  destruct (GetTable schema s n); [ | reflexivity ].
  simpl. apply updateAt_keys.
Qed.

Lemma doCreateTable_effect stmt sp schema loc schema' :
  doCreateTable stmt sp schema loc = Some schema' ->
  (schema' = schema /\ declaredTable_of loc stmt sp = [])
  \/ exists tbl cs,
      schema' = with_Tables (Tables schema ++ [tbl])
                  (with_Constraints (Constraints schema ++ cs) schema)
      /\ excludedSchemas (TableDef.SchemaName tbl) = false
      /\ Forall (fun c => ConstraintDef.TableSchema c = TableDef.SchemaName tbl
                          /\ ConstraintDef.TableName c = TableDef.TableName tbl) cs
      /\ MatchString reCreateLead stmt = true
      /\ splitQualified (sub (submatches reCreateTable stmt loc) 2) sp
         = Some (tableKey tbl).
Proof.
  unfold doCreateTable, declaredTable_of. intros H.
  destruct (MatchString reCreateLead stmt) eqn:Lead; simpl in H;
    [ | injection H as <-; now left ].
  destruct (splitQualified _ _) as [[s n]|] eqn:Q; [ | discriminate ].
  simpl in H. destruct (excludedSchemas s) eqn:X;
    [ injection H as <-; left; simpl; now rewrite X | ].
  right.
  match type of H with
  | match ?e with Some _ => _ | None => None end = Some _ =>
    assert (B : exists tbl1 s1, e = Some (tbl1, s1)
              /\ exists cols cs,
                   tbl1 = TableDef.mk s n cols
                            (negb (String.eqb (sub (submatches reCreateTable stmt loc) 1) EmptyString))
                            [] EmptyString
                   /\ s1 = with_Constraints (Constraints schema ++ cs) schema
                   /\ Forall (fun c => ConstraintDef.TableSchema c = s
                                       /\ ConstraintDef.TableName c = n) cs)
  end.
  { destruct (negb (String.eqb (extractParenContent stmt) EmptyString)).
    - destruct (parseTableBody _ _ _ _) as [[t1 s1]|] eqn:B; [ | discriminate ].
      exists t1, s1. split; [ reflexivity | ].
      apply parseTableBody_loop_effect in B as (cols & cs & -> & -> & F).
      exists cols, cs. repeat split; assumption.
    - eexists _, _. split; [ reflexivity | ].
      exists [], []. repeat split; [ symmetry; apply with_Constraints_same | constructor ]. }
  destruct B as (tbl1 & s1 & EB & cols & cs & -> & -> & F).
  rewrite EB in H. injection H as <-. simpl.
  eexists _, cs. split; [ reflexivity | ].
  destruct (FindStringSubmatch reInherits stmt), (FindStringSubmatch rePartitionBy stmt);
    simpl; repeat split; assumption.
Qed.

Ltac same_keys :=
  first [ reflexivity | apply backfillColumn_keys ].

Lemma doCreateExtension_effect stmt schema loc schema' :
  doCreateExtension stmt schema loc = Some schema' ->
  change schema schema' /\ map tableKey (Tables schema') = map tableKey (Tables schema).
Proof.
  unfold doCreateExtension. intros H. panic_cases H; subst schema';
    (split; [ | same_keys ]);
    first [ apply ch_none | apply ch_extension; simpl; now apply negb_true_iff ].
Qed.

Lemma doCreateTypeEnum_effect stmt sp schema loc schema' :
  doCreateTypeEnum stmt sp schema loc = Some schema' ->
  change schema schema' /\ map tableKey (Tables schema') = map tableKey (Tables schema).
Proof.
  unfold doCreateTypeEnum. intros H. panic_cases H; subst schema';
    (split; [ | same_keys ]);
    first [ apply ch_none | apply ch_enum; simpl; now apply negb_true_iff ].
Qed.

Lemma doCreateSequence_effect stmt sp schema loc schema' :
  doCreateSequence stmt sp schema loc = Some schema' ->
  change schema schema' /\ map tableKey (Tables schema') = map tableKey (Tables schema).
Proof.
  unfold doCreateSequence. intros H. panic_cases H; subst schema';
    (split; [ | same_keys ]);
    first [ apply ch_none | apply ch_sequence; simpl; now apply negb_true_iff ].
Qed.

Lemma doAlterAddConstraint_effect stmt sp schema loc schema' :
  doAlterAddConstraint stmt sp schema loc = Some schema' ->
  change schema schema' /\ map tableKey (Tables schema') = map tableKey (Tables schema).
Proof.
  unfold doAlterAddConstraint. intros H.
  destruct (splitQualified _ _) as [sn|]; [ | discriminate ].
  destruct (excludedSchemas (fst sn)) eqn:X.
  - injection H as <-. split; [ apply ch_none | reflexivity ].
  - panic_cases H; subst schema'; (split; [ | same_keys ]);
      apply ch_constraint; exact X.
Qed.

Lemma doCreateIndex_effect stmt sp schema loc schema' :
  doCreateIndex stmt sp schema loc = Some schema' ->
  change schema schema' /\ map tableKey (Tables schema') = map tableKey (Tables schema).
Proof.
  unfold doCreateIndex. intros H.
  destruct (unquote _); [ | discriminate ].
  destruct (splitQualified _ _) as [sn|]; [ | discriminate ].
  destruct (excludedSchemas (fst sn)) eqn:X.
  - injection H as <-. split; [ apply ch_none | reflexivity ].
  - panic_cases H; subst schema'; (split; [ | same_keys ]);
      apply ch_index; exact X.
Qed.

Lemma doAlterSetDefault_effect stmt sp schema loc schema' :
  doAlterSetDefault stmt sp schema loc = Some schema' ->
  change schema schema' /\ map tableKey (Tables schema') = map tableKey (Tables schema).
Proof.
  unfold doAlterSetDefault. intros H. panic_cases H; subst schema'.
  split; [ apply ch_default | same_keys ].
Qed.

Lemma doAlterAddIdentity_effect stmt sp schema loc schema' :
  doAlterAddIdentity stmt sp schema loc = Some schema' ->
  change schema schema' /\ map tableKey (Tables schema') = map tableKey (Tables schema).
Proof.
  unfold doAlterAddIdentity. intros H. panic_cases H; subst schema'.
  split; [ apply ch_identity | same_keys ].
Qed.

Lemma doAlterSeqOwned_effect stmt sp schema loc schema' :
  doAlterSeqOwned stmt sp schema loc = Some schema' ->
  change schema schema' /\ map tableKey (Tables schema') = map tableKey (Tables schema).
Proof.
  unfold doAlterSeqOwned. intros H. panic_cases H; subst schema'.
  split; [ apply ch_owned | same_keys ].
Qed.

Lemma doCreateRule_effect stmt sp schema loc schema' :
  doCreateRule stmt sp schema loc = Some schema' ->
  change schema schema' /\ map tableKey (Tables schema') = map tableKey (Tables schema).
Proof.
  unfold doCreateRule. intros H. panic_cases H; subst schema';
    (split; [ | same_keys ]);
    first [ apply ch_none | apply ch_rule; simpl; now apply negb_true_iff ].
Qed.

(** A statement changes the model in one of the ways of [change]. *)
Lemma processStatement_change stmt sp schema schema' :
  processStatement stmt sp schema = Some schema' -> change schema schema'.
Proof.
  unfold processStatement. intros H.
  destruct (recognise stmt).
  - now apply doCreateExtension_effect in H.
  - now apply doCreateTypeEnum_effect in H.
  - now apply doCreateSequence_effect in H.
  - apply doCreateTable_effect in H as [[-> _] | (tbl & cs & -> & X & F & _)].
    + apply ch_none.
    + now apply ch_table.
  - now apply doAlterAddConstraint_effect in H.
  - now apply doCreateIndex_effect in H.
  - now apply doAlterSetDefault_effect in H.
  - now apply doAlterAddIdentity_effect in H.
  - now apply doAlterSeqOwned_effect in H.
  - now apply doCreateRule_effect in H.
  - injection H as <-. apply ch_none.
Qed.

(** The keys of the tables grow by exactly the table the statement declares. *)
Lemma processStatement_keys stmt sp schema schema' :
  processStatement stmt sp schema = Some schema' ->
  map tableKey (Tables schema')
  = map tableKey (Tables schema) ++ declaredTable stmt sp.
Proof.
  unfold processStatement, declaredTable. intros H.
  destruct (recognise stmt);
    try (rewrite app_nil_r;
         first [ now apply doCreateExtension_effect in H
               | now apply doCreateTypeEnum_effect in H
               | now apply doCreateSequence_effect in H
               | now apply doAlterAddConstraint_effect in H
               | now apply doCreateIndex_effect in H
               | now apply doAlterSetDefault_effect in H
               | now apply doAlterAddIdentity_effect in H
               | now apply doAlterSeqOwned_effect in H
               | now apply doCreateRule_effect in H
               | now injection H as <- ]).
  apply doCreateTable_effect in H as [[-> ->] | (tbl & cs & -> & X & F & L & Q)].
  - now rewrite app_nil_r.
  - unfold declaredTable_of. rewrite L, Q. simpl. rewrite X. simpl.
    rewrite map_app. reflexivity.
Qed.

Lemma processStatements_keys statements : forall schema schema',
  processStatements statements schema = Some schema' ->
  map tableKey (Tables schema')
  = map tableKey (Tables schema) ++ declaredTables statements.
Proof.
  induction statements as [|si rest IH]; simpl; intros schema schema' H.
  - injection H as <-. now rewrite app_nil_r.
  - destruct (processStatement _ _ _) as [s1|] eqn:E; [ | discriminate ].
    apply IH in H. apply processStatement_keys in E.
    rewrite H, E, <- app_assoc. reflexivity.
Qed.

(** ** C7: table lookup *)

Lemma GetTable_from_spec ts : forall i schema name,
  match GetTable_from i ts schema name with
  | Some j =>
    exists t, i <= j /\ nth_error ts (j - i) = Some t
              /\ tableKey t = (schema, name)
  | None => ~ In (schema, name) (map tableKey ts)
  end.
Proof.
  induction ts as [|t ts IH]; simpl; intros i schema name.
  - tauto.
  - destruct (String.eqb (TableDef.SchemaName t) schema) eqn:E1; simpl.
    + destruct (String.eqb (TableDef.TableName t) name) eqn:E2.
      * apply String.eqb_eq in E1, E2. exists t. rewrite Nat.sub_diag.
        repeat split; [ lia | ]. unfold tableKey. now rewrite E1, E2.
      * specialize (IH (S i) schema name).
        destruct (GetTable_from (S i) ts schema name) as [j|].
        -- destruct IH as (t' & L & N & K). exists t'. repeat split; [ lia | | exact K ].
           replace (j - i) with (S (j - S i)) by lia. exact N.
        -- intros [K | K]; [ | tauto ].
           apply String.eqb_neq in E2. unfold tableKey in K. congruence.
    + specialize (IH (S i) schema name).
      destruct (GetTable_from (S i) ts schema name) as [j|].
      * destruct IH as (t' & L & N & K). exists t'. repeat split; [ lia | | exact K ].
        replace (j - i) with (S (j - S i)) by lia. exact N.
      * intros [K | K]; [ | tauto ].
        apply String.eqb_neq in E1. unfold tableKey in K. congruence.
Qed.

Lemma ParseDump_keys data model :
  ParseDump data = Some model ->
  map tableKey (Tables model)
  = declaredTables (fst (splitStatements data emptySchema "public")).
Proof.
  unfold ParseDump. intros H. apply processStatements_keys in H. exact H.
Qed.



(** ** C2: excluded schemas *)

Lemma Forall_snoc {A : Type} (P : A -> Prop) l x :
  Forall P l -> P x -> Forall P (l ++ [x]).
Proof. intros. apply Forall_app. split; [ assumption | now constructor ]. Qed.

Lemma updateAt_Forall {A : Type} (P : A -> Prop) f (l : list A) :
  (forall x, P x -> P (f x)) -> forall i, Forall P l -> Forall P (updateAt i f l).
Proof.
  intros Hf. induction l as [|x l IH]; intros [|i] F; simpl; try assumption;
    inversion F; subst; constructor; auto.
Qed.

Lemma updateFirstSequence_Forall seqS seqN owner col qs :
  Forall (fun q => excludedSchemas (SequenceDef.SchemaName q) = false) qs ->
  Forall (fun q => excludedSchemas (SequenceDef.SchemaName q) = false)
         (updateFirstSequence seqS seqN owner col qs).
Proof.
  induction qs as [|q qs IH]; simpl; intros F; [ constructor | ].
  inversion F; subst.
  destruct (_ && _); constructor; auto.
Qed.

Lemma backfillColumn_clean upd s n col schema :
  clean schema -> clean (backfillColumn upd s n col schema).
Proof.
  unfold backfillColumn. intros C.
  destruct (negb (excludedSchemas s)); [ | exact C ].
  destruct (GetTable schema s n); [ | exact C ].
  destruct C as (T & C). split; [ | exact C ].
  simpl. apply updateAt_Forall; auto.
Qed.

Lemma backfillColumn_Extensions upd s n col schema :
  Extensions (backfillColumn upd s n col schema) = Extensions schema.
Proof.
  unfold backfillColumn.
  destruct (negb _); [ destruct (GetTable _ _ _) | ]; reflexivity.
Qed.

Lemma change_filtered schema schema' :
  change schema schema' -> filtered schema -> filtered schema'.
Proof.
  intros Ch ((T & C & I & Q & E & R) & X).
  destruct Ch;
    try (split; [ apply backfillColumn_clean; unfold clean; auto 10
                | now rewrite backfillColumn_Extensions ]);
    unfold filtered, clean; simpl; repeat split;
    auto using Forall_snoc, updateFirstSequence_Forall.
  - (* a table and its inline constraints *)
    apply Forall_app. split; [ assumption | ].
    eapply Forall_impl; [ | eassumption ].
    simpl. intros c [-> _]. assumption.
Qed.

Lemma processStatements_filtered statements : forall schema schema',
  processStatements statements schema = Some schema' ->
  filtered schema -> filtered schema'.
Proof.
  induction statements as [|si rest IH]; simpl; intros schema schema' H C.
  - now injection H as <-.
  - destruct (processStatement _ _ _) as [s1|] eqn:E; [ | discriminate ].
    eapply IH; [ eassumption | ].
    eapply change_filtered; [ | eassumption ].
    eapply processStatement_change; eassumption.
Qed.

(** C2, as the code has it.  Whatever a statement adds to the tables,
    constraints, indexes, sequences, enum types or rules has a schema outside
    the excluded set, in every state of the model; so no such entity of a
    returned model sits in an excluded schema.  The extension extractor
    tests the lower-cased name of the extension instead of its schema: it is
    the names of the extensions that stay outside the set. *)
Theorem excluded_schemas_filtered :
  (forall stmt sp schema schema',
      processStatement stmt sp schema = Some schema' ->
      filtered schema -> filtered schema')
  /\ (forall data model, ParseDump data = Some model -> filtered model).
Proof.
  split.
  - intros stmt sp schema schema' H C.
    eapply change_filtered; [ | eassumption ].
    eapply processStatement_change; eassumption.
  - unfold ParseDump. intros data model H.
    eapply processStatements_filtered; [ eassumption | ].
    unfold filtered, clean; simpl; repeat split; constructor.
Qed.

Lemma excluded_schemas_filtered_witness :
  exists model,
    ParseDump mixed_dump = Some model
    /\ filtered model
    /\ List.length (Tables model) = 2
    /\ List.length (Indexes model) = 1.
Proof.
  destruct (ParseDump mixed_dump) as [model|] eqn:E;
    [ | vm_compute in E; discriminate E ].
  exists model. split; [ reflexivity | ]. split.
  - exact (proj2 excluded_schemas_filtered mixed_dump model E).
  - vm_compute in E. injection E as <-. split; reflexivity.
Defined.

(** C2 as claimed fails for extensions: the statement pg_dump writes for
    plpgsql yields an extension whose schema field is pg_catalog. *)
Lemma extension_in_excluded_schema :
  exists model e,
    ParseDump plpgsql_stmt = Some model
    /\ In e (Extensions model)
    /\ excludedSchemas (ExtensionDef.SchemaName e) = true.
Proof.
  eexists _, _. split; [ vm_compute; reflexivity | ].
  split; [ left; reflexivity | reflexivity ].
Qed.

(** ** C6: sequence options *)



(** ** C8: back-fills *)

(** C8.  A set-default statement whose column is written as a lone double
    quote names a column that no table has; processing it panics in
    [unquote] instead of leaving the model unchanged, in every state of the
    model. *)
Theorem set_default_lone_quote_panics :
  (exists loc, recognise quote_default_stmt = AlterSetDefault loc)
  /\ forall sp schema, processStatement quote_default_stmt sp schema = None.
Proof.
  split.
  - eexists. vm_compute. reflexivity.
  - intros sp schema. vm_compute. reflexivity.
Qed.

(** The add-identity and the owned-by statements reach the same panic. *)
Lemma other_backfills_lone_quote_panic :
  (exists loc, recognise quote_identity_stmt = AlterAddIdentity loc)
  /\ (exists loc, recognise quote_owned_stmt = AlterSeqOwned loc)
  /\ forall sp schema,
      processStatement quote_identity_stmt sp schema = None
      /\ processStatement quote_owned_stmt sp schema = None.
Proof.
  split; [ eexists; vm_compute; reflexivity | ].
  split; [ eexists; vm_compute; reflexivity | ].
  intros sp schema. split; vm_compute; reflexivity.
Qed.

(** *** The frame of the back-fills

    Apart from the panic above the back-fills behave as C8 says: they leave
    the model as it is when the target is unknown, and otherwise change one
    field of one column (the two ownership fields of one sequence). *)

Lemma updateFirstColumn_absent upd col cols :
  (forall c, In c cols -> ColumnDef.Name c <> col) ->
  updateFirstColumn upd col cols = cols.
Proof.
  induction cols as [|c cols IH]; simpl; intros H; [ reflexivity | ].
  destruct (String.eqb (ColumnDef.Name c) col) eqn:E.
  - apply String.eqb_eq in E. exfalso. apply (H c); auto.
  - f_equal. apply IH. auto.
Qed.

Lemma updateFirstColumn_present upd col before c after :
  (forall b, In b before -> ColumnDef.Name b <> col) ->
  ColumnDef.Name c = col ->
  updateFirstColumn upd col (before ++ c :: after) = before ++ upd c :: after.
Proof.
  intros H E. induction before as [|b before IH]; simpl.
  - apply String.eqb_eq in E. now rewrite E.
  - destruct (String.eqb (ColumnDef.Name b) col) eqn:Eb.
    + apply String.eqb_eq in Eb. exfalso. apply (H b); simpl; auto.
    + f_equal. apply IH. intros; apply H; simpl; auto.
Qed.

Lemma updateAt_nth {A : Type} (f : A -> A) (l : list A) : forall i x,
  nth_error l i = Some x ->
  updateAt i f l = firstn i l ++ f x :: skipn (S i) l.
Proof.
  induction l as [|y l IH]; intros [|i] x H; simpl in *; try discriminate.
  - now injection H as ->.
  - f_equal. now apply IH.
Qed.

Lemma updateAt_same {A : Type} (f : A -> A) (l : list A) : forall i,
  (forall x, nth_error l i = Some x -> f x = x) -> updateAt i f l = l.
Proof.
  induction l as [|y l IH]; intros [|i] H; simpl in *; try reflexivity.
  - now rewrite H.
  - f_equal. now apply IH.
Qed.

Lemma with_Tables_same schema : with_Tables (Tables schema) schema = schema.
Proof. now destruct schema. Qed.

Lemma with_Columns_same t : TableDef.with_Columns (TableDef.Columns t) t = t.
Proof. now destruct t. Qed.

Lemma backfillColumn_unknown upd s n col schema :
  unknownColumn s n col schema -> backfillColumn upd s n col schema = schema.
Proof.
  unfold backfillColumn. intros [X | [G | (i & t & G & N & C)]].
  - now rewrite X.
  - rewrite G. now destruct (negb _).
  - rewrite G. destruct (negb _); [ | reflexivity ].
    rewrite updateAt_same; [ apply with_Tables_same | ].
    intros x Hx. rewrite N in Hx. injection Hx as <-.
    rewrite updateFirstColumn_absent by assumption. apply with_Columns_same.
Qed.

(** The target is known: table [i] is the first with the schema and name,
    and [c] is its first column of the name.  That column is replaced by
    [upd c]; every other column, every other table and the rest of the model
    stay. *)
Lemma backfillColumn_known upd s n col schema i t before c after :
  excludedSchemas s = false ->
  GetTable schema s n = Some i ->
  nth_error (Tables schema) i = Some t ->
  TableDef.Columns t = before ++ c :: after ->
  (forall b, In b before -> ColumnDef.Name b <> col) ->
  ColumnDef.Name c = col ->
  backfillColumn upd s n col schema
  = with_Tables
      (firstn i (Tables schema)
       ++ TableDef.with_Columns (before ++ upd c :: after) t
       :: skipn (S i) (Tables schema))
      schema.
Proof.
  unfold backfillColumn. intros X G N C B E. rewrite X, G. simpl.
  rewrite (updateAt_nth _ _ _ _ N), C.
  now rewrite updateFirstColumn_present.
Qed.

Lemma updateFirstSequence_absent seqS seqN owner col qs :
  (forall q, In q qs ->
     ~ (SequenceDef.SchemaName q = seqS /\ SequenceDef.SequenceName q = seqN)) ->
  updateFirstSequence seqS seqN owner col qs = qs.
Proof.
  induction qs as [|q qs IH]; simpl; intros H; [ reflexivity | ].
  destruct (_ && _) eqn:E.
  - apply andb_true_iff in E as [E1 E2]. apply String.eqb_eq in E1, E2.
    exfalso. apply (H q); auto.
  - f_equal. apply IH. auto.
Qed.

Lemma updateFirstSequence_present seqS seqN owner col before q after :
  (forall b, In b before ->
     ~ (SequenceDef.SchemaName b = seqS /\ SequenceDef.SequenceName b = seqN)) ->
  SequenceDef.SchemaName q = seqS -> SequenceDef.SequenceName q = seqN ->
  updateFirstSequence seqS seqN owner col (before ++ q :: after)
  = before ++ SequenceDef.with_OwnedBy owner col q :: after.
Proof.
  intros H E1 E2. induction before as [|b before IH]; simpl.
  - apply String.eqb_eq in E1, E2. now rewrite E1, E2.
  - destruct (_ && _) eqn:Eb.
    + apply andb_true_iff in Eb as [Eb1 Eb2]. apply String.eqb_eq in Eb1, Eb2.
      exfalso. apply (H b); simpl; auto.
    + f_equal. apply IH. intros; apply H; simpl; auto.
Qed.

Lemma with_Sequences_same schema :
  with_Sequences (Sequences schema) schema = schema.
Proof. now destruct schema. Qed.

(** What the three back-fill statements do when they do not panic. *)
Lemma backfill_statements stmt sp schema schema' :
  processStatement stmt sp schema = Some schema' ->
  (forall loc, recognise stmt = AlterSetDefault loc ->
     exists s n col v,
       schema' = backfillColumn (ColumnDef.with_DefaultExpr v) s n col schema)
  /\ (forall loc, recognise stmt = AlterAddIdentity loc ->
     exists s n col v,
       schema' = backfillColumn (ColumnDef.with_Identity v) s n col schema)
  /\ (forall loc, recognise stmt = AlterSeqOwned loc ->
     exists seqS seqN owner col,
       schema' = with_Sequences
                   (updateFirstSequence seqS seqN owner col (Sequences schema))
                   schema).
Proof.
  unfold processStatement. intros H. repeat split; intros loc R; rewrite R in H.
  - unfold doAlterSetDefault in H. panic_cases H. eauto.
  - unfold doAlterAddIdentity in H. panic_cases H. eauto.
  - unfold doAlterSeqOwned in H. panic_cases H. eauto.
Qed.

(** ** Strings and UTF-8 *)

Lemma append_nil_r (s : string) : (s ++ EmptyString)%string = s.
Proof. induction s; simpl; congruence. Qed.

Lemma append_assoc (a b c : string) :
  ((a ++ b) ++ c)%string = (a ++ b ++ c)%string.
Proof. induction a; simpl; congruence. Qed.

Lemma length_append (a b : string) :
  String.length (a ++ b)%string = String.length a + String.length b.
Proof. induction a; simpl; congruence. Qed.

Lemma substring_from (s : string) : forall k,
  (String.substring 0 k s ++ from k s)%string = s.
Proof.
  induction s as [|c s IH]; intros [|k]; simpl; try reflexivity.
  now rewrite IH.
Qed.

Lemma byte_of_val (c : ascii) : byte_of (byte_val c) = c.
Proof.
  unfold byte_of, byte_val. rewrite N2Z.id. apply ascii_N_embedding.
Qed.

Lemma byte_val_range (c : ascii) : (0 <= byte_val c < 256)%Z.
Proof.
  unfold byte_val. pose proof (N_ascii_bounded c). lia.
Qed.

Lemma byte_of_eq (c : ascii) (z : Z) : z = byte_val c -> byte_of z = c.
Proof. intros ->. apply byte_of_val. Qed.

(** bits that do not overlap: [lor] is addition *)
Lemma lor_low (hi lo k : Z) :
  (0 <= k -> 0 <= lo < 2 ^ k -> Z.lor (hi * 2 ^ k) lo = hi * 2 ^ k + lo)%Z.
Proof.
  intros Hk Hlo.
  assert (L : Z.land (hi * 2 ^ k) lo = 0%Z); [ | pose proof (Z.add_lor_land (hi * 2 ^ k) lo); lia ].
  apply Z.bits_inj'. intros n Hn. rewrite Z.land_spec, Z.bits_0.
  destruct (Z.ltb_spec n k).
  - rewrite Z.mul_pow2_bits_low by lia. reflexivity.
  - apply andb_false_intro2.
    destruct (Z.eq_dec lo 0) as [-> | Hz]; [ apply Z.bits_0 | ].
    apply Z.bits_above_log2; [ lia | ].
    assert (Z.log2 lo < k)%Z by (apply Z.log2_lt_pow2; lia). lia.
Qed.

Lemma land_3F (x : Z) : Z.land x 0x3F = (x mod 64)%Z.
Proof. change 0x3F%Z with (Z.ones 6). apply Z.land_ones. lia. Qed.
Lemma land_1F (x : Z) : Z.land x 0x1F = (x mod 32)%Z.
Proof. change 0x1F%Z with (Z.ones 5). apply Z.land_ones. lia. Qed.
Lemma land_0F (x : Z) : Z.land x 0x0F = (x mod 16)%Z.
Proof. change 0x0F%Z with (Z.ones 4). apply Z.land_ones. lia. Qed.
Lemma land_07 (x : Z) : Z.land x 0x07 = (x mod 8)%Z.
Proof. change 0x07%Z with (Z.ones 3). apply Z.land_ones. lia. Qed.

Lemma lor_shiftl (hi lo k : Z) :
  (0 <= k -> 0 <= lo < 2 ^ k -> Z.lor (Z.shiftl hi k) lo = hi * 2 ^ k + lo)%Z.
Proof. intros. rewrite Z.shiftl_mul_pow2 by lia. now apply lor_low. Qed.

Lemma lor_80 (x : Z) : (0 <= x < 64 -> Z.lor 0x80 x = 128 + x)%Z.
Proof. intros. change 0x80%Z with (2 * 2 ^ 6)%Z. rewrite lor_low; lia. Qed.
Lemma lor_C0 (x : Z) : (0 <= x < 32 -> Z.lor 0xC0 x = 192 + x)%Z.
Proof. intros. change 0xC0%Z with (6 * 2 ^ 5)%Z. rewrite lor_low; lia. Qed.
Lemma lor_E0 (x : Z) : (0 <= x < 16 -> Z.lor 0xE0 x = 224 + x)%Z.
Proof. intros. change 0xE0%Z with (14 * 2 ^ 4)%Z. rewrite lor_low; lia. Qed.
Lemma lor_F0 (x : Z) : (0 <= x < 8 -> Z.lor 0xF0 x = 240 + x)%Z.
Proof. intros. change 0xF0%Z with (30 * 2 ^ 3)%Z. rewrite lor_low; lia. Qed.

Lemma cont_range (c : ascii) : cont c = true -> (128 <= byte_val c <= 191)%Z.
Proof. unfold cont, between. rewrite andb_true_iff, !Z.leb_le. lia. Qed.

Lemma between_range lo hi (c : ascii) :
  between lo hi c = true -> (lo <= byte_val c <= hi)%Z.
Proof. unfold between. rewrite andb_true_iff, !Z.leb_le. lia. Qed.

Lemma encode_two (c0 c1 : ascii) :
  (0xC2 <= byte_val c0 <= 0xDF)%Z -> cont c1 = true ->
  EncodeRune (Z.lor (Z.shiftl (Z.land (byte_val c0) 0x1F) 6) (low6 c1))
  = String c0 (String c1 EmptyString).
Proof.
  intros H0 H1. apply cont_range in H1. unfold low6.
  rewrite land_1F, land_3F, lor_shiftl by (try apply Z.mod_pos_bound; lia).
  set (r := (_ + _)%Z).
  assert (R : r = ((byte_val c0 - 192) * 64 + (byte_val c1 - 128))%Z)
    by (subst r; change (2 ^ 6)%Z with 64%Z; Z.div_mod_to_equations; lia).
  unfold EncodeRune.
  replace (r <? 0)%Z with false by (symmetry; apply Z.ltb_ge; lia).
  replace (r <? 0x80)%Z with false by (symmetry; apply Z.ltb_ge; lia).
  replace (r <? 0x800)%Z with true by (symmetry; apply Z.ltb_lt; lia).
  rewrite Z.shiftr_div_pow2, land_3F by lia. change (2 ^ 6)%Z with 64%Z.
  rewrite lor_C0, lor_80 by (Z.div_mod_to_equations; lia).
  f_equal; [ | f_equal ]; apply byte_of_eq; Z.div_mod_to_equations; lia.
Qed.

Ltac ltb_false := symmetry; apply Z.ltb_ge; lia.
Ltac ltb_true := symmetry; apply Z.ltb_lt; lia.

Lemma encode_three (c0 c1 c2 : ascii) :
  (0xE0 <= byte_val c0 <= 0xEF)%Z ->
  between (accept_lo (byte_val c0)) (accept_hi (byte_val c0)) c1 = true ->
  cont c2 = true ->
  EncodeRune (Z.lor (Z.shiftl (Z.land (byte_val c0) 0x0F) 12)
                (Z.lor (Z.shiftl (low6 c1) 6) (low6 c2)))
  = String c0 (String c1 (String c2 EmptyString)).
Proof.
  intros H0 H1 H2. apply cont_range in H2. apply between_range in H1.
  assert (A : (128 <= byte_val c1 <= 191
               /\ (byte_val c0 = 0xE0 -> 0xA0 <= byte_val c1)
               /\ (byte_val c0 = 0xED -> byte_val c1 <= 0x9F))%Z).
  { unfold accept_lo, accept_hi in H1.
    destruct (Z.eqb_spec (byte_val c0) 0xE0), (Z.eqb_spec (byte_val c0) 0xED),
             (Z.eqb_spec (byte_val c0) 0xF0), (Z.eqb_spec (byte_val c0) 0xF4); lia. }
  clear H1. destruct A as (H1 & HE0 & HED).
  unfold low6. rewrite land_0F, !land_3F.
  rewrite (lor_shiftl _ _ 6) by (try apply Z.mod_pos_bound; lia).
  rewrite lor_shiftl
    by (change (2 ^ 6)%Z with 64%Z; change (2 ^ 12)%Z with 4096%Z;
        try Z.div_mod_to_equations; lia).
  set (r := (_ + _)%Z).
  assert (R : r = ((byte_val c0 - 224) * 4096 + (byte_val c1 - 128) * 64
                   + (byte_val c2 - 128))%Z)
    by (subst r; change (2 ^ 6)%Z with 64%Z; change (2 ^ 12)%Z with 4096%Z;
        Z.div_mod_to_equations; lia).
  unfold EncodeRune.
  replace (r <? 0)%Z with false by ltb_false.
  replace (r <? 0x80)%Z with false by ltb_false.
  replace (r <? 0x800)%Z with false by ltb_false.
  replace ((0xD800 <=? r) && (r <=? 0xDFFF))%Z with false.
  2:{ symmetry. apply andb_false_iff.
      destruct (Z.eq_dec (byte_val c0) 0xED);
        [ left; apply Z.leb_gt; lia | ].
      destruct (Z_lt_le_dec (byte_val c0) 0xED);
        [ left; apply Z.leb_gt; lia | right; apply Z.leb_gt; lia ]. }
  replace (r <? 0x10000)%Z with true by ltb_true.
  unfold encode3.
  rewrite !Z.shiftr_div_pow2, !land_3F by lia.
  change (2 ^ 6)%Z with 64%Z; change (2 ^ 12)%Z with 4096%Z.
  rewrite lor_E0, !lor_80 by (Z.div_mod_to_equations; lia).
  repeat f_equal; apply byte_of_eq; Z.div_mod_to_equations; lia.
Qed.

Lemma encode_four (c0 c1 c2 c3 : ascii) :
  (0xF0 <= byte_val c0 <= 0xF4)%Z ->
  between (accept_lo (byte_val c0)) (accept_hi (byte_val c0)) c1 = true ->
  cont c2 = true -> cont c3 = true ->
  EncodeRune (Z.lor (Z.shiftl (Z.land (byte_val c0) 0x07) 18)
                (Z.lor (Z.shiftl (low6 c1) 12)
                   (Z.lor (Z.shiftl (low6 c2) 6) (low6 c3))))
  = String c0 (String c1 (String c2 (String c3 EmptyString))).
Proof.
  intros H0 H1 H2 H3. apply cont_range in H2, H3. apply between_range in H1.
  assert (A : (128 <= byte_val c1 <= 191
               /\ (byte_val c0 = 0xF0 -> 0x90 <= byte_val c1)
               /\ (byte_val c0 = 0xF4 -> byte_val c1 <= 0x8F))%Z).
  { unfold accept_lo, accept_hi in H1.
    destruct (Z.eqb_spec (byte_val c0) 0xE0), (Z.eqb_spec (byte_val c0) 0xED),
             (Z.eqb_spec (byte_val c0) 0xF0), (Z.eqb_spec (byte_val c0) 0xF4); lia. }
  clear H1. destruct A as (H1 & HF0 & HF4).
  unfold low6. rewrite land_07, !land_3F.
  rewrite (lor_shiftl _ _ 6) by (try apply Z.mod_pos_bound; lia).
  rewrite (lor_shiftl _ _ 12)
    by (change (2 ^ 6)%Z with 64%Z; change (2 ^ 12)%Z with 4096%Z;
        try Z.div_mod_to_equations; lia).
  rewrite lor_shiftl
    by (change (2 ^ 6)%Z with 64%Z; change (2 ^ 12)%Z with 4096%Z;
        change (2 ^ 18)%Z with 262144%Z;
        try Z.div_mod_to_equations; lia).
  set (r := (_ + _)%Z).
  assert (R : r = ((byte_val c0 - 240) * 262144 + (byte_val c1 - 128) * 4096
                   + (byte_val c2 - 128) * 64 + (byte_val c3 - 128))%Z)
    by (subst r; change (2 ^ 6)%Z with 64%Z; change (2 ^ 12)%Z with 4096%Z;
        change (2 ^ 18)%Z with 262144%Z; Z.div_mod_to_equations; lia).
  assert (R0 : (0x10000 <= r <= 0x10FFFF)%Z).
  { destruct (Z.eq_dec (byte_val c0) 0xF0); [ lia | ].
    destruct (Z.eq_dec (byte_val c0) 0xF4); lia. }
  unfold EncodeRune.
  replace (r <? 0)%Z with false by ltb_false.
  replace (r <? 0x80)%Z with false by ltb_false.
  replace (r <? 0x800)%Z with false by ltb_false.
  replace ((0xD800 <=? r) && (r <=? 0xDFFF))%Z with false
    by (symmetry; apply andb_false_iff; right; apply Z.leb_gt; lia).
  replace (r <? 0x10000)%Z with false by ltb_false.
  replace (r <=? 0x10FFFF)%Z with true by (symmetry; apply Z.leb_le; lia).
  rewrite !Z.shiftr_div_pow2, !land_3F by lia.
  change (2 ^ 6)%Z with 64%Z; change (2 ^ 12)%Z with 4096%Z;
    change (2 ^ 18)%Z with 262144%Z.
  rewrite lor_F0, !lor_80 by (Z.div_mod_to_equations; lia).
  repeat f_equal; apply byte_of_eq; Z.div_mod_to_equations; lia.
Qed.

Lemma substring_0_0 (t : string) : String.substring 0 0 t = EmptyString.
Proof. now destruct t. Qed.

(** A rune that is not the width-1 error is written back as the bytes it
    was read from. *)
Lemma decode_encode (c : ascii) (t : string) :
  let s := String c t in
  valid_token (DecodeRuneInString s) = true ->
  EncodeRune (fst (DecodeRuneInString s))
  = String.substring 0 (snd (DecodeRuneInString s)) s
  /\ 1 <= snd (DecodeRuneInString s) <= String.length s.
Proof.
  cbv zeta. unfold DecodeRuneInString.
  pose proof (byte_val_range c) as B.
  destruct (Z.ltb_spec (byte_val c) 0x80).
  { intros _. simpl. split; [ | lia ].
    unfold EncodeRune.
    replace (byte_val c <? 0)%Z with false by ltb_false.
    replace (byte_val c <? 0x80)%Z with true by ltb_true.
    now rewrite byte_of_val, substring_0_0. }
  destruct (Z.leb_spec 0xC2 (byte_val c)), (Z.leb_spec (byte_val c) 0xDF); simpl "&&".
  { destruct t as [|c1 t]; [ discriminate | ].
    destruct (cont c1) eqn:C1; [ | discriminate ].
    intros _. simpl. rewrite substring_0_0. split; [ | lia ]. apply encode_two; [ lia | assumption ]. }
  all: destruct (Z.leb_spec 0xE0 (byte_val c)), (Z.leb_spec (byte_val c) 0xEF);
    simpl "&&".
  all: try (destruct t as [|c1 [|c2 t]]; try discriminate;
            destruct (between _ _ c1) eqn:C1; [ | discriminate ];
            destruct (cont c2) eqn:C2; [ | discriminate ];
            intros _; simpl; rewrite substring_0_0; split; [ | lia ];
            apply encode_three; [ lia | assumption | assumption ]).
  all: destruct (Z.leb_spec 0xF0 (byte_val c)), (Z.leb_spec (byte_val c) 0xF4);
    simpl "&&"; try discriminate.
  all: try (destruct t as [|c1 [|c2 [|c3 t]]]; try discriminate;
            destruct (between _ _ c1) eqn:C1; [ | discriminate ];
            destruct (cont c2) eqn:C2; [ | discriminate ];
            destruct (cont c3) eqn:C3; [ | discriminate ];
            intros _; simpl; rewrite substring_0_0; split; [ | lia ];
            apply encode_four; [ lia | assumption .. ]).
  all: lia.
Qed.

Lemma EncodeRune_nonempty (r : Z) : EncodeRune r <> EmptyString.
Proof.
  unfold EncodeRune, encode3.
  repeat match goal with |- context [if ?b then _ else _] => destruct b end;
    discriminate.
Qed.

Lemma concat_cons (x : string) (l : list string) :
  String.concat EmptyString (x :: l) = (x ++ String.concat EmptyString l)%string.
Proof.
  destruct l; simpl; [ now rewrite append_nil_r | reflexivity ].
Qed.

Lemma written_cons rw rs :
  written (rw :: rs) = (EncodeRune (fst rw) ++ written rs)%string.
Proof. unfold written. simpl map. apply concat_cons. Qed.

Lemma runes_from_0 (c : ascii) (t : string) :
  runes_from 0 (String c t)
  = DecodeRuneInString (String c t)
    :: runes_from (snd (DecodeRuneInString (String c t)) - 1) t.
Proof. reflexivity. Qed.

Lemma runes_from_S (k : nat) (c : ascii) (t : string) :
  runes_from (S k) (String c t) = runes_from k t.
Proof. reflexivity. Qed.

Lemma runes_from_written (s : string) : forall skip,
  skip <= String.length s ->
  forallb valid_token (runes_from skip s) = true ->
  written (runes_from skip s) = from skip s.
Proof.
  induction s as [|c t IH]; intros skip L V.
  - simpl in *. destruct skip; reflexivity.
  - destruct skip as [|k].
    + rewrite runes_from_0 in *.
      apply andb_true_iff in V as [V1 V2].
      destruct (decode_encode c t V1) as [E W].
      rewrite written_cons, E.
      destruct (snd (DecodeRuneInString (String c t))) as [|w]; [ lia | ].
      simpl in W. simpl Nat.sub in *. rewrite Nat.sub_0_r in *.
      rewrite IH by (assumption || lia).
      simpl. now rewrite substring_from.
    + rewrite runes_from_S in *. simpl in L. apply IH; [ lia | assumption ].
Qed.

Lemma ValidString_written (s : string) :
  ValidString s = true -> written (runes s) = s.
Proof.
  intros V. unfold runes. rewrite runes_from_written; [ | lia | exact V ].
  now destruct s.
Qed.

(** ** C10: the top-level comma splitter *)

Lemma Join_snoc (parts : list string) (c : string) :
  Join (parts ++ [c]) "," = (commaTerminated parts ++ c)%string.
Proof.
  induction parts as [|p ps IH]; [ reflexivity | ].
  simpl app. simpl commaTerminated.
  destruct (ps ++ [c]) as [|x l] eqn:E; [ now destruct ps | ].
  change (Join (p :: x :: l) ",") with (p ++ "," ++ Join (x :: l) ",")%string.
  rewrite IH, !append_assoc. reflexivity.
Qed.

Lemma commaTerminated_snoc (parts : list string) (c : string) :
  commaTerminated (parts ++ [c]) = (commaTerminated parts ++ c ++ ",")%string.
Proof.
  induction parts as [|p ps IH]; simpl.
  - reflexivity.
  - now rewrite IH, !append_assoc.
Qed.

Lemma append_nonempty (a b : string) :
  b <> EmptyString -> (a ++ b)%string <> EmptyString.
Proof. destruct a; simpl; [ auto | discriminate ]. Qed.

Lemma splitBodyParts_loop_join rs : forall parts depth current,
  endsWithTopComma rs depth = false ->
  (rs = [] -> current <> EmptyString \/ parts = []) ->
  Join (splitBodyParts_loop rs parts depth current) ","
  = (commaTerminated parts ++ current ++ written rs)%string.
Proof.
  induction rs as [|[ch w] t IH]; intros parts depth current E N.
  - simpl. unfold written; simpl. rewrite append_nil_r.
    destruct current as [|c cur].
    + destruct (N eq_refl) as [N' | ->]; [ congruence | reflexivity ].
    + simpl Nat.ltb. cbv iota. apply Join_snoc.
  - rewrite written_cons. simpl fst. simpl in E |- *.
    assert (NE : forall q : list string, t = [] ->
               (current ++ EncodeRune ch)%string <> EmptyString \/ q = [])
      by (intros; left; apply append_nonempty, EncodeRune_nonempty).
    destruct (ch =? 0x28)%Z;
      [ rewrite IH by (exact E || apply (NE parts)); now rewrite !append_assoc | ].
    destruct (ch =? 0x29)%Z;
      [ rewrite IH by (exact E || apply (NE parts)); now rewrite !append_assoc | ].
    destruct (Z.eqb_spec ch 0x2C) as [-> | _]; simpl in E |- *.
    + destruct (depth =? 0)%Z.
      * rewrite IH.
        -- rewrite commaTerminated_snoc, !append_assoc. reflexivity.
        -- now destruct t.
        -- intros ->. discriminate E.
      * rewrite IH by (exact E || apply (NE parts)). now rewrite !append_assoc.
    + rewrite IH by (exact E || apply (NE parts)). now rewrite !append_assoc.
Qed.

(** C10, as the code has it.  For every body that is valid UTF-8 and does
    not end with a comma at parenthesis depth zero, joining the parts with
    single commas gives back the body: nothing but the depth-zero commas is
    lost and the parts stand in their original order. *)
Theorem splitBodyParts_join (body : string) :
  ValidString body = true ->
  endsWithTopComma (runes body) 0 = false ->
  Join (splitBodyParts body) "," = body.
Proof.
  intros V E. unfold splitBodyParts.
  rewrite splitBodyParts_loop_join; [ | exact E | now right ].
  simpl. now apply ValidString_written.
Qed.

Lemma splitBodyParts_join_witness :
  ValidString numeric_body = true
  /\ endsWithTopComma (runes numeric_body) 0 = false
  /\ List.length (splitBodyParts numeric_body) = 4
  /\ Join (splitBodyParts numeric_body) "," = numeric_body.
Proof.
  split; [ reflexivity | ]. split; [ reflexivity | ]. split; [ reflexivity | ].
  apply splitBodyParts_join; reflexivity.
Defined.

(** C10 as claimed fails on a body that is not valid UTF-8: the byte that
    decodes to no rune comes back as the three bytes of U+FFFD. *)
Lemma splitBodyParts_invalid_byte :
  endsWithTopComma (runes latin1_body) 0 = false
  /\ splitBodyParts latin1_body
     = [("caf" ++ String (byte_of 0xEF) (String (byte_of 0xBF)
                    (String (byte_of 0xBD) EmptyString)) ++ " text")%string]
  /\ Join (splitBodyParts latin1_body) "," <> latin1_body.
Proof.
  split; [ reflexivity | ]. split; [ reflexivity | ].
  vm_compute. discriminate.
Qed.

(** ** The matcher and the matching relation *)

Lemma cursor_eta cur : Cursor (pos cur) (prev cur) (rest cur) = cur.
Proof. now destruct cur. Qed.

Lemma star_greedy_sound p g rs : forall at_ before c k res,
  star_greedy p rs at_ before k = Some res ->
  exists cur', steps (Star g p) (Cursor at_ before rs) c cur' c
               /\ k cur' = Some res.
Proof.
  induction rs as [|[r w] t IH]; simpl; intros at_ before c k res H.
  - eexists; split; [ apply st_star_stop | exact H ].
  - destruct (p r) eqn:P.
    + destruct (star_greedy p t (at_ + w) r k) eqn:G.
      * injection H as ->. apply (IH _ _ c) in G as (cur' & S & K).
        exists cur'. split; [ now apply st_star_more | exact K ].
      * eexists; split; [ apply st_star_stop | exact H ].
    + eexists; split; [ apply st_star_stop | exact H ].
Qed.

Lemma star_lazy_sound p g rs : forall at_ before c k res,
  star_lazy p rs at_ before k = Some res ->
  exists cur', steps (Star g p) (Cursor at_ before rs) c cur' c
               /\ k cur' = Some res.
Proof.
  induction rs as [|[r w] t IH]; simpl; intros at_ before c k res H.
  - destruct (k _) eqn:K; [ | discriminate ].
    eexists; split; [ apply st_star_stop | now rewrite K ].
  - destruct (k (Cursor at_ before ((r, w) :: t))) eqn:K.
    + eexists; split; [ apply st_star_stop | now rewrite K ].
    + destruct (p r) eqn:P; [ | discriminate ].
      apply (IH _ _ c) in H as (cur' & S & K').
      exists cur'. split; [ now apply st_star_more | exact K' ].
Qed.

(** Soundness of the matcher: a successful run went through a path of the
    matching relation to its continuation. *)
Lemma run_sound re : forall cur c k res,
  run re cur c k = Some res ->
  exists cur' c', steps re cur c cur' c' /\ k cur' c' = Some res.
Proof.
  induction re as [ |p|a IHa b IHb|a IHa b IHb|g p|a IHa|i a IHa| | | ];
    simpl; intros cur c k res H.
  - eexists _, _; split; [ constructor | exact H ].
  - destruct cur as [at_ before rs]. simpl in H.
    destruct rs as [|[r w] t]; [ discriminate | ].
    destruct (p r) eqn:P; [ | discriminate ].
    eexists _, _; split; [ now constructor | exact H ].
  - apply IHa in H as (cur1 & c1 & S1 & H).
    apply IHb in H as (cur2 & c2 & S2 & H).
    eexists _, _; split; [ eapply st_cat; eassumption | exact H ].
  - destruct (run a cur c k) eqn:R.
    + injection H as ->. apply IHa in R as (cur' & c' & S & K).
      eexists _, _; split; [ apply st_or_left; eassumption | exact K ].
    + apply IHb in H as (cur' & c' & S & K).
      eexists _, _; split; [ apply st_or_right; eassumption | exact K ].
  - rewrite <- (cursor_eta cur).
    destruct g.
    + apply (star_greedy_sound p true _ _ _ c) in H as (cur' & S & K).
      eexists _, _; split; eassumption.
    + apply (star_lazy_sound p false _ _ _ c) in H as (cur' & S & K).
      eexists _, _; split; eassumption.
  - destruct (run a cur c k) eqn:R.
    + injection H as ->. apply IHa in R as (cur' & c' & S & K).
      eexists _, _; split; [ apply st_opt_some; eassumption | exact K ].
    + eexists _, _; split; [ apply st_opt_none | exact H ].
  - apply IHa in H as (cur' & c' & S & K).
    eexists _, _; split; [ apply st_cap; eassumption | exact K ].
  - destruct (pos cur =? 0)%nat eqn:P; [ | discriminate ].
    apply Nat.eqb_eq in P.
    eexists _, _; split; [ now constructor | exact H ].
  - destruct (rest cur) eqn:P; [ | discriminate ].
    eexists _, _; split; [ now constructor | exact H ].
  - destruct (xorb _ _) eqn:P; [ | discriminate ].
    eexists _, _; split; [ now constructor | exact H ].
Qed.

Lemma search_sound re rs : forall at_ before loc,
  search re rs at_ before = Some loc ->
  exists start cur' c',
    reachable (Cursor at_ before rs) start
    /\ steps re start [] cur' c'
    /\ loc = (0, (pos start, pos cur')) :: c'.
Proof.
  induction rs as [|[r w] t IH]; simpl; intros at_ before loc H.
  - destruct (run re _ _ _) eqn:R; [ | discriminate ].
    injection H as ->. apply run_sound in R as (cur' & c' & S & K).
    injection K as <-. eexists _, _, _.
      split; [ apply reach_here | split; [ eassumption | reflexivity ] ].
  - destruct (run re _ _ _) eqn:R.
    + injection H as ->. apply run_sound in R as (cur' & c' & S & K).
      injection K as <-. eexists _, _, _.
      split; [ apply reach_here | split; [ eassumption | reflexivity ] ].
    + apply IH in H as (start & cur' & c' & Re & S & ->).
      eexists _, _, _.
      split; [ apply reach_next; eassumption | split; [ eassumption | reflexivity ] ].
Qed.

(** *** Cursors stay inside the text *)

Lemma decode_width (c : ascii) (t : string) :
  1 <= snd (DecodeRuneInString (String c t)) <= String.length (String c t).
Proof.
  destruct (valid_token (DecodeRuneInString (String c t))) eqn:V.
  - apply (decode_encode c t V).
  - unfold valid_token in V. apply negb_false_iff, andb_true_iff in V as [_ V].
    apply Nat.eqb_eq in V. rewrite V. simpl. lia.
Qed.

Lemma runes_from_inside (s : string) : forall skip,
  skip <= String.length s ->
  total (runes_from skip s) = String.length s - skip
  /\ Forall (fun rw : Z * nat => 1 <= snd rw) (runes_from skip s).
Proof.
  induction s as [|c t IH]; intros skip L.
  - simpl. split; [ lia | constructor ].
  - destruct skip as [|k].
    + rewrite runes_from_0.
      pose proof (decode_width c t) as W.
      destruct (DecodeRuneInString (String c t)) as [r w]. simpl in W |- *.
      destruct (IH (w - 1)) as [T F]; [ lia | ].
      split; [ lia | constructor; [ simpl; lia | exact F ] ].
    + rewrite runes_from_S. simpl in L |- *. apply IH. lia.
Qed.

Lemma runes_inside (s : string) :
  inside (String.length s) (Cursor 0 (-1)%Z (runes s)).
Proof.
  destruct (runes_from_inside s 0) as [T F]; [ lia | ].
  split; simpl; [ fold (runes s) in T; lia | exact F ].
Qed.

Lemma steps_inside n re cur c cur' c' :
  steps re cur c cur' c' -> inside n cur ->
  inside n cur' /\ pos cur <= pos cur'.
Proof.
  induction 1; intros I; auto.
  - destruct I as [T F]. simpl in *. inversion F; subst. simpl in *.
    split; [ split; simpl; [ lia | assumption ] | lia ].
  - destruct (IHsteps1 I) as [I1 L1]. destruct (IHsteps2 I1) as [I2 L2].
    split; [ assumption | lia ].
  - assert (I1 : inside n (Cursor (at_ + w) r t)).
    { destruct I as [T F]. simpl in *. inversion F; subst.
      split; simpl; [ lia | assumption ]. }
    destruct (IHsteps I1) as [I2 L]. simpl in *. split; [ assumption | lia ].
Qed.

Lemma reachable_inside n cur start :
  reachable cur start -> inside n cur -> inside n start.
Proof.
  induction 1; intros I; [ assumption | ].
  apply IHreachable. destruct I as [T F]. simpl in *. inversion F; subst.
  split; simpl; [ lia | assumption ].
Qed.

(** one or more runes: the cursor moves on *)
Lemma steps_plus_advances n p g cur c cur' c' :
  steps (Cat (Rn p) (Star g p)) cur c cur' c' -> inside n cur ->
  inside n cur' /\ pos cur < pos cur' /\ c' = c.
Proof.
  intros S I. inversion S as [ | |a b x1 x2 cur1 c1 x3 x4 S1 S2| | | | | | | | | | ]; subst.
  inversion S1; subst.
  assert (I1 : inside n (Cursor (at_ + w) r t)).
  { destruct I as [T F]. simpl in *. inversion F; subst.
    split; simpl; [ lia | assumption ]. }
  destruct I as [_ F]. inversion F; subst. simpl in *.
  destruct (steps_inside n _ _ _ _ _ S2 I1) as [I2 L]. simpl in L.
  repeat split; try apply I2; try lia.
  clear - S2. remember (Star g p) as re eqn:E.
  induction S2; try discriminate; auto.
Qed.

Lemma steps_capfree re cur c cur' c' :
  steps re cur c cur' c' -> capfree re = true -> c' = c.
Proof.
  induction 1; simpl; intros F; try reflexivity; try discriminate;
    try apply andb_true_iff in F as [F1 F2]; auto.
  rewrite IHsteps2, IHsteps1; auto.
Qed.

Lemma substring_length (s : string) : forall a n,
  a + n <= String.length s -> String.length (String.substring a n s) = n.
Proof.
  induction s as [|c s IH]; intros [|a] [|n] L; simpl in *; try lia; auto.
  - f_equal. apply IH. lia.
  - apply (IH a 0). lia.
  - apply IH. lia.
Qed.

Lemma slice_nonempty (s : string) (a b : nat) :
  a < b <= String.length s -> slice a b s <> EmptyString.
Proof.
  intros L E. apply (f_equal String.length) in E.
  unfold slice in E. rewrite substring_length in E by lia. simpl in E. lia.
Qed.

(** The version group of [rePgVersion] is never empty. *)
Lemma rePgVersion_group (s : string) (m : list string) :
  FindStringSubmatch rePgVersion s = Some m -> sub m 1 <> EmptyString.
Proof.
  unfold FindStringSubmatch, FindStringSubmatchIndex.
  destruct (search rePgVersion (runes s) 0 (-1)) as [loc|] eqn:R; [ | discriminate ].
  intros H. injection H as <-.
  apply search_sound in R as (start & cur' & c' & Re & S & ->).
  pose proof (reachable_inside _ _ _ Re (runes_inside s)) as I0.
  unfold rePgVersion in S. cbn [cat fold_right] in S.
  inversion S as [ | |? ? ? ? cur1 c1 ? ? S1 T1| | | | | | | | | | ]; subst.
  inversion T1 as [ | |? ? ? ? cur2 c2 ? ? S2 T2| | | | | | | | | | ]; subst.
  inversion T2 as [ | |? ? ? ? cur3 c3 ? ? S3 T3| | | | | | | | | | ]; subst.
  inversion T3 as [ | |? ? ? ? cur4 c4 ? ? S4 T4| | | | | | | | | | ]; subst.
  inversion T4; subst. inversion S4; subst.
  destruct (steps_inside _ _ _ _ _ _ S1 I0) as [I1 _].
  destruct (steps_inside _ _ _ _ _ _ S2 I1) as [I2 _].
  destruct (steps_inside _ _ _ _ _ _ S3 I2) as [I3 _].
  match goal with
  | P : steps (plus nonspace) _ _ _ _ |- _ =>
    destruct (steps_plus_advances _ _ _ _ _ _ _ P I3) as ((T & _) & L & _)
  end.
  change (ngroups (cat [lit "--"; ws0; lit "Dumped from database version ";
                        Cap 1 (plus nonspace)])) with 1.
  unfold submatches, sub. simpl nth. unfold group_text. simpl get_cap.
  apply slice_nonempty. lia.
Qed.

(** ** The segmenter, line by line *)

Lemma splitLine_skipped st l :
  skipped l = true ->
  results (splitLine st l) = results st
  /\ buf (splitLine st l) = buf st
  /\ inDollarQuote (splitLine st l) = inDollarQuote st
  /\ dollarTag (splitLine st l) = dollarTag st
  /\ curSearchPath (splitLine st l) = curSearchPath st.
Proof.
  unfold skipped, splitLine. intros S.
  destruct (HasPrefix (TrimSpace l) "--").
  - destruct (String.eqb (version st) EmptyString); [ | auto ].
    destruct (FindStringSubmatch rePgVersion (TrimSpace l)); simpl; auto.
  - simpl in S. rewrite S. auto.
Qed.

Lemma splitLine_kept st l :
  skipped l = false ->
  let stripped := TrimSpace l in
  let sp := trackSearchPath stripped (curSearchPath st) in
  let dq := trackDollarQuote stripped (inDollarQuote st) (dollarTag st) in
  splitLine st l
  = if negb (fst dq) && HasSuffix stripped ";"
    then mkSeg (results st ++ [mkStmt (Join (buf st ++ [l]) LF) sp])
               [] (fst dq) (snd dq) sp (version st)
    else mkSeg (results st) (buf st ++ [l]) (fst dq) (snd dq) sp (version st).
Proof.
  unfold skipped, splitLine. intros S.
  apply orb_false_iff in S as [S1 S2]. now rewrite S1, S2.
Qed.

(** *** C5: the version of the dump *)

Lemma splitLine_version st l :
  version (splitLine st l)
  = if String.eqb (version st) EmptyString
    then match versionOf l with Some v => v | None => version st end
    else version st.
Proof.
  unfold splitLine, versionOf.
  destruct (HasPrefix (TrimSpace l) "--").
  - destruct (String.eqb (version st) EmptyString); [ | reflexivity ].
    now destruct (FindStringSubmatch rePgVersion (TrimSpace l)).
  - destruct (String.eqb (TrimSpace l) EmptyString);
      [ now destruct (String.eqb (version st) EmptyString) | ].
    destruct (_ && _); simpl; now destruct (String.eqb (version st) EmptyString).
Qed.

Lemma versionOf_nonempty l v : versionOf l = Some v -> v <> EmptyString.
Proof.
  unfold versionOf. destruct (HasPrefix _ _); [ | discriminate ].
  destruct (FindStringSubmatch rePgVersion (TrimSpace l)) as [m|] eqn:F;
    [ | discriminate ].
  intros H. injection H as <-. eapply rePgVersion_group; eassumption.
Qed.

Lemma splitLines_version_fixed lines : forall st,
  version st <> EmptyString -> version (splitLines lines st) = version st.
Proof.
  induction lines as [|l ls IH]; intros st N; [ reflexivity | ].
  simpl. assert (E : version (splitLine st l) = version st).
  { rewrite splitLine_version. apply String.eqb_neq in N. now rewrite N. }
  rewrite IH; rewrite E; auto.
Qed.

Lemma splitLines_version_first pre : forall st l post v,
  version st = EmptyString ->
  Forall (fun p => versionOf p = None) pre ->
  versionOf l = Some v ->
  version (splitLines (pre ++ l :: post) st) = v.
Proof.
  induction pre as [|p ps IH]; intros st l post v E F V; simpl.
  - assert (E1 : version (splitLine st l) = v).
    { rewrite splitLine_version, E, V. reflexivity. }
    rewrite splitLines_version_fixed; rewrite E1; auto.
    eapply versionOf_nonempty; eassumption.
  - inversion F as [|? ? P F']; subst.
    apply IH; auto. rewrite splitLine_version, E, P. reflexivity.
Qed.

(** C5, as the code has it.  The first comment line on which the version
    pattern matches sets the version string of the model to the group of the
    pattern, the run of non-blank characters after the phrase, which is not
    empty; whatever lines follow leave it unchanged. *)
Theorem first_version_wins (text : string) (schema : ParsedSchema)
        (sp : string) (pre post : list string) (l v : string) :
  PgVersion schema = EmptyString ->
  Split text "010" = pre ++ l :: post ->
  Forall (fun p => versionOf p = None) pre ->
  versionOf l = Some v ->
  PgVersion (snd (splitStatements text schema sp)) = v /\ v <> EmptyString.
Proof.
  intros E S F V. split; [ | eapply versionOf_nonempty; eassumption ].
  unfold splitStatements. simpl. rewrite S.
  apply splitLines_version_first; assumption.
Qed.

Lemma first_version_wins_witness :
  PgVersion (snd (splitStatements header_dump emptySchema "public")) = "15.4"
  /\ "15.4" <> EmptyString.
Proof.
  apply (first_version_wins header_dump emptySchema "public"
           ["--"; "-- PostgreSQL database dump"]
           ["-- Dumped by pg_dump version 16.1";
            "-- Dumped from database version 9.9";
            "SET search_path = public;"]
           "-- Dumped from database version 15.4" "15.4").
  - reflexivity.
  - vm_compute. reflexivity.
  - repeat constructor.
  - vm_compute. reflexivity.
Defined.

(** C5 as claimed fails: the captured version is the first token after the
    phrase, not the rest of the line. *)
Lemma version_not_rest_of_line :
  packaged_header
  = ("-- Dumped from database version " ++ "14.9 (Ubuntu 14.9-0ubuntu0.22.04.1)")%string
  /\ PgVersion (snd (splitStatements packaged_header emptySchema "public")) = "14.9"
  /\ PgVersion (snd (splitStatements packaged_header emptySchema "public"))
     <> "14.9 (Ubuntu 14.9-0ubuntu0.22.04.1)".
Proof.
  split; [ reflexivity | ]. split; [ vm_compute; reflexivity | ].
  vm_compute. discriminate.
Qed.

(** *** C3: dollar-quoted bodies *)

Lemma splitLines_app (a b : list string) (st : segmenter) :
  splitLines (a ++ b) st = splitLines b (splitLines a st).
Proof. apply fold_left_app. Qed.

Lemma splitLines_cons (l : string) (ls : list string) (st : segmenter) :
  splitLines (l :: ls) st = splitLines ls (splitLine st l).
Proof. reflexivity. Qed.

(** The opening line enters the region and emits nothing. *)
Lemma splitLine_opens st l tag :
  inDollarQuote st = false -> opensRegion l tag ->
  results (splitLine st l) = results st
  /\ buf (splitLine st l) = buf st ++ [l]
  /\ inDollarQuote (splitLine st l) = true
  /\ dollarTag (splitLine st l) = tag.
Proof.
  intros I (K & T & C). rewrite (splitLine_kept st l K). cbv zeta.
  unfold trackDollarQuote. rewrite I. simpl negb. cbv iota.
  destruct (FindStringSubmatch reDollarQuote (TrimSpace l)) as [m|];
    [ | discriminate ].
  injection T as T. rewrite T, C. simpl. auto.
Qed.

(** Inside the region a line without the tag, or a skipped line, emits
    nothing and stays inside. *)
Lemma splitLine_inside st l tag :
  inDollarQuote st = true -> dollarTag st = tag ->
  skipped l || negb (Contains (TrimSpace l) tag) = true ->
  results (splitLine st l) = results st
  /\ buf (splitLine st l) = buf st ++ kept [l]
  /\ inDollarQuote (splitLine st l) = true
  /\ dollarTag (splitLine st l) = tag.
Proof.
  intros I T H. unfold kept. simpl filter.
  destruct (skipped l) eqn:K.
  - destruct (splitLine_skipped st l K) as (R & B & D & G & _).
    simpl. rewrite app_nil_r. rewrite R, B, D, G. auto.
  - simpl in H. apply negb_true_iff in H.
    rewrite (splitLine_kept st l K). cbv zeta.
    unfold trackDollarQuote. rewrite I, T, H. simpl. auto.
Qed.

Lemma splitLines_inside body : forall st tag,
  inDollarQuote st = true -> dollarTag st = tag ->
  forallb (fun l => skipped l || negb (Contains (TrimSpace l) tag)) body = true ->
  results (splitLines body st) = results st
  /\ buf (splitLines body st) = buf st ++ kept body
  /\ inDollarQuote (splitLines body st) = true
  /\ dollarTag (splitLines body st) = tag.
Proof.
  induction body as [|l ls IH]; intros st tag I T H.
  - simpl. rewrite app_nil_r. auto.
  - simpl in H. apply andb_true_iff in H as [H1 H2].
    destruct (splitLine_inside st l tag I T H1) as (R & B & D & G).
    destruct (IH (splitLine st l) tag D G H2) as (R' & B' & D' & G').
    simpl. rewrite R', B', R, B, <- app_assoc.
    repeat split; auto.
    unfold kept. simpl. destruct (negb (skipped l)); reflexivity.
Qed.

(** The closing line leaves the region; the statement ends there when the
    line ends with a semicolon. *)
Lemma splitLine_closes st l tag :
  inDollarQuote st = true -> dollarTag st = tag ->
  skipped l = false -> Contains (TrimSpace l) tag = true ->
  inDollarQuote (splitLine st l) = false
  /\ ((results (splitLine st l) = results st
       /\ buf (splitLine st l) = buf st ++ [l])
      \/ (exists sp, results (splitLine st l)
                     = results st ++ [mkStmt (Join (buf st ++ [l]) LF) sp])).
Proof.
  intros I T K C. rewrite (splitLine_kept st l K). cbv zeta.
  unfold trackDollarQuote. rewrite I, T, C. simpl.
  destruct (HasSuffix (TrimSpace l) ";"); simpl; eauto.
Qed.

(** The statements only grow. *)
Lemma splitLine_results st l :
  exists extra, results (splitLine st l) = results st ++ extra.
Proof.
  destruct (skipped l) eqn:K.
  - destruct (splitLine_skipped st l K) as (R & _). exists []. now rewrite app_nil_r.
  - rewrite (splitLine_kept st l K). cbv zeta.
    destruct (_ && _); simpl; [ eauto | exists []; now rewrite app_nil_r ].
Qed.

Lemma flush_splitLines_results lines : forall st,
  exists extra, flush (splitLines lines st) = results st ++ extra.
Proof.
  induction lines as [|l ls IH]; intros st.
  - unfold flush. simpl. destruct (0 <? _)%nat; [ eauto | ].
    exists []. now rewrite app_nil_r.
  - simpl. destruct (IH (splitLine st l)) as (e1 & E1).
    destruct (splitLine_results st l) as (e2 & E2).
    exists (e2 ++ e1). now rewrite E1, E2, app_assoc.
Qed.

(** A buffer that is not empty comes out at the head of the next statement. *)
Lemma pending_emitted lines : forall st,
  buf st <> [] ->
  exists more sp later,
    flush (splitLines lines st)
    = results st ++ mkStmt (Join (buf st ++ more) LF) sp :: later.
Proof.
  induction lines as [|l ls IH]; intros st N.
  - unfold flush. simpl. destruct (buf st) as [|b bs] eqn:B; [ congruence | ].
    simpl. exists [], (curSearchPath st), []. now rewrite app_nil_r.
  - simpl. destruct (skipped l) eqn:K.
    + destruct (splitLine_skipped st l K) as (R & B & _).
      destruct (IH (splitLine st l)) as (more & sp & later & E);
        [ now rewrite B | ].
      rewrite R, B in E. eauto.
    + pose proof (splitLine_kept st l K) as E. cbv zeta in E.
      destruct (_ && _).
      * destruct (flush_splitLines_results ls (splitLine st l)) as (extra & X).
        rewrite X, E. simpl. rewrite <- app_assoc. simpl. eauto.
      * destruct (IH (splitLine st l)) as (more & sp & later & X).
        { rewrite E. simpl. now destruct (buf st). }
        rewrite X, E. simpl. rewrite <- app_assoc. simpl. eauto.
Qed.

(** C3, as the code has it.  Where the segmenter, outside any region,
    meets a line whose first dollar token does not come again on the line,
    then lines that do not hold the tag, then a line that does, it emits no
    statement before the closing line: the statements emitted so far are
    followed by one statement that holds what the buffer held and every line
    of the body that is neither blank nor a comment, in order, whatever
    semicolons they carry. *)
Theorem dollar_body_one_statement (text : string) (schema : ParsedSchema)
        (sp : string) (pre body post : list string) (open close tag : string) :
  Split text "010" = pre ++ open :: body ++ close :: post ->
  let st0 := splitLines pre (mkSeg [] [] false EmptyString sp (PgVersion schema)) in
  inDollarQuote st0 = false ->
  opensRegion open tag ->
  forallb (fun l => skipped l || negb (Contains (TrimSpace l) tag)) body = true ->
  skipped close = false ->
  Contains (TrimSpace close) tag = true ->
  exists more sp' later,
    fst (splitStatements text schema sp)
    = results st0
      ++ mkStmt (Join (buf st0 ++ open :: kept body ++ close :: more) LF) sp'
      :: later.
Proof.
  intros S st0 I O B K C. unfold splitStatements. simpl fst. rewrite S.
  rewrite splitLines_app. fold st0. rewrite splitLines_cons, splitLines_app,
    splitLines_cons.
  destruct (splitLine_opens st0 open tag I O) as (R1 & B1 & D1 & T1).
  destruct (splitLines_inside body (splitLine st0 open) tag D1 T1 B)
    as (R2 & B2 & D2 & T2).
  set (st2 := splitLines body (splitLine st0 open)) in *.
  destruct (splitLine_closes st2 close tag D2 T2 K C) as (D3 & [[R3 B3] | [sp3 R3]]).
  - destruct (pending_emitted post (splitLine st2 close)) as (more & sp' & later & E).
    { rewrite B3. now destruct (buf st2). }
    exists more, sp', later. rewrite E, R3, B3, R2, B2, R1, B1.
    repeat (rewrite <- app_assoc; simpl). reflexivity.
  - destruct (flush_splitLines_results post (splitLine st2 close)) as (extra & E).
    exists [], sp3, extra. rewrite E, R3, R2, B2, R1, B1.
    repeat (rewrite <- app_assoc; simpl). reflexivity.
Qed.

Lemma dollar_body_one_statement_witness :
  exists more sp' later,
    fst (splitStatements function_dump emptySchema "public")
    = results fn_st0
      ++ mkStmt (Join (buf fn_st0 ++ fn_open :: kept fn_body ++ fn_close :: more)
                      LF) sp'
      :: later.
Proof.
  apply (dollar_body_one_statement function_dump emptySchema "public"
           fn_pre fn_body fn_post fn_open fn_close "$$").
  - vm_compute. reflexivity.
  - vm_compute. reflexivity.
  - split; [ vm_compute; reflexivity | ].
    split; vm_compute; reflexivity.
  - vm_compute. reflexivity.
  - vm_compute. reflexivity.
  - vm_compute. reflexivity.
Defined.

(** C3 as claimed fails: the function is one statement, but the comment
    line of its body (a line of the region that opens with the tag on
    [fn_open] and closes on [fn_close]) is in no statement at all. *)
Lemma dollar_body_comment_line_dropped :
  Split function_dump "010" = fn_pre ++ fn_open :: fn_body ++ fn_close :: fn_post
  /\ opensRegion fn_open "$$"
  /\ Contains (TrimSpace fn_close) "$$" = true
  /\ In fn_comment fn_body
  /\ List.length (fst (splitStatements function_dump emptySchema "public")) = 3
  /\ forallb (fun s => negb (existsb (String.eqb fn_comment)
                                     (Split (stmt s) "010")))
             (fst (splitStatements function_dump emptySchema "public")) = true.
Proof.
  split; [ vm_compute; reflexivity | ].
  split; [ split; [ vm_compute; reflexivity | split; vm_compute; reflexivity ] | ].
  split; [ vm_compute; reflexivity | ].
  split; [ right; left; reflexivity | ].
  split; vm_compute; reflexivity.
Qed.

(** Only the first dollar token of a line is looked at.  Where a line holds
    a dollar-quoted text that closes on the line and then the tag that opens
    the body, the region is not entered and the semicolon of the first body
    line ends the statement. *)
Lemma later_dollar_token_not_seen :
  fst (splitStatements default_fn_dump emptySchema "public")
  = [mkStmt ("CREATE FUNCTION public.g(t text DEFAULT $d$none$d$) RETURNS text LANGUAGE sql AS $$"
             ++ LF ++ "  SELECT t;") "public";
     mkStmt "$$;" "public"].
Proof. vm_compute. reflexivity. Qed.

(** ** C4: the columns of a table *)

Lemma parseColumn_columnName line name :
  columnName line = Some name ->
  exists c, parseColumn line = Some (Some c) /\ ColumnDef.Name c = name.
Proof.
  unfold columnName, parseColumn. cbv zeta.
  destruct (_ || _); [ discriminate | ].
  destruct (MatchString reTableConstraintKw _); [ discriminate | ].
  destruct (FindStringSubmatch reColumnLine _) as [m|]; [ | discriminate ].
  destruct (unquote (sub m 1)) as [nm|]; [ | discriminate ].
  destruct (constraintKeyword (ToUpper nm)); [ discriminate | ].
  intros H. injection H as <-. eexists. split; reflexivity.
Qed.

Lemma parseTableBody_loop_columns parts : forall tbl sp schema names,
  map columnPart parts = map Some names ->
  exists cols,
    parseTableBody_loop parts tbl sp schema
    = Some (TableDef.with_Columns (TableDef.Columns tbl ++ cols) tbl, schema)
    /\ map ColumnDef.Name cols = names.
Proof.
  induction parts as [|part more IH]; intros tbl sp schema names H.
  - destruct names; [ | discriminate ]. exists []. simpl.
    rewrite app_nil_r, with_Columns_same. auto.
  - destruct names as [|name names]; [ discriminate | ].
    simpl in H. injection H as P H.
    unfold columnPart in P. cbv zeta in P. simpl parseTableBody_loop.
    destruct (String.eqb (TrimSpace part) EmptyString); [ discriminate | ].
    destruct (MatchString reTableConstraintKw (TrimSpace part)); [ discriminate | ].
    simpl in P. apply parseColumn_columnName in P as (c & -> & N).
    destruct (IH (TableDef.with_Columns (TableDef.Columns tbl ++ [c]) tbl)
                 sp schema names H) as (cols & -> & M).
    exists (c :: cols). split; [ | simpl; congruence ].
    destruct tbl. unfold TableDef.with_Columns. simpl.
    now rewrite <- app_assoc.
Qed.




(** ** Strings: one-byte needles *)

Lemma HasPrefix_nil (s : string) : HasPrefix s EmptyString = true.
Proof. destruct s; reflexivity. Qed.

Lemma HasPrefix_cons (a b : ascii) (s p : string) :
  HasPrefix (String b s) (String a p) = Ascii.eqb a b && HasPrefix s p.
Proof. reflexivity. Qed.

Lemma HasPrefix_char (c : ascii) (s : string) :
  HasPrefix s (String c EmptyString) = true ->
  exists t, s = String c t.
Proof.
  destruct s as [|b t]; [ discriminate | ].
  rewrite HasPrefix_cons, HasPrefix_nil, andb_true_r.
  intros E. apply Ascii.eqb_eq in E. subst. now exists t.
Qed.

Lemma Index_char_cons (c x : ascii) (t : string) :
  Index (String x t) (String c EmptyString)
  = if Ascii.eqb c x then Some 0 else option_map S (Index t (String c EmptyString)).
Proof.
  change (Index (String x t) (String c EmptyString))
    with (if HasPrefix (String x t) (String c EmptyString) then Some 0
          else option_map S (Index t (String c EmptyString))).
  rewrite HasPrefix_cons, HasPrefix_nil, andb_true_r. reflexivity.
Qed.

Lemma Index_char_nil (c : ascii) : Index EmptyString (String c EmptyString) = None.
Proof. reflexivity. Qed.

(** The first occurrence of a byte splits the string around it. *)
Lemma Index_char_some (c : ascii) (s : string) : forall i,
  Index s (String c EmptyString) = Some i ->
  s = (slice 0 i s ++ String c (from (i + 1) s))%string
  /\ Index (slice 0 i s) (String c EmptyString) = None.
Proof.
  induction s as [|x t IH]; intros i H.
  - discriminate.
  - rewrite Index_char_cons in H. destruct (Ascii.eqb c x) eqn:E.
    + injection H as <-. apply Ascii.eqb_eq in E. subst x.
      unfold slice. simpl. split; reflexivity.
    + destruct (Index t (String c EmptyString)) as [j|] eqn:J; [ | discriminate ].
      injection H as <-. destruct (IH j eq_refl) as [E1 E2].
      unfold slice in *. rewrite Nat.sub_0_r in *.
      change (substring 0 (S j) (String x t)) with (String x (substring 0 j t)).
      change (from (S j + 1) (String x t)) with (from (j + 1) t).
      split.
      * simpl. f_equal. exact E1.
      * rewrite Index_char_cons, E, E2. reflexivity.
Qed.

Lemma Index_char_app_none (c : ascii) (a b : string) :
  Index (a ++ b) (String c EmptyString) = None ->
  Index a (String c EmptyString) = None /\ Index b (String c EmptyString) = None.
Proof.
  induction a as [|x t IH]; simpl append; intros H.
  - split; [ reflexivity | exact H ].
  - rewrite Index_char_cons in *. destruct (Ascii.eqb c x); [ discriminate | ].
    destruct (Index (t ++ b) _) eqn:J; [ discriminate | ].
    destruct (IH eq_refl) as [A B]. rewrite A. split; [ reflexivity | exact B ].
Qed.

Lemma Index_char_cons_none (c x : ascii) (t : string) :
  Index (String x t) (String c EmptyString) = None ->
  Index t (String c EmptyString) = None.
Proof.
  rewrite Index_char_cons. destruct (Ascii.eqb c x); [ discriminate | ].
  destruct (Index t _); [ discriminate | reflexivity ].
Qed.

Lemma Contains_false (s sub : string) :
  Contains s sub = false <-> Index s sub = None.
Proof. unfold Contains. destruct (Index s sub); split; congruence. Qed.

(** An identifier without a double quote comes back as it is. *)
Lemma unquote_plain (s : string) :
  Index s dquote = None -> unquote s = Some s.
Proof.
  intros H. unfold unquote.
  destruct (HasPrefix s dquote) eqn:P; [ | reflexivity ].
  apply HasPrefix_char in P as [t ->].
  unfold dquote in H. rewrite Index_char_cons, Ascii.eqb_refl in H. discriminate.
Qed.

(** X1.  [splitQualified] on a name without double quotes does not panic and
    loses nothing: a name without a dot comes back under the default schema,
    and a name with a dot is cut at its first dot, so that schema, dot and
    name give the input back and the schema holds no dot. *)
Theorem splitQualified_rejoin (name defaultSchema : string) :
  Contains name dquote = false ->
  match Index name "." with
  | None => splitQualified name defaultSchema = Some (defaultSchema, name)
  | Some _ =>
    exists s n,
      splitQualified name defaultSchema = Some (s, n)
      /\ name = (s ++ "." ++ n)%string
      /\ Contains s "." = false
  end.
Proof.
  intros Q. apply Contains_false in Q. unfold splitQualified.
  destruct (Index name ".") as [i|] eqn:I.
  - destruct (Index_char_some _ _ _ I) as [E N].
    exists (slice 0 i name), (from (i + 1) name).
    rewrite E in Q. unfold dquote in Q.
    apply Index_char_app_none in Q as [Qa Qb].
    apply Index_char_cons_none in Qb.
    rewrite (unquote_plain _ Qa), (unquote_plain _ Qb).
    split; [ reflexivity | ]. split; [ exact E | ].
    now apply Contains_false.
  - now rewrite (unquote_plain _ Q).
Qed.

Lemma splitQualified_rejoin_witness :
  exists s n,
    splitQualified "public.orders" "app" = Some (s, n)
    /\ "public.orders" = (s ++ "." ++ n)%string
    /\ Contains s "." = false.
Proof.
  apply (splitQualified_rejoin "public.orders" "app"). reflexivity.
Defined.

(** ** Decoding next to an ASCII byte *)

Lemma between_ascii (lo hi : Z) (c : ascii) :
  (0x80 <= lo)%Z -> (byte_val c < 0x80)%Z -> between lo hi c = false.
Proof.
  intros L C. unfold between. apply andb_false_iff. left.
  apply Z.leb_gt. lia.
Qed.

Lemma cont_ascii (c : ascii) : (byte_val c < 0x80)%Z -> cont c = false.
Proof. intros C. apply between_ascii; [ lia | exact C ]. Qed.

Lemma accept_lo_ge (b0 : Z) : (0x80 <= accept_lo b0)%Z.
Proof.
  unfold accept_lo. destruct (b0 =? 0xE0)%Z; [ lia | ].
  destruct (b0 =? 0xF0)%Z; lia.
Qed.

(** An ASCII byte after [s] takes no part in the first rune of [s]. *)
Lemma decode_app_ascii (a : ascii) (s : string) (c : ascii) (t : string) :
  (byte_val c < 0x80)%Z ->
  DecodeRuneInString (String a s ++ String c t)
  = DecodeRuneInString (String a s).
Proof.
  intros C.
  pose proof (cont_ascii c C) as NC.
  pose proof (between_ascii (accept_lo (byte_val a)) (accept_hi (byte_val a)) c
                            (accept_lo_ge _) C) as NB.
  unfold DecodeRuneInString. simpl append. cbv beta iota zeta.
  destruct (byte_val a <? 0x80)%Z; [ reflexivity | ].
  destruct ((0xC2 <=? byte_val a) && (byte_val a <=? 0xDF))%Z.
  { destruct s as [|c1 s1]; simpl append; cbv beta iota;
      [ now rewrite NC | reflexivity ]. }
  destruct ((0xE0 <=? byte_val a) && (byte_val a <=? 0xEF))%Z.
  { destruct s as [|c1 [|c2 s2]]; simpl append; cbv beta iota.
    - destruct t; [ reflexivity | now rewrite NB ].
    - now rewrite NC, andb_false_r.
    - reflexivity. }
  destruct ((0xF0 <=? byte_val a) && (byte_val a <=? 0xF4))%Z; [ | reflexivity ].
  destruct s as [|c1 [|c2 [|c3 s3]]]; simpl append; cbv beta iota.
  - destruct t as [|x [|y t']]; [ reflexivity | reflexivity | now rewrite NB ].
  - destruct t; [ reflexivity | now rewrite NC, andb_false_r ].
  - now rewrite NC, andb_false_r.
  - reflexivity.
Qed.

(** The runes of a text that goes on with an ASCII byte are the runes before
    the byte and the runes from the byte on. *)
Lemma runes_from_app_ascii (c : ascii) (t : string) (s : string) : forall skip,
  (byte_val c < 0x80)%Z ->
  skip <= String.length s ->
  runes_from skip (s ++ String c t)
  = runes_from skip s ++ runes (String c t).
Proof.
  induction s as [|a s IH]; intros skip C L.
  - simpl in L. assert (skip = 0) by lia. subst. reflexivity.
  - destruct skip as [|k].
    + change (String a s ++ String c t)%string
        with (String a (s ++ String c t)).
      rewrite !runes_from_0.
      change (String a (s ++ String c t))
        with (String a s ++ String c t)%string.
      rewrite decode_app_ascii by exact C.
      pose proof (decode_width a s) as W.
      simpl. f_equal. apply IH; [ exact C | simpl in W; lia ].
    + change (String a s ++ String c t)%string
        with (String a (s ++ String c t)).
      rewrite !runes_from_S. apply IH; [ exact C | simpl in L; lia ].
Qed.

Lemma runes_app_ascii (s : string) (c : ascii) (t : string) :
  (byte_val c < 0x80)%Z ->
  runes (s ++ String c t) = runes s ++ runes (String c t).
Proof. intros C. apply runes_from_app_ascii; [ exact C | lia ]. Qed.

Lemma runes_ascii_cons (c : ascii) (t : string) :
  (byte_val c < 0x80)%Z ->
  runes (String c t) = (byte_val c, 1) :: runes t.
Proof.
  intros C. unfold runes. rewrite runes_from_0.
  unfold DecodeRuneInString.
  apply Z.ltb_lt in C. rewrite C. reflexivity.
Qed.

Lemma total_runes (s : string) : total (runes s) = String.length s.
Proof.
  destruct (runes_from_inside s 0) as [T _]; [ lia | ].
  unfold runes. lia.
Qed.

Lemma total_app (a b : list (Z * nat)) : total (a ++ b) = total a + total b.
Proof.
  induction a as [|[r w] a IH]; simpl; [ reflexivity | rewrite IH; lia ].
Qed.

(** ** [extractParenContent] *)

Lemma extractParenContent_loop_skip (text : string) (rs1 rs2 : list (Z * nat)) :
  forall i depth start,
  parenFree rs1 = true ->
  extractParenContent_loop text (rs1 ++ rs2) i depth start
  = extractParenContent_loop text rs2 (i + total rs1) depth start.
Proof.
  induction rs1 as [|[ch w] rs1 IH]; intros i depth start F.
  - simpl. f_equal. lia.
  - simpl in F. apply andb_true_iff in F as [F1 F].
    apply andb_true_iff in F1 as [N1 N2]. simpl in N1, N2.
    apply negb_true_iff in N1, N2.
    simpl. rewrite N1, N2, IH by exact F. f_equal. lia.
Qed.

Lemma extractParenContent_loop_nested (text : string) (rs1 rs2 : list (Z * nat)) :
  forall i depth depth' start,
  (0 <= depth)%Z ->
  closes rs1 depth = Some depth' ->
  extractParenContent_loop text (rs1 ++ rs2) i (depth + 1) start
  = extractParenContent_loop text rs2 (i + total rs1) (depth' + 1) start
  /\ (0 <= depth')%Z.
Proof.
  induction rs1 as [|[ch w] rs1 IH]; intros i depth depth' start D H.
  - simpl in *. injection H as <-. split; [ f_equal; lia | exact D ].
  - simpl in H. simpl extractParenContent_loop. simpl total.
    destruct (ch =? 0x28)%Z.
    + replace (depth + 1 =? 0)%Z with false by (symmetry; apply Z.eqb_neq; lia).
      destruct (IH (i + w) (depth + 1)%Z depth' start) as [E P];
        [ lia | exact H | ].
      rewrite E. split; [ f_equal; lia | exact P ].
    + destruct (ch =? 0x29)%Z.
      * destruct (0 <? depth)%Z eqn:G; [ | discriminate ].
        apply Z.ltb_lt in G.
        replace (depth + 1 - 1 =? 0)%Z with false
          by (symmetry; apply Z.eqb_neq; lia).
        simpl andb.
        destruct (IH (i + w) (depth - 1)%Z depth' start) as [E P];
          [ lia | exact H | ].
        replace (depth + 1 - 1)%Z with (depth - 1 + 1)%Z by lia.
        rewrite E. split; [ f_equal; lia | exact P ].
      * destruct (IH (i + w) depth depth' start) as [E P];
          [ lia | exact H | ].
        rewrite E. split; [ f_equal; lia | exact P ].
Qed.

Lemma slice_middle (a b c : string) :
  slice (String.length a) (String.length a + String.length b) (a ++ b ++ c) = b.
Proof.
  unfold slice. replace (String.length a + String.length b - String.length a)
    with (String.length b) by lia.
  induction a as [|x a IH]; simpl.
  - induction b as [|y b IHb]; simpl.
    + destruct c; reflexivity.
    + f_equal. exact IHb.
  - exact IH.
Qed.

(** X2.  [extractParenContent] returns the content of the first parentheses
    when that content is balanced: for a text made of a part without
    parentheses, an opening parenthesis, a balanced content, a closing
    parenthesis and whatever follows, the result is the content. *)
Theorem extractParenContent_balanced (pre inner post : string) :
  parenFree (runes pre) = true ->
  balanced inner ->
  extractParenContent (pre ++ "(" ++ inner ++ ")" ++ post) = inner.
Proof.
  intros F B. unfold extractParenContent.
  set (text := (pre ++ "(" ++ inner ++ ")" ++ post)%string).
  assert (R : runes text
              = runes pre ++ (0x28%Z, 1) :: runes inner ++ (0x29%Z, 1) :: runes post).
  { unfold text.
    change ("(" ++ inner ++ ")" ++ post)%string
      with (String "(" (inner ++ String ")" post)).
    rewrite runes_app_ascii by (vm_compute; reflexivity).
    rewrite runes_ascii_cons by (vm_compute; reflexivity).
    rewrite runes_app_ascii by (vm_compute; reflexivity).
    rewrite runes_ascii_cons by (vm_compute; reflexivity).
    reflexivity. }
  rewrite R.
  rewrite extractParenContent_loop_skip by exact F.
  rewrite total_runes.
  change (extractParenContent_loop text
            ((40%Z, 1) :: runes inner ++ (41%Z, 1) :: runes post)
            (0 + String.length pre) 0 (-1))
    with (extractParenContent_loop text
            (runes inner ++ (41%Z, 1) :: runes post)
            (0 + String.length pre + 1) (0 + 1)
            (Z.of_nat (0 + String.length pre) + 1)).
  destruct (extractParenContent_loop_nested text (runes inner)
              ((41%Z, 1) :: runes post) (0 + String.length pre + 1) 0 0
              (Z.of_nat (0 + String.length pre) + 1)) as [E _];
    [ lia | exact B | ].
  rewrite E, total_runes.
  change (extractParenContent_loop text ((41%Z, 1) :: runes post)
            (0 + String.length pre + 1 + String.length inner) (0 + 1)
            (Z.of_nat (0 + String.length pre) + 1))
    with (if ((0 + 1 - 1 =? 0) && (0 <=? Z.of_nat (0 + String.length pre) + 1))%Z
          then slice (Z.to_nat (Z.of_nat (0 + String.length pre) + 1))
                     (0 + String.length pre + 1 + String.length inner) text
          else extractParenContent_loop text (runes post)
                 (0 + String.length pre + 1 + String.length inner + 1)
                 (0 + 1 - 1) (Z.of_nat (0 + String.length pre) + 1)).
  replace (0 <=? Z.of_nat (0 + String.length pre) + 1)%Z with true
    by (symmetry; apply Z.leb_le; lia).
  simpl andb. cbv iota.
  replace (Z.to_nat (Z.of_nat (0 + String.length pre) + 1))
    with (String.length (pre ++ "(")) by (rewrite length_append; simpl; lia).
  replace (0 + String.length pre + 1 + String.length inner)
    with (String.length (pre ++ "(") + String.length inner)
    by (rewrite length_append; simpl; lia).
  unfold text.
  replace (pre ++ "(" ++ inner ++ ")" ++ post)%string
    with ((pre ++ "(") ++ inner ++ ")" ++ post)%string
    by (rewrite append_assoc; reflexivity).
  apply slice_middle.
Qed.

Lemma extractParenContent_balanced_witness :
  extractParenContent
    ("CREATE TABLE t " ++ "(" ++ "amount numeric(10,2), n int" ++ ")" ++ ";")
  = "amount numeric(10,2), n int".
Proof.
  apply (extractParenContent_balanced "CREATE TABLE t "
           "amount numeric(10,2), n int" ";").
  - reflexivity.
  - reflexivity.
Defined.

(** ** What a statement of each kind writes *)

Lemma with_Extensions_nil schema :
  with_Extensions (Extensions schema ++ []) schema = schema.
Proof. destruct schema; unfold with_Extensions; simpl; now rewrite app_nil_r. Qed.
Lemma with_EnumTypes_nil schema :
  with_EnumTypes (EnumTypes schema ++ []) schema = schema.
Proof. destruct schema; unfold with_EnumTypes; simpl; now rewrite app_nil_r. Qed.
Lemma with_Sequences_nil schema :
  with_Sequences (Sequences schema ++ []) schema = schema.
Proof. destruct schema; unfold with_Sequences; simpl; now rewrite app_nil_r. Qed.
Lemma with_Indexes_nil schema :
  with_Indexes (Indexes schema ++ []) schema = schema.
Proof. destruct schema; unfold with_Indexes; simpl; now rewrite app_nil_r. Qed.
Lemma with_Rules_nil schema :
  with_Rules (Rules schema ++ []) schema = schema.
Proof. destruct schema; unfold with_Rules; simpl; now rewrite app_nil_r. Qed.
Lemma with_Tables_nil schema :
  with_Tables (Tables schema ++ []) schema = schema.
Proof. destruct schema; unfold with_Tables; simpl; now rewrite app_nil_r. Qed.

Ltac appended_or_not :=
  first [ exists []; split; [ simpl; lia | symmetry;
            first [ apply with_Extensions_nil | apply with_EnumTypes_nil
                  | apply with_Sequences_nil | apply with_Indexes_nil
                  | apply with_Rules_nil | apply with_Constraints_same ] ]
        | eexists; split; cycle 1; [ reflexivity | simpl; lia ] ].

Lemma oneChanged_same {A : Type} (R : A -> A -> Prop) (l : list A) :
  oneChanged R l l.
Proof. now left. Qed.

Lemma oneChanged_cons {A : Type} (R : A -> A -> Prop) (x : A) (l l' : list A) :
  oneChanged R l l' -> oneChanged R (x :: l) (x :: l').
Proof.
  intros [-> | (pre & y & y' & post & -> & -> & H)]; [ now left | ].
  right. exists (x :: pre), y, y', post. auto.
Qed.

Lemma oneChanged_head {A : Type} (R : A -> A -> Prop) (x x' : A) (l : list A) :
  R x x' -> oneChanged R (x :: l) (x' :: l).
Proof. intros H. right. exists [], x, x', l. auto. Qed.

Lemma oneChanged_map {A B : Type} (R : A -> A -> Prop) (f : A -> B)
      (l l' : list A) :
  (forall x x', R x x' -> f x' = f x) ->
  oneChanged R l l' -> map f l' = map f l.
Proof.
  intros K [-> | (pre & y & y' & post & -> & -> & H)]; [ reflexivity | ].
  rewrite !map_app. simpl. now rewrite (K _ _ H).
Qed.

Lemma updateAt_oneChanged {A : Type} (f : A -> A) (l : list A) : forall i,
  oneChanged (fun x x' => x' = f x) l (updateAt i f l).
Proof.
  induction l as [|x l IH]; intros [|i]; simpl; try apply oneChanged_same.
  - now apply oneChanged_head.
  - apply oneChanged_cons, IH.
Qed.

Lemma updateFirstColumn_oneChanged upd col cols :
  oneChanged (fun c c' => c' = upd c) cols (updateFirstColumn upd col cols).
Proof.
  induction cols as [|c cols IH]; simpl; [ apply oneChanged_same | ].
  destruct (String.eqb _ _); [ now apply oneChanged_head | ].
  apply oneChanged_cons, IH.
Qed.

Lemma oneChanged_impl {A : Type} (R R' : A -> A -> Prop) (l l' : list A) :
  (forall x x', R x x' -> R' x x') -> oneChanged R l l' -> oneChanged R' l l'.
Proof.
  intros K [-> | (pre & y & y' & post & -> & -> & H)]; [ now left | ].
  right. exists pre, y, y', post. auto.
Qed.

Lemma backfillColumn_writes upd s n col schema :
  exists ts, backfillColumn upd s n col schema = with_Tables ts schema
             /\ oneChanged (backfilled (fun c c' => c' = upd c))
                           (Tables schema) ts.
Proof.
  unfold backfillColumn.
  destruct (negb (excludedSchemas s));
    [ | exists (Tables schema); split;
        [ symmetry; apply with_Tables_same | apply oneChanged_same ] ].
  destruct (GetTable schema s n) as [i|];
    [ | exists (Tables schema); split;
        [ symmetry; apply with_Tables_same | apply oneChanged_same ] ].
  eexists. split; [ reflexivity | ].
  eapply oneChanged_impl; [ | apply updateAt_oneChanged ].
  intros t t' ->. eexists. split; [ reflexivity | ].
  apply updateFirstColumn_oneChanged.
Qed.

Lemma backfilled_key R t t' : backfilled R t t' -> tableKey t' = tableKey t.
Proof. intros (cols & -> & _). reflexivity. Qed.

Lemma updateFirstSequence_oneChanged seqS seqN owner col seqs :
  oneChanged (fun q q' => q' = SequenceDef.with_OwnedBy owner col q)
             seqs (updateFirstSequence seqS seqN owner col seqs).
Proof.
  induction seqs as [|q seqs IH]; simpl; [ apply oneChanged_same | ].
  destruct (_ && _); [ now apply oneChanged_head | ].
  apply oneChanged_cons, IH.
Qed.

Lemma updateFirstSequence_keys seqS seqN owner col seqs :
  map sequenceKey (updateFirstSequence seqS seqN owner col seqs)
  = map sequenceKey seqs.
Proof.
  induction seqs as [|q seqs IH]; simpl; [ reflexivity | ].
  destruct (_ && _); simpl; [ reflexivity | now rewrite IH ].
Qed.

(** The extractor of each kind of statement writes to its own collection. *)
Lemma dispatch_writes sh stmt sp schema schema' :
  match sh with
  | CreateExtension loc => doCreateExtension stmt schema loc
  | CreateTypeEnum loc => doCreateTypeEnum stmt sp schema loc
  | CreateSequence loc => doCreateSequence stmt sp schema loc
  | CreateTable loc => doCreateTable stmt sp schema loc
  | AlterAddConstraint loc => doAlterAddConstraint stmt sp schema loc
  | CreateIndex loc => doCreateIndex stmt sp schema loc
  | AlterSetDefault loc => doAlterSetDefault stmt sp schema loc
  | AlterAddIdentity loc => doAlterAddIdentity stmt sp schema loc
  | AlterSeqOwned loc => doAlterSeqOwned stmt sp schema loc
  | CreateRule loc => doCreateRule stmt sp schema loc
  | NoShape => Some schema
  end = Some schema' ->
  writes sh schema schema'.
Proof.
  destruct sh; simpl; intros H.
  - unfold doCreateExtension in H. panic_cases H; subst schema'; appended_or_not.
  - unfold doCreateTypeEnum in H. panic_cases H; subst schema'; appended_or_not.
  - unfold doCreateSequence in H. panic_cases H; subst schema'; appended_or_not.
  - apply doCreateTable_effect in H as [[-> _] | (tbl & cs & -> & _)].
    + now left.
    + right. now exists tbl, cs.
  - unfold doAlterAddConstraint in H.
    destruct (splitQualified _ _) as [sn|]; [ | discriminate ].
    destruct (excludedSchemas (fst sn)).
    + injection H as <-. appended_or_not.
    + panic_cases H; subst schema'; appended_or_not.
  - unfold doCreateIndex in H.
    destruct (unquote _); [ | discriminate ].
    destruct (splitQualified _ _) as [sn|]; [ | discriminate ].
    destruct (excludedSchemas (fst sn)).
    + injection H as <-. appended_or_not.
    + panic_cases H; subst schema'; appended_or_not.
  - unfold doAlterSetDefault in H. panic_cases H; subst schema'.
    destruct (backfillColumn_writes
                (ColumnDef.with_DefaultExpr (TrimSpace (sub (submatches reAlterSetDefault stmt loc) 3)))
                (fst p) (snd p) s schema) as (ts & -> & O).
    exists ts. split; [ reflexivity | ].
    eapply oneChanged_impl; [ | exact O ].
    intros t t' (cols & -> & C). exists cols. split; [ reflexivity | ].
    eapply oneChanged_impl; [ | exact C ]. intros c c' ->. now eexists.
  - unfold doAlterAddIdentity in H. panic_cases H; subst schema'.
    destruct (backfillColumn_writes
                (ColumnDef.with_Identity
                   (ToUpper (ReplaceAll (sub (submatches reAlterAddIdentity stmt loc) 3) "  " " ")))
                (fst p) (snd p) s schema) as (ts & -> & O).
    exists ts. split; [ reflexivity | ].
    eapply oneChanged_impl; [ | exact O ].
    intros t t' (cols & -> & C). exists cols. split; [ reflexivity | ].
    eapply oneChanged_impl; [ | exact C ]. intros c c' ->. now eexists.
  - unfold doAlterSeqOwned in H. panic_cases H; subst schema'.
    eexists. split; [ reflexivity | ].
    eapply oneChanged_impl; [ | apply updateFirstSequence_oneChanged ].
    intros q q' ->. now eexists _, _.
  - unfold doCreateRule in H. panic_cases H; subst schema'; appended_or_not.
  - now injection H as <-.
Qed.



(** ** The model only grows *)

Lemma extends_refl {A : Type} (l : list A) : extends l l.
Proof. exists []. now rewrite app_nil_r. Qed.

Lemma extends_app {A : Type} (l more : list A) : extends l (l ++ more).
Proof. now exists more. Qed.

Lemma extends_trans {A : Type} (a b c : list A) :
  extends a b -> extends b c -> extends a c.
Proof. intros [x ->] [y ->]. exists (x ++ y). now rewrite app_assoc. Qed.

Lemma extends_eq {A : Type} (a b : list A) : b = a -> extends a b.
Proof. intros ->. apply extends_refl. Qed.

Lemma extends_map_app {A B : Type} (f : A -> B) (l more : list A) :
  extends (map f l) (map f (l ++ more)).
Proof. exists (map f more). apply map_app. Qed.

Lemma grows_refl schema : grows schema schema.
Proof. repeat split; apply extends_refl. Qed.

Lemma grows_trans a b c : grows a b -> grows b c -> grows a c.
Proof.
  intros (T1 & C1 & I1 & Q1 & E1 & N1 & R1 & V1) (T2 & C2 & I2 & Q2 & E2 & N2 & R2 & V2).
  repeat split; try (eapply extends_trans; eassumption). congruence.
Qed.

Ltac grows_fields :=
  unfold grows; simpl;
  repeat match goal with
         | |- _ /\ _ => split
         | |- _ = _ => first [ reflexivity | assumption ]
         | |- extends _ _ =>
           first [ apply extends_refl | apply extends_app
                 | apply extends_map_app | apply extends_eq; assumption ]
         end.

Lemma writes_grows sh schema schema' : writes sh schema schema' -> grows schema schema'.
Proof.
  destruct sh; simpl.
  - intros (es & _ & ->). grows_fields.
  - intros (es & _ & ->). grows_fields.
  - intros (es & _ & ->). grows_fields.
  - intros [-> | (tbl & cs & ->)]; [ apply grows_refl | grows_fields ].
  - intros (es & _ & ->). grows_fields.
  - intros (es & _ & ->). grows_fields.
  - intros (ts & -> & O).
    assert (K : map tableKey ts = map tableKey (Tables schema))
      by (eapply oneChanged_map; [ apply backfilled_key | exact O ]).
    grows_fields.
  - intros (ts & -> & O).
    assert (K : map tableKey ts = map tableKey (Tables schema))
      by (eapply oneChanged_map; [ apply backfilled_key | exact O ]).
    grows_fields.
  - intros (qs & -> & O).
    assert (K : map sequenceKey qs = map sequenceKey (Sequences schema)).
    { eapply oneChanged_map; [ | exact O ]. now intros q q' (tbl & col & ->). }
    grows_fields.
  - intros (es & _ & ->). grows_fields.
  - intros ->. apply grows_refl.
Qed.

Lemma processStatements_app (a b : list statementInfo) : forall schema,
  processStatements (a ++ b) schema
  = match processStatements a schema with
    | Some mid => processStatements b mid
    | None => None
    end.
Proof.
  induction a as [|x a IH]; intros schema; simpl; [ reflexivity | ].
  destruct (processStatement _ _ _); [ apply IH | reflexivity ].
Qed.

Lemma processStatements_grows (l : list statementInfo) : forall schema schema',
  processStatements l schema = Some schema' -> grows schema schema'.
Proof.
  induction l as [|x l IH]; intros schema schema' H; simpl in H.
  - injection H as <-. apply grows_refl.
  - destruct (processStatement _ _ _) as [mid|] eqn:E; [ | discriminate ].
    eapply grows_trans; [ | apply IH; exact H ].
    eapply writes_grows. eapply dispatch_writes. exact E.
Qed.

(** X4.  The model only grows while the statements are processed.  Whatever
    the statements that follow, the constraints, indexes, extensions, enum
    types and rules recorded so far stay as they are and where they are, and
    so do the schema and name of every table and sequence; the version is
    not touched. *)
Theorem later_statements_keep_the_model (before after : list statementInfo)
        (schema model : ParsedSchema) :
  processStatements (before ++ after) schema = Some model ->
  exists mid,
    processStatements before schema = Some mid /\ grows mid model.
Proof.
  rewrite processStatements_app. intros H.
  destruct (processStatements before schema) as [mid|]; [ | discriminate ].
  exists mid. split; [ reflexivity | ].
  eapply processStatements_grows. exact H.
Qed.

Lemma later_statements_keep_the_model_witness :
  exists model mid,
    processStatements
      ([mkStmt orders_create "public"] ++ [mkStmt orders_set_default "public"])
      emptySchema = Some model
    /\ processStatements [mkStmt orders_create "public"] emptySchema = Some mid
    /\ grows mid model.
Proof.
  destruct (processStatements
              ([mkStmt orders_create "public"] ++ [mkStmt orders_set_default "public"])
              emptySchema) as [model|] eqn:E;
    [ | vm_compute in E; discriminate E ].
  destruct (later_statements_keep_the_model _ _ _ _ E) as (mid & M & G).
  exists model, mid. split; [ reflexivity | ]. split; [ exact M | exact G ].
Defined.

(** ** Trimming *)

Lemma TrimLeft_head (cutset : string) (s : string) : forall c t,
  TrimLeft s cutset = String c t -> in_cutset c cutset = false.
Proof.
  induction s as [|x s IH]; intros c t H; simpl in H; [ discriminate | ].
  destruct (in_cutset x cutset) eqn:X.
  - eapply IH. exact H.
  - injection H as <- _. exact X.
Qed.

Lemma TrimRight_cons (cutset : string) (x : ascii) (s : string) :
  TrimRight (String x s) cutset
  = match TrimRight s cutset with
    | EmptyString => if in_cutset x cutset then EmptyString
                     else String x EmptyString
    | t' => String x t'
    end.
Proof. reflexivity. Qed.

(** [TrimRight] keeps the first byte of what it returns. *)
Lemma TrimRight_head (cutset : string) (s : string) (c : ascii) (t : string) :
  TrimRight s cutset = String c t -> exists t0, s = String c t0.
Proof.
  destruct s as [|x s]; [ discriminate | ].
  rewrite TrimRight_cons.
  destruct (TrimRight s cutset); [ destruct (in_cutset x cutset) | ];
    intros H; try discriminate; injection H as <- _; now exists s.
Qed.

Lemma HasSuffix_char_cons (q c : ascii) (t : string) :
  HasSuffix (String c t) (String q EmptyString)
  = match t with
    | EmptyString => Ascii.eqb c q
    | _ => HasSuffix t (String q EmptyString)
    end.
Proof.
  unfold HasSuffix, len. destruct t as [|d t].
  - simpl. unfold String.eqb. destruct (Ascii.eqb c q); reflexivity.
  - simpl String.length.
    replace (S (S (String.length t)) - 1) with (S (String.length t)) by lia.
    replace (S (String.length t) - 1) with (String.length t) by lia.
    reflexivity.
Qed.

Lemma TrimRight_last (cutset : string) (q : ascii) (s : string) :
  HasSuffix (TrimRight s cutset) (String q EmptyString) = true ->
  in_cutset q cutset = false.
Proof.
  induction s as [|x s IH]; [ discriminate | ].
  rewrite TrimRight_cons.
  destruct (TrimRight s cutset) as [|d t'] eqn:T.
  - destruct (in_cutset x cutset) eqn:X; [ discriminate | ].
    rewrite HasSuffix_char_cons. intros E. apply Ascii.eqb_eq in E. now subst.
  - rewrite HasSuffix_char_cons. exact IH.
Qed.

Lemma Trim_clean (s : string) (q : ascii) :
  Trim s (String q EmptyString) <> EmptyString ->
  HasPrefix (Trim s (String q EmptyString)) (String q EmptyString) = false
  /\ HasSuffix (Trim s (String q EmptyString)) (String q EmptyString) = false.
Proof.
  intros N. unfold Trim in *.
  assert (Q : in_cutset q (String q EmptyString) = true)
    by (simpl; now rewrite Ascii.eqb_refl).
  split.
  - destruct (HasPrefix _ _) eqn:P; [ | reflexivity ].
    apply HasPrefix_char in P as [t P].
    destruct (TrimRight_head _ _ _ _ P) as [t0 L].
    apply TrimLeft_head in L. congruence.
  - destruct (HasSuffix _ _) eqn:P; [ | reflexivity ].
    apply TrimRight_last in P. congruence.
Qed.

(** ** The labels of an enum type *)

Lemma enumLabels_clean (pieces : list string) : forall labels,
  Forall cleanLabel labels -> Forall cleanLabel (enumLabels pieces labels).
Proof.
  induction pieces as [|p pieces IH]; intros labels F; simpl; [ exact F | ].
  destruct (String.eqb (Trim (TrimSpace p) "'") EmptyString) eqn:E; simpl.
  - apply IH. exact F.
  - apply IH. apply Forall_snoc; [ exact F | ].
    apply String.eqb_neq in E. split; [ exact E | ].
    apply Trim_clean. exact E.
Qed.

Lemma processStatement_cleanEnums stmt sp schema schema' :
  processStatement stmt sp schema = Some schema' ->
  cleanEnums schema -> cleanEnums schema'.
Proof.
  unfold processStatement, cleanEnums. intros H F.
  destruct (recognise stmt) eqn:R;
    try (match type of R with
         | _ = ?sh => apply (dispatch_writes sh stmt sp) in H
         end;
         simpl in H;
         first [ destruct H as [-> | (? & ? & ->)] | destruct H as (? & _ & ->)
               | destruct H as (? & -> & _) | subst schema' ];
         exact F).
  unfold doCreateTypeEnum in H. panic_cases H; subst schema'; [ | exact F ].
  simpl. apply Forall_snoc; [ exact F | ]. simpl.
  apply enumLabels_clean. constructor.
Qed.

Lemma processStatements_cleanEnums (l : list statementInfo) : forall schema schema',
  processStatements l schema = Some schema' ->
  cleanEnums schema -> cleanEnums schema'.
Proof.
  induction l as [|x l IH]; intros schema schema' H F; simpl in H.
  - now injection H as <-.
  - destruct (processStatement _ _ _) as [mid|] eqn:E; [ | discriminate ].
    eapply IH; [ exact H | ]. eapply processStatement_cleanEnums; eassumption.
Qed.

(** X5.  No enum type of a parsed model has an empty label or a label with
    a single quote at its start or at its end. *)
Theorem enum_labels_clean (data : string) (model : ParsedSchema) :
  ParseDump data = Some model ->
  Forall (fun e => Forall cleanLabel (EnumTypeDef.Labels e)) (EnumTypes model).
Proof.
  unfold ParseDump. intros H.
  apply (processStatements_cleanEnums _ _ _ H).
  unfold cleanEnums, splitStatements. simpl. constructor.
Qed.

Lemma enum_labels_clean_witness :
  exists model,
    ParseDump mood_dump = Some model
    /\ Forall (fun e => Forall cleanLabel (EnumTypeDef.Labels e)) (EnumTypes model).
Proof.
  destruct (ParseDump mood_dump) as [model|] eqn:E;
    [ | vm_compute in E; discriminate E ].
  exists model. split; [ reflexivity | ].
  apply (enum_labels_clean mood_dump). exact E.
Defined.

(** ** The constraints of a CREATE TABLE statement *)

Lemma inlineOf_columns tbl cols c :
  inlineOf tbl c -> inlineOf (TableDef.with_Columns cols tbl) c.
Proof. intros H. exact H. Qed.

Lemma parseInlineConstraint_kinds text tbl sp schema schema' :
  parseInlineConstraint text tbl sp schema = Some schema' ->
  exists cs,
    schema' = with_Constraints (Constraints schema ++ cs) schema
    /\ Forall (inlineOf tbl) cs.
Proof.
  unfold parseInlineConstraint. intros H.
  panic_cases H; subst schema'.
  - eexists; split; [ reflexivity | ].
    constructor; [ | constructor ]. repeat split. now left.
  - eexists; split; [ reflexivity | ].
    constructor; [ | constructor ]. repeat split. right. now left.
  - eexists; split; [ reflexivity | ].
    constructor; [ | constructor ].
    match goal with
    | F : inlineForeignKey _ _ _ _ = Some _ |- _ =>
      unfold inlineForeignKey in F; panic_cases F; subst
    end.
    repeat split. right. now right.
  - exists []; split; [ symmetry; apply with_Constraints_same | constructor ].
Qed.

Lemma parseTableBody_loop_kinds parts : forall tbl sp schema tbl' schema',
  parseTableBody_loop parts tbl sp schema = Some (tbl', schema') ->
  exists cols cs,
    tbl' = TableDef.with_Columns (TableDef.Columns tbl ++ cols) tbl
    /\ schema' = with_Constraints (Constraints schema ++ cs) schema
    /\ Forall (inlineOf tbl) cs.
Proof.
  induction parts as [|part more IH]; intros tbl sp schema tbl' schema' H; simpl in H.
  - injection H as <- <-. exists [], []. repeat split.
    + destruct tbl; unfold TableDef.with_Columns; simpl; now rewrite app_nil_r.
    + symmetry; apply with_Constraints_same.
    + constructor.
  - destruct (String.eqb (TrimSpace part) EmptyString);
      [ exact (IH _ _ _ _ _ H) | ].
    destruct (MatchString reTableConstraintKw (TrimSpace part)).
    + destruct (parseInlineConstraint _ _ _ _) as [s1|] eqn:P; [ | discriminate ].
      apply parseInlineConstraint_kinds in P as (cs1 & -> & F1).
      apply IH in H as (cols & cs2 & -> & -> & F2).
      exists cols, (cs1 ++ cs2). repeat split.
      * apply with_Constraints_app.
      * apply Forall_app. split; assumption.
    + destruct (parseColumn _) as [[c|]|];
        [ | exact (IH _ _ _ _ _ H) | discriminate ].
      apply IH in H as (cols & cs & -> & -> & F).
      exists (c :: cols), cs. repeat split.
      * unfold TableDef.with_Columns; simpl. now rewrite <- app_assoc.
      * exact F.
Qed.

Lemma doCreateTable_kinds (stmt sp : string) (schema schema' : ParsedSchema)
      (loc : caps) :
  doCreateTable stmt sp schema loc = Some schema' ->
  schema' = schema
  \/ exists tbl cs,
      Tables schema' = Tables schema ++ [tbl]
      /\ Constraints schema' = Constraints schema ++ cs
      /\ Forall (inlineOf tbl) cs.
Proof.
  intros H. unfold doCreateTable in H.
  destruct (MatchString reCreateLead stmt); simpl in H;
    [ | injection H as <-; now left ].
  destruct (splitQualified _ _) as [[s n]|]; [ | discriminate ].
  simpl in H. destruct (excludedSchemas s); [ injection H as <-; now left | ].
  right.
  match type of H with
  | match ?e with Some _ => _ | None => None end = Some _ =>
    assert (B : exists tbl1 s1, e = Some (tbl1, s1)
              /\ exists cs,
                   TableDef.SchemaName tbl1 = s /\ TableDef.TableName tbl1 = n
                   /\ Tables s1 = Tables schema
                   /\ Constraints s1 = Constraints schema ++ cs
                   /\ Forall (fun c => ConstraintDef.TableSchema c = s
                                       /\ ConstraintDef.TableName c = n
                                       /\ (ConstraintDef.ConstraintType c = "PRIMARY KEY"
                                           \/ ConstraintDef.ConstraintType c = "UNIQUE"
                                           \/ ConstraintDef.ConstraintType c = "FOREIGN KEY")) cs)
  end.
  { destruct (negb (String.eqb (extractParenContent stmt) EmptyString)).
    - destruct (parseTableBody _ _ _ _) as [[t1 s1]|] eqn:B; [ | discriminate ].
      exists t1, s1. split; [ reflexivity | ].
      apply parseTableBody_loop_kinds in B as (cols & cs & -> & -> & F).
      exists cs. repeat split; assumption.
    - eexists _, _. split; [ reflexivity | ].
      exists []. repeat split; [ simpl; now rewrite app_nil_r | constructor ]. }
  destruct B as (tbl1 & s1 & EB & cs & S1 & N1 & T1 & C1 & F).
  rewrite EB in H. injection H as <-. simpl.
  eexists _, cs. split; [ rewrite T1; reflexivity | ]. split; [ exact C1 | ].
  eapply Forall_impl; [ | exact F ].
  intros c (A & B & K). unfold inlineOf.
  destruct (FindStringSubmatch reInherits stmt), (FindStringSubmatch rePartitionBy stmt);
    simpl; repeat split; congruence.
Qed.

(** X6.  A CREATE TABLE statement either leaves the model as it is or
    appends one table and, to the constraints, only constraints of that table
    whose kind is PRIMARY KEY, UNIQUE or FOREIGN KEY: the CHECK and EXCLUDE
    constraints of the body are not recorded. *)
Theorem create_table_constraints (stmt sp : string) (schema schema' : ParsedSchema)
        (loc : caps) :
  recognise stmt = CreateTable loc ->
  processStatement stmt sp schema = Some schema' ->
  schema' = schema
  \/ exists tbl cs,
      Tables schema' = Tables schema ++ [tbl]
      /\ Constraints schema' = Constraints schema ++ cs
      /\ Forall (inlineOf tbl) cs.
Proof.
  unfold processStatement. intros -> H.
  apply doCreateTable_kinds in H. exact H.
Qed.

Lemma create_table_constraints_witness :
  exists schema',
    processStatement checked_table_stmt "public" emptySchema = Some schema'
    /\ (schema' = emptySchema
        \/ exists tbl cs,
            Tables schema' = Tables emptySchema ++ [tbl]
            /\ Constraints schema' = Constraints emptySchema ++ cs
            /\ Forall (inlineOf tbl) cs).
Proof.
  destruct (processStatement checked_table_stmt "public" emptySchema)
    as [schema'|] eqn:E; [ | vm_compute in E; discriminate E ].
  assert (R : exists loc, recognise checked_table_stmt = CreateTable loc)
    by (eexists; vm_compute; reflexivity).
  destruct R as [loc R].
  exists schema'. split; [ reflexivity | ].
  apply (create_table_constraints checked_table_stmt "public" emptySchema schema' loc R E).
Defined.

(** ** Lookups in an excluded schema *)

Lemma filter_none {A : Type} (f : A -> bool) (l : list A) :
  Forall (fun x => f x = false) l -> filter f l = [].
Proof.
  induction 1 as [|x l H F IH]; simpl; [ reflexivity | now rewrite H ].
Qed.

Lemma excluded_differs (s s' : string) :
  excludedSchemas s = true -> excludedSchemas s' = false -> String.eqb s' s = false.
Proof.
  intros X X'. destruct (String.eqb s' s) eqn:E; [ | reflexivity ].
  apply String.eqb_eq in E. congruence.
Qed.

(** X7.  In a parsed model the lookups for a table of an excluded schema
    find nothing: no constraint, no index and no table. *)
Theorem excluded_schema_lookups_empty (data : string) (model : ParsedSchema)
        (s n ty : string) :
  ParseDump data = Some model ->
  excludedSchemas s = true ->
  GetConstraintsForTable model s n ty = []
  /\ GetIndexesForTable model s n = []
  /\ GetTable model s n = None.
Proof.
  unfold ParseDump. intros H X.
  apply processStatements_filtered in H;
    [ | unfold filtered, clean, splitStatements; simpl; repeat split; constructor ].
  destruct H as [(T & C & I & _) _].
  split; [ | split ].
  - apply filter_none. eapply Forall_impl; [ | exact C ].
    intros c Hc. simpl in Hc. now rewrite (excluded_differs _ _ X Hc).
  - apply filter_none. eapply Forall_impl; [ | exact I ].
    intros x Hx. simpl in Hx. now rewrite (excluded_differs _ _ X Hx).
  - unfold GetTable.
    pose proof (GetTable_from_spec (Tables model) 0 s n) as G.
    destruct (GetTable_from 0 (Tables model) s n) as [j|]; [ | reflexivity ].
    destruct G as (t & _ & N & K). exfalso.
    apply nth_error_In in N. rewrite Forall_forall in T. apply T in N.
    unfold tableKey in K. injection K as K _. congruence.
Qed.

Lemma excluded_schema_lookups_empty_witness :
  exists model,
    ParseDump mixed_dump = Some model
    /\ GetConstraintsForTable model "pg_catalog" "hidden" "PRIMARY KEY" = []
    /\ GetIndexesForTable model "pg_toast" "t1" = []
    /\ GetTable model "pg_catalog" "hidden" = None.
Proof.
  destruct (ParseDump mixed_dump) as [model|] eqn:E;
    [ | vm_compute in E; discriminate E ].
  exists model. split; [ reflexivity | ].
  split; [ | split ].
  - apply (excluded_schema_lookups_empty mixed_dump model "pg_catalog" "hidden"
             "PRIMARY KEY" E). reflexivity.
  - apply (excluded_schema_lookups_empty mixed_dump model "pg_toast" "t1"
             EmptyString E). reflexivity.
  - apply (excluded_schema_lookups_empty mixed_dump model "pg_catalog" "hidden"
             EmptyString E). reflexivity.
Defined.

(** ** Splitting and joining lines *)

Lemma Split_acc_cur (sep : ascii) (s : string) : forall cur,
  Split_acc cur s sep
  = match Split_acc EmptyString s sep with
    | x :: r => (cur ++ x)%string :: r
    | [] => []
    end.
Proof.
  induction s as [|c s IH]; intros cur; simpl.
  - now rewrite append_nil_r.
  - destruct (Ascii.eqb c sep).
    + now rewrite append_nil_r.
    + rewrite IH. rewrite (IH (String c EmptyString)).
      destruct (Split_acc EmptyString s sep); [ reflexivity | ].
      now rewrite append_assoc.
Qed.

Lemma Split_cons (sep c : ascii) (s : string) :
  Split (String c s) sep
  = if Ascii.eqb c sep then EmptyString :: Split s sep
    else match Split s sep with
         | x :: r => String c x :: r
         | [] => []
         end.
Proof.
  unfold Split. simpl. destruct (Ascii.eqb c sep); [ reflexivity | ].
  now rewrite Split_acc_cur.
Qed.

Lemma Split_nonempty (sep : ascii) (s : string) : Split s sep <> [].
Proof.
  induction s as [|c s IH]; [ discriminate | ].
  rewrite Split_cons. destruct (Ascii.eqb c sep); [ discriminate | ].
  destruct (Split s sep); [ contradiction | discriminate ].
Qed.

(** the pieces [Split] returns hold no separator *)
Lemma Split_pieces (sep : ascii) (s : string) :
  Forall (fun l => Split l sep = [l]) (Split s sep).
Proof.
  induction s as [|c s IH]; [ repeat constructor | ].
  rewrite Split_cons. destruct (Ascii.eqb c sep) eqn:E.
  - constructor; [ reflexivity | exact IH ].
  - destruct (Split s sep) as [|x r]; [ constructor | ].
    inversion IH as [|? ? Hx Hr]; subst.
    constructor; [ | exact Hr ].
    rewrite Split_cons, E, Hx. reflexivity.
Qed.

Lemma Split_line_app (sep : ascii) (t : string) (l : string) :
  Split l sep = [l] ->
  Split (l ++ String sep t) sep = l :: Split t sep.
Proof.
  induction l as [|c l IH]; intros H.
  - simpl. rewrite Split_cons, Ascii.eqb_refl. reflexivity.
  - rewrite Split_cons in H. simpl append. rewrite Split_cons.
    destruct (Ascii.eqb c sep); [ discriminate | ].
    destruct (Split l sep) as [|x r] eqn:S; [ discriminate | ].
    injection H as -> ->. rewrite IH by reflexivity. reflexivity.
Qed.

Lemma Split_Join (sep : ascii) (ls : list string) :
  ls <> [] ->
  Forall (fun l => Split l sep = [l]) ls ->
  Split (Join ls (String sep EmptyString)) sep = ls.
Proof.
  induction ls as [|l ls IH]; intros N F; [ contradiction | ].
  inversion F as [|? ? Hl Hls]; subst.
  destruct ls as [|l2 ls].
  - exact Hl.
  - change (Join (l :: l2 :: ls) (String sep EmptyString))
      with (l ++ String sep EmptyString ++ Join (l2 :: ls) (String sep EmptyString))%string.
    change (String sep EmptyString ++ Join (l2 :: ls) (String sep EmptyString))%string
      with (String sep (Join (l2 :: ls) (String sep EmptyString))).
    rewrite Split_line_app by exact Hl.
    rewrite IH; [ reflexivity | discriminate | exact Hls ].
Qed.

(** ** The segmenter loses no line *)

Lemma held_splitLine (st : segmenter) (l : string) :
  oneLine l ->
  Forall oneLine (buf st) ->
  held (splitLine st l) = held st ++ (if skipped l then [] else [l])
  /\ Forall oneLine (buf (splitLine st l)).
Proof.
  intros L B. destruct (skipped l) eqn:K.
  - destruct (splitLine_skipped st l K) as (R & Bf & _).
    unfold held. rewrite R, Bf, app_nil_r. split; [ reflexivity | exact B ].
  - rewrite (splitLine_kept st l K). cbv zeta.
    destruct (negb _ && HasSuffix _ _); unfold held; cbn [results buf].
    + split; [ | constructor ].
      rewrite flat_map_app. cbn [flat_map]. rewrite !app_nil_r.
      unfold linesOf at 2. cbn [stmt]. unfold LF.
      rewrite Split_Join.
      * now rewrite app_assoc.
      * destruct (buf st); discriminate.
      * apply Forall_app. split; [ exact B | now constructor ].
    + split; [ now rewrite app_assoc | ].
      apply Forall_app. split; [ exact B | now constructor ].
Qed.

Lemma held_splitLines (lines : list string) : forall st,
  Forall oneLine lines ->
  Forall oneLine (buf st) ->
  held (splitLines lines st) = held st ++ kept lines
  /\ Forall oneLine (buf (splitLines lines st)).
Proof.
  induction lines as [|l lines IH]; intros st L B.
  - simpl. unfold kept. simpl. rewrite app_nil_r. split; [ reflexivity | exact B ].
  - inversion L as [|? ? Hl Hls]; subst.
    rewrite splitLines_cons.
    destruct (held_splitLine st l Hl B) as [E B'].
    destruct (IH (splitLine st l) Hls B') as [E2 B2].
    split; [ | exact B2 ].
    rewrite E2, E. unfold kept. simpl.
    destruct (skipped l); simpl; now rewrite <- app_assoc.
Qed.

(** X8.  The segmenter loses no line and adds none: the lines of the
    statements it returns, in order, are the lines of the text that are
    neither blank nor comments. *)
Theorem segmentation_keeps_lines (text : string) (schema : ParsedSchema)
        (sp : string) :
  flat_map linesOf (fst (splitStatements text schema sp))
  = kept (Split text "010").
Proof.
  unfold splitStatements. cbv zeta. simpl fst.
  set (st0 := mkSeg [] [] false EmptyString sp (PgVersion schema)).
  destruct (held_splitLines (Split text "010") st0) as [E B];
    [ apply Split_pieces | constructor | ].
  change (held st0) with (@nil string) in E. simpl in E. rewrite <- E.
  unfold flush, held.
  destruct (buf (splitLines (Split text "010") st0)) as [|b bs] eqn:Bf.
  - simpl. now rewrite app_nil_r.
  - cbn [List.length Nat.ltb Nat.leb]. rewrite flat_map_app. cbn [flat_map].
    rewrite app_nil_r. unfold linesOf at 2. cbn [stmt].
    rewrite Split_Join; [ reflexivity | discriminate | exact B ].
Qed.

(** ** The search path *)

Lemma firstSchema_path (sp : string) (parts : list string) : forall cur,
  pathFrom sp cur -> pathFrom sp (firstSchema parts cur).
Proof.
  induction parts as [|p parts IH]; intros cur P; simpl; [ exact P | ].
  destruct (negb (String.eqb _ EmptyString) && negb (String.eqb _ "pg_catalog")) eqn:E.
  - right. apply andb_true_iff in E as [E1 E2].
    apply negb_true_iff in E1, E2.
    apply String.eqb_neq in E1, E2. split; assumption.
  - apply IH. exact P.
Qed.

Lemma trackSearchPath_path (sp stripped cur : string) :
  pathFrom sp cur -> pathFrom sp (trackSearchPath stripped cur).
Proof.
  intros P. unfold trackSearchPath.
  destruct (FindStringSubmatch reSetSearchPath stripped); [ | exact P ].
  destruct (negb _); [ | exact P ].
  apply firstSchema_path. exact P.
Qed.

Lemma splitLine_path (sp : string) (st : segmenter) (l : string) :
  pathFrom sp (curSearchPath st) ->
  Forall (fun si => pathFrom sp (searchPath si)) (results st) ->
  pathFrom sp (curSearchPath (splitLine st l))
  /\ Forall (fun si => pathFrom sp (searchPath si)) (results (splitLine st l)).
Proof.
  intros P R. destruct (skipped l) eqn:K.
  - destruct (splitLine_skipped st l K) as (R1 & _ & _ & _ & S1).
    rewrite R1, S1. split; assumption.
  - rewrite (splitLine_kept st l K). cbv zeta.
    pose proof (trackSearchPath_path sp (TrimSpace l) _ P) as P'.
    destruct (negb _ && HasSuffix _ _); simpl.
    + split; [ exact P' | ]. apply Forall_snoc; [ exact R | exact P' ].
    + split; [ exact P' | exact R ].
Qed.

Lemma splitLines_path (sp : string) (lines : list string) : forall st,
  pathFrom sp (curSearchPath st) ->
  Forall (fun si => pathFrom sp (searchPath si)) (results st) ->
  pathFrom sp (curSearchPath (splitLines lines st))
  /\ Forall (fun si => pathFrom sp (searchPath si)) (results (splitLines lines st)).
Proof.
  induction lines as [|l lines IH]; intros st P R; [ split; assumption | ].
  rewrite splitLines_cons.
  destruct (splitLine_path sp st l P R) as [P' R'].
  apply IH; assumption.
Qed.


(** ** Package models *)

Import Models Analyzer.

(** X10.  [ParseSeverity] undoes [String] on the four declared severities
    and on no other value, and [String] undoes [ParseSeverity] on every name
    it accepts. *)
Theorem severity_round_trip :
  (forall s : Severity,
      ParseSeverity (Severity_String s) = (s, None) <-> declaredSeverity s)
  /\ (forall (name : string) (s : Severity),
         ParseSeverity name = (s, None) -> Severity_String s = name).
Proof.
  split.
  - intros s. unfold declaredSeverity, Severity_String, severityNames,
      SeverityCritical, SeverityWarning, SeverityConsider, SeverityInfo.
    destruct (s =? 0)%Z eqn:E0; [ apply Z.eqb_eq in E0; subst; split; [ lia | reflexivity ] | ].
    destruct (s =? 1)%Z eqn:E1; [ apply Z.eqb_eq in E1; subst; split; [ lia | reflexivity ] | ].
    destruct (s =? 2)%Z eqn:E2; [ apply Z.eqb_eq in E2; subst; split; [ lia | reflexivity ] | ].
    destruct (s =? 3)%Z eqn:E3; [ apply Z.eqb_eq in E3; subst; split; [ lia | reflexivity ] | ].
    apply Z.eqb_neq in E0, E1, E2, E3.
    split; [ | lia ].
    unfold ParseSeverity, severityFromName. simpl. discriminate.
  - intros name s. unfold ParseSeverity, severityFromName.
    destruct (String.eqb name "CRITICAL") eqn:E0;
      [ apply String.eqb_eq in E0; intros H; injection H as <-; now subst | ].
    destruct (String.eqb name "WARNING") eqn:E1;
      [ apply String.eqb_eq in E1; intros H; injection H as <-; now subst | ].
    destruct (String.eqb name "CONSIDER") eqn:E2;
      [ apply String.eqb_eq in E2; intros H; injection H as <-; now subst | ].
    destruct (String.eqb name "INFO") eqn:E3;
      [ apply String.eqb_eq in E3; intros H; injection H as <-; now subst | ].
    discriminate.
Qed.

(** ** The counts of a report *)

Lemma Findings_fold (l : list CheckResult.t) : forall acc,
  fold_left (fun all cr => all ++ CheckResult.Findings cr) l acc
  = acc ++ List.concat (map CheckResult.Findings l).
Proof.
  induction l as [|x l IH]; intros acc; simpl.
  - now rewrite app_nil_r.
  - rewrite IH. now rewrite app_assoc.
Qed.

Lemma count_fold (sev : Severity) (l : list Finding.t) : forall acc,
  fold_left (fun count f =>
               if (Finding.Severity f =? sev)%Z then (count + 1)%Z else count)
            l acc
  = (acc + Z.of_nat (List.length
                        (filter (fun f => (Finding.Severity f =? sev)%Z) l)))%Z.
Proof.
  induction l as [|f l IH]; intros acc; simpl; [ lia | ].
  rewrite IH. destruct (Finding.Severity f =? sev)%Z; simpl List.length; lia.
Qed.

Lemma four_counts (l : list Finding.t) :
  Forall (fun f => declaredSeverity (Finding.Severity f)) l ->
  List.length (filter (fun f => (Finding.Severity f =? SeverityCritical)%Z) l)
  + List.length (filter (fun f => (Finding.Severity f =? SeverityWarning)%Z) l)
  + List.length (filter (fun f => (Finding.Severity f =? SeverityConsider)%Z) l)
  + List.length (filter (fun f => (Finding.Severity f =? SeverityInfo)%Z) l)
  = List.length l.
Proof.
  unfold declaredSeverity, SeverityCritical, SeverityWarning, SeverityConsider,
    SeverityInfo.
  induction 1 as [|f l H F IH]; [ reflexivity | ].
  simpl.
  destruct (Finding.Severity f =? 0)%Z eqn:E0;
  destruct (Finding.Severity f =? 1)%Z eqn:E1;
  destruct (Finding.Severity f =? 2)%Z eqn:E2;
  destruct (Finding.Severity f =? 3)%Z eqn:E3;
  repeat match goal with
         | E : (_ =? _)%Z = true |- _ => apply Z.eqb_eq in E
         | E : (_ =? _)%Z = false |- _ => apply Z.eqb_neq in E
         end;
  simpl List.length; lia.
Qed.

Lemma passed_fold (l : list CheckResult.t) : forall acc,
  (acc <= fold_left (fun count cr =>
                       if (List.length (CheckResult.Findings cr) =? 0)%nat
                          && String.eqb (CheckResult.Error cr) EmptyString
                          && negb (CheckResult.Skipped cr)
                       then (count + 1)%Z else count) l acc
   <= acc + Z.of_nat (List.length l))%Z.
Proof.
  induction l as [|x l IH]; intros acc; simpl fold_left; simpl List.length; [ lia | ].
  destruct (_ && _ && _).
  - specialize (IH (acc + 1)%Z). lia.
  - specialize (IH acc). lia.
Qed.



(** ** [sliceEqual] *)

Lemma sliceEqual_loop_eq (a : list string) : forall b,
  List.length a = List.length b ->
  (sliceEqual_loop a b = true <-> a = b).
Proof.
  induction a as [|x a IH]; intros [|y b] L; simpl in *; try discriminate.
  - split; reflexivity.
  - destruct (String.eqb x y) eqn:E; simpl.
    + apply String.eqb_eq in E. subst y.
      rewrite IH by lia. split; [ now intros -> | now intros [= ->] ].
    + apply String.eqb_neq in E. split; [ discriminate | now intros [= -> _] ].
Qed.

(** X12.  [sliceEqual] decides the equality of two slices of strings. *)
Theorem sliceEqual_decides (a b : list string) :
  sliceEqual a b = true <-> a = b.
Proof.
  unfold sliceEqual.
  destruct (List.length a =? List.length b)%nat eqn:L; simpl.
  - apply Nat.eqb_eq in L. now apply sliceEqual_loop_eq.
  - apply Nat.eqb_neq in L. split; [ discriminate | intros ->; contradiction ].
Qed.

Lemma sliceEqual_loop_eq_any (a b : list string) :
  sliceEqual a b = true <-> a = b.
Proof.
  unfold sliceEqual.
  destruct (List.length a =? List.length b)%nat eqn:L; simpl.
  - apply Nat.eqb_eq in L. now apply sliceEqual_loop_eq.
  - apply Nat.eqb_neq in L. split; [ discriminate | intros ->; contradiction ].
Qed.

(** ** [checkPrimaryKeys] and the lookup of the constraints *)

Lemma append_cons_dot (a : ascii) (s n : string) :
  (String a s ++ "." ++ n)%string = String a (s ++ "." ++ n)%string.
Proof. reflexivity. Qed.

(** A dot splits a name in one way when the schema holds no dot. *)
Lemma fqn_inj (s1 : string) : forall s2 n1 n2,
  Index s1 "." = None -> Index s2 "." = None ->
  (s1 ++ "." ++ n1)%string = (s2 ++ "." ++ n2)%string ->
  s1 = s2 /\ n1 = n2.
Proof.
  induction s1 as [|a s1 IH]; intros [|b s2] n1 n2 D1 D2 E.
  - simpl in E. injection E as E. now split.
  - simpl in E. injection E as <- _.
    rewrite Index_char_cons, Ascii.eqb_refl in D2. discriminate.
  - simpl in E. injection E as -> _.
    rewrite Index_char_cons, Ascii.eqb_refl in D1. discriminate.
  - rewrite !append_cons_dot in E. injection E as <- E.
    apply Index_char_cons_none in D1, D2.
    destruct (IH _ _ _ D1 D2 E) as [-> ->]. now split.
Qed.

Lemma fqn_eqb (s1 n1 s2 n2 : string) :
  Contains s1 "." = false -> Contains s2 "." = false ->
  String.eqb (s1 ++ "." ++ n1) (s2 ++ "." ++ n2)
  = String.eqb s2 s1 && String.eqb n2 n1.
Proof.
  intros D1 D2. apply Contains_false in D1, D2.
  destruct (String.eqb (s1 ++ "." ++ n1) (s2 ++ "." ++ n2)) eqn:E.
  - apply String.eqb_eq in E. destruct (fqn_inj _ _ _ _ D1 D2 E) as [-> ->].
    now rewrite !String.eqb_refl.
  - apply String.eqb_neq in E. symmetry. apply andb_false_iff.
    destruct (String.eqb s2 s1) eqn:A; [ | now left ].
    destruct (String.eqb n2 n1) eqn:B; [ | now right ].
    apply String.eqb_eq in A, B. subst. contradiction.
Qed.

Lemma member_pkTables (cs : list ConstraintDef.t) (s n : string) :
  Contains s "." = false ->
  Forall (fun c => Contains (ConstraintDef.TableSchema c) "." = false) cs ->
  member
    (map (fun c => (ConstraintDef.TableSchema c ++ "." ++ ConstraintDef.TableName c)%string)
         (filter (fun c => String.eqb (ConstraintDef.ConstraintType c) "PRIMARY KEY") cs))
    (s ++ "." ++ n)
  = match filter (fun c =>
                    String.eqb (ConstraintDef.TableSchema c) s
                    && String.eqb (ConstraintDef.TableName c) n
                    && (String.eqb "PRIMARY KEY" EmptyString
                        || String.eqb (ConstraintDef.ConstraintType c) "PRIMARY KEY"))
                 cs with
    | [] => false
    | _ => true
    end.
Proof.
  intros D F. unfold member.
  induction F as [|c cs Dc F IH]; [ reflexivity | ].
  cbn [filter].
  replace (String.eqb "PRIMARY KEY" EmptyString) with false by reflexivity.
  cbn [orb].
  destruct (String.eqb (ConstraintDef.ConstraintType c) "PRIMARY KEY").
  - cbn [map existsb]. rewrite (fqn_eqb _ _ _ _ D Dc), andb_true_r.
    destruct (String.eqb (ConstraintDef.TableSchema c) s
              && String.eqb (ConstraintDef.TableName c) n); cbn [orb];
      [ reflexivity | exact IH ].
  - rewrite andb_false_r. exact IH.
Qed.

(** X13.  When no schema name holds a dot, [checkPrimaryKeys] reports, in the
    order of the tables, the tables that are not partitioned and for which
    [GetConstraintsForTable] finds no PRIMARY KEY constraint, one finding
    each, and nothing else. *)
Theorem checkPrimaryKeys_reports_lookup_misses (schema : ParsedSchema)
        (checkName category : string) :
  plainSchemas schema ->
  checkPrimaryKeys schema checkName category
  = map (fun tbl =>
           noPrimaryKey checkName category
             (TableDef.SchemaName tbl ++ "." ++ TableDef.TableName tbl))
        (filter (fun tbl =>
                   String.eqb (TableDef.PartitionBy tbl) EmptyString
                   && lacksPrimaryKey schema tbl)
                (Tables schema)).
Proof.
  intros [T C]. unfold checkPrimaryKeys. cbv zeta.
  induction T as [|tbl ts Dt T IH]; [ reflexivity | ].
  cbn [flat_map filter]. rewrite IH. clear IH.
  destruct (String.eqb (TableDef.PartitionBy tbl) EmptyString); cbn [negb andb];
    [ | reflexivity ].
  unfold lacksPrimaryKey, pkTables, GetConstraintsForTable.
  rewrite (member_pkTables _ _ _ Dt C).
  destruct (filter _ (Constraints schema)); reflexivity.
Qed.

Lemma checkPrimaryKeys_reports_lookup_misses_witness :
  checkPrimaryKeys shop_model "primary_keys" "schema"
  = map (fun tbl =>
           noPrimaryKey "primary_keys" "schema"
             (TableDef.SchemaName tbl ++ "." ++ TableDef.TableName tbl))
        (filter (fun tbl =>
                   String.eqb (TableDef.PartitionBy tbl) EmptyString
                   && lacksPrimaryKey shop_model tbl)
                (Tables shop_model)).
Proof.
  apply (checkPrimaryKeys_reports_lookup_misses shop_model).
  split; repeat constructor.
Defined.

(** ** [checkMissingFKIndexes] *)

Lemma coversColumns_covers (cols fkCols : list string) :
  coversColumns cols fkCols = true <-> covers cols fkCols.
Proof.
  unfold coversColumns, covers. split.
  - intros H. apply andb_true_iff in H as [L E].
    apply sliceEqual_loop_eq_any in E.
    exists (skipn (List.length fkCols) cols).
    rewrite <- (firstn_skipn (List.length fkCols) cols) at 1. now rewrite E.
  - intros [rest ->]. apply andb_true_iff. split.
    + apply Nat.leb_le. rewrite length_app. lia.
    + apply sliceEqual_loop_eq_any.
      rewrite firstn_app, Nat.sub_diag, firstn_all. simpl.
      now rewrite app_nil_r.
Qed.

Lemma hasIndex_supported (schema : ParsedSchema) (fk : ConstraintDef.t) :
  hasIndex schema fk = true <-> supported schema fk.
Proof.
  unfold hasIndex, supported, pkUkCols. cbv zeta.
  rewrite orb_true_iff, !existsb_exists. split.
  - intros [(idx & I & Cv) | (cols & I & Cv)].
    + left. exists idx. split; [ exact I | now apply coversColumns_covers ].
    + right. apply in_map_iff in I as (c & <- & I).
      apply filter_In in I as (I & K).
      apply andb_true_iff in K as [K Ty].
      exists c. split; [ | split ].
      * unfold GetConstraintsForTable. apply filter_In. split; [ exact I | ].
        rewrite K. reflexivity.
      * apply orb_true_iff in Ty as [Ty | Ty]; apply String.eqb_eq in Ty; auto.
      * now apply coversColumns_covers.
  - intros [(idx & I & Cv) | (c & I & Ty & Cv)].
    + left. exists idx. split; [ exact I | now apply coversColumns_covers ].
    + right. exists (ConstraintDef.Columns c).
      split; [ | now apply coversColumns_covers ].
      apply in_map. unfold GetConstraintsForTable in I.
      apply filter_In in I as (I & K). apply filter_In. split; [ exact I | ].
      rewrite String.eqb_refl in K. simpl in K. rewrite andb_true_r in K.
      rewrite K. simpl.
      destruct Ty as [-> | ->]; reflexivity.
Qed.

(** X14.  [checkMissingFKIndexes] reports a constraint exactly when it is
    a FOREIGN KEY with columns and neither an index of its table nor a
    PRIMARY KEY or UNIQUE constraint of its table starts with these
    columns. *)
Theorem checkMissingFKIndexes_reports_unsupported (schema : ParsedSchema)
        (checkName category : string) (f : Finding.t) :
  In f (checkMissingFKIndexes schema checkName category)
  <-> exists fk,
        In fk (Constraints schema)
        /\ ConstraintDef.ConstraintType fk = "FOREIGN KEY"
        /\ ConstraintDef.Columns fk <> []
        /\ ~ supported schema fk
        /\ f = missingIndex checkName category fk.
Proof.
  unfold checkMissingFKIndexes. rewrite in_flat_map. split.
  - intros (fk & I & H). exists fk. split; [ exact I | ].
    destruct (String.eqb (ConstraintDef.ConstraintType fk) "FOREIGN KEY") eqn:Ty;
      simpl in H; [ | contradiction ].
    destruct (ConstraintDef.Columns fk) as [|c0 cs] eqn:Cs; simpl in H;
      [ contradiction | ].
    destruct (hasIndex schema fk) eqn:HI; simpl in H; [ contradiction | ].
    destruct H as [<- | []].
    apply String.eqb_eq in Ty. repeat split; try assumption; try discriminate.
    intros S. apply hasIndex_supported in S. congruence.
  - intros (fk & I & Ty & Cs & NS & ->). exists fk. split; [ exact I | ].
    apply String.eqb_eq in Ty. rewrite Ty. simpl.
    destruct (ConstraintDef.Columns fk) as [|c0 cs] eqn:E; [ contradiction | ].
    simpl.
    destruct (hasIndex schema fk) eqn:HI.
    + apply hasIndex_supported in HI. contradiction.
    + simpl. now left.
Qed.

(** ** [checkForeignKeys] *)

Lemma filter_picked {A : Type} (P : A -> Prop) (f : A -> bool) (l : list A) :
  (forall x, f x = true <-> P x) -> picked P l (filter f l).
Proof.
  intros F. induction l as [|x l IH]; simpl; [ constructor | ].
  destruct (f x) eqn:E.
  - apply picked_take; [ now apply F | exact IH ].
  - apply picked_skip; [ | exact IH ].
    intros Px. apply F in Px. congruence.
Qed.

Lemma picked_unique {A : Type} (P : A -> Prop) (l l1 l2 : list A) :
  picked P l l1 -> picked P l l2 -> l1 = l2.
Proof.
  intros H1. revert l2.
  induction H1 as [|x l l1 Px H1 IH|x l l1 Px H1 IH]; intros l2 H2;
    inversion H2; subst; try contradiction; auto.
  f_equal. now apply IH.
Qed.

(** X15.  [checkForeignKeys] reports nothing when the model has no FOREIGN
    KEY constraint.  Otherwise it returns one warning for each foreign key
    with a CASCADE action, as often and in the order the constraints of the
    model have them, and then one summary whose count of foreign keys is the
    number of FOREIGN KEY constraints and whose count of cascades is the
    number of the warnings. *)
Theorem checkForeignKeys_summary (schema : ParsedSchema)
        (checkName category : string) :
  let fks := foreignKeysOf schema in
  picked (fun c => ConstraintDef.ConstraintType c = "FOREIGN KEY")
         (Constraints schema) fks
  /\ (fks = [] -> checkForeignKeys schema checkName category = [])
  /\ (fks <> [] ->
      exists cascades,
        picked cascading fks cascades
        /\ checkForeignKeys schema checkName category
           = map (cascadeFinding checkName category) cascades
             ++ [foreignKeySummary checkName category
                   (Z.of_nat (List.length fks))
                   (Z.of_nat (List.length cascades))]).
Proof.
  unfold foreignKeysOf, checkForeignKeys. cbv zeta.
  set (fks := filter _ (Constraints schema)).
  split; [ | split ].
  - apply filter_picked. intros c. apply String.eqb_eq.
  - intros E. rewrite E. reflexivity.
  - intros N. exists (filter isCascade fks). split.
    + apply filter_picked. intros fk. unfold isCascade, cascading.
      rewrite orb_true_iff, !String.eqb_eq. reflexivity.
    + destruct fks; [ contradiction | ]. reflexivity.
Qed.

(** ** [checkPgVersion] *)

(** A greedy repetition whose continuation always succeeds, with a result
    that depends on the offset alone, stops after the longest run. *)
Lemma star_greedy_total (p : Z -> bool) (h : nat -> caps)
      (k : cursor -> option caps) (rs : list (Z * nat)) : forall at_ before,
  (forall cur, k cur = Some (h (pos cur))) ->
  star_greedy p rs at_ before k = Some (h (at_ + leading p rs)).
Proof.
  induction rs as [|[r w] rs IH]; intros at_ before K; simpl.
  - rewrite K. simpl. now rewrite Nat.add_0_r.
  - destruct (p r).
    + rewrite IH by exact K. now rewrite Nat.add_assoc.
    + rewrite K. simpl. now rewrite Nat.add_0_r.
Qed.

(** A pattern that starts with [^] matches at no later offset. *)
Lemma search_Bot_later (re : regex) (rs : list (Z * nat)) : forall at_ before,
  0 < at_ -> search (Cat Bot re) rs at_ before = None.
Proof.
  induction rs as [|[r w] rs IH]; intros at_ before P; simpl;
    (replace (at_ =? 0)%nat with false by (symmetry; apply Nat.eqb_neq; lia)).
  - reflexivity.
  - apply IH. lia.
Qed.

Lemma leading_first (p : Z -> bool) (r : Z) (w : nat) (rs : list (Z * nat)) :
  leading p ((r, w) :: rs) = if p r then w + leading p rs else 0.
Proof. reflexivity. Qed.

(** The match of [reMajor]: the leading digits of the text. *)
Lemma reMajor_match (v : string) :
  FindStringSubmatch reMajor v
  = if (leading digit (runes v) =? 0)%nat then None
    else Some [slice 0 (leading digit (runes v)) v;
               slice 0 (leading digit (runes v)) v].
Proof.
  unfold FindStringSubmatch, FindStringSubmatchIndex.
  destruct (runes_inside v) as [_ W]. simpl in W.
  destruct (runes v) as [|[r w] rs] eqn:R.
  - reflexivity.
  - inversion W as [|? ? W1 _]; subst. simpl in W1.
    rewrite leading_first.
    unfold reMajor, cat, plus. cbn [fold_right search run pos rest].
    cbn [Nat.eqb].
    destruct (digit r) eqn:D.
    + rewrite (star_greedy_total digit
                 (fun n => [(0, (0, n)); (1, (0, n))])).
      * cbn [option_map]. replace (w + leading digit rs =? 0)%nat with false
          by (symmetry; apply Nat.eqb_neq; lia).
        unfold submatches. cbn [ngroups fold_right Nat.max seq map].
        unfold group_text. cbn [get_cap Nat.eqb].
        rewrite Nat.add_0_l. reflexivity.
      * intros cur. reflexivity.
    + rewrite search_Bot_later by lia. reflexivity.
Qed.

(** X16.  [checkPgVersion] always returns one finding, about pg_version.
    It is a warning when the version does not start with a digit (the empty
    version among them); otherwise the major version is the number the
    leading digits write, and the finding is informational when the major is
    15, 16, 17 or 18 and critical when it is not. *)
Theorem checkPgVersion_classifies (schema : ParsedSchema)
        (checkName category : string) :
  let v := PgVersion schema in
  let n := leading digit (runes v) in
  let major := fst (Atoi (slice 0 n v)) in
  exists f,
    checkPgVersion schema checkName category = [f]
    /\ Finding.ObjectName f = "pg_version"
    /\ Finding.Severity f
       = if (n =? 0)%nat then SeverityWarning
         else if supportedPgMajors major then SeverityInfo
         else SeverityCritical.
Proof.
  cbv zeta. unfold checkPgVersion. cbv zeta.
  destruct (String.eqb (PgVersion schema) EmptyString) eqn:E.
  - apply String.eqb_eq in E. rewrite E.
    eexists. split; [ reflexivity | ]. split; reflexivity.
  - rewrite reMajor_match.
    destruct (leading digit (runes (PgVersion schema)) =? 0)%nat.
    + eexists. split; [ reflexivity | ]. split; reflexivity.
    + unfold sub. cbn [nth].
      destruct (supportedPgMajors _); cbn [negb];
        eexists; (split; [ reflexivity | ]); split; reflexivity.
Qed.

(** ** From the dump to the version finding *)

Lemma splitLines_no_version (lines : list string) : forall st,
  version st = EmptyString ->
  Forall (fun l => versionOf l = None) lines ->
  version (splitLines lines st) = EmptyString.
Proof.
  induction lines as [|l lines IH]; intros st E F; [ exact E | ].
  inversion F as [|? ? Hl F']; subst.
  rewrite splitLines_cons. apply IH; [ | exact F' ].
  rewrite splitLine_version, E, Hl. reflexivity.
Qed.

Lemma splitLines_some_version (lines : list string) : forall st,
  version st = EmptyString ->
  version (splitLines lines st) = EmptyString ->
  Forall (fun l => versionOf l = None) lines.
Proof.
  induction lines as [|l lines IH]; intros st E V; [ constructor | ].
  rewrite splitLines_cons in V.
  destruct (versionOf l) as [v|] eqn:Hl.
  - exfalso. pose proof (versionOf_nonempty _ _ Hl) as N.
    assert (E1 : version (splitLine st l) = v)
      by (rewrite splitLine_version, E, Hl; reflexivity).
    rewrite splitLines_version_fixed in V; congruence.
  - constructor; [ exact Hl | ].
    apply (IH (splitLine st l)); [ | exact V ].
    rewrite splitLine_version, E, Hl. reflexivity.
Qed.

Lemma processStatements_version (l : list statementInfo) : forall schema schema',
  processStatements l schema = Some schema' ->
  PgVersion schema' = PgVersion schema.
Proof.
  intros schema schema' H. apply processStatements_grows in H.
  destruct H as (_ & _ & _ & _ & _ & _ & _ & V). exact V.
Qed.

(** X17.  From the dump to the report: the version check of a parsed dump
    says that the version could not be determined exactly when no line of
    the dump is a comment with the words Dumped from database version and a
    version after them. *)
Theorem version_unknown_iff_no_header (data : string) (model : ParsedSchema)
        (checkName category : string) :
  ParseDump data = Some model ->
  (checkPgVersion model checkName category = [versionUnknown checkName category]
   <-> Forall (fun l => versionOf l = None) (Split data "010")).
Proof.
  unfold ParseDump. intros H.
  apply processStatements_version in H.
  unfold splitStatements in H. cbn [snd with_PgVersion PgVersion] in H.
  set (st0 := mkSeg [] [] false EmptyString "public" (PgVersion emptySchema)) in H.
  assert (U : checkPgVersion model checkName category
              = [versionUnknown checkName category]
              <-> PgVersion model = EmptyString).
  { unfold checkPgVersion. cbv zeta. split.
    - destruct (String.eqb (PgVersion model) EmptyString) eqn:E;
        [ intros _; now apply String.eqb_eq | ].
      destruct (FindStringSubmatch reMajor (PgVersion model)).
      + destruct (negb _); intros X; inversion X.
      + intros X. inversion X.
    - intros ->. reflexivity. }
  rewrite U, H. split.
  - apply splitLines_some_version. reflexivity.
  - apply splitLines_no_version. reflexivity.
Qed.

Lemma version_unknown_iff_no_header_witness :
  exists model,
    ParseDump two_tables_dump = Some model
    /\ (checkPgVersion model "pg_version" "config"
        = [versionUnknown "pg_version" "config"]
        <-> Forall (fun l => versionOf l = None) (Split two_tables_dump "010")).
Proof.
  destruct (ParseDump two_tables_dump) as [model|] eqn:E;
    [ | vm_compute in E; discriminate E ].
  exists model. split; [ reflexivity | ].
  apply (version_unknown_iff_no_header two_tables_dump model). exact E.
Defined.

(** ** [unquote] on a quoted identifier *)

Lemma from_app_length (a b : string) : from (String.length a) (a ++ b) = b.
Proof. induction a as [|x a IH]; simpl; [ now destruct b | exact IH ]. Qed.

Lemma substring_0_app (a b : string) : substring 0 (String.length a) (a ++ b) = a.
Proof.
  induction a as [|x a IH]; simpl; [ now destruct b | now rewrite IH ].
Qed.

Lemma HasSuffix_app (a suf : string) : HasSuffix (a ++ suf) suf = true.
Proof.
  unfold HasSuffix, len. rewrite length_append.
  replace (String.length a + String.length suf - String.length suf)
    with (String.length a) by lia.
  rewrite from_app_length, String.eqb_refl.
  apply andb_true_iff. split; [ apply Nat.leb_le; lia | reflexivity ].
Qed.

(** X18.  [unquote] undoes quoting: an identifier put between two double
    quotes comes back as it was, whatever its bytes. *)
Theorem unquote_quoted (s : string) :
  unquote (dquote ++ s ++ dquote) = Some s.
Proof.
  unfold unquote.
  replace (HasPrefix (dquote ++ s ++ dquote) dquote) with true
    by (unfold dquote; simpl append; rewrite HasPrefix_cons, HasPrefix_nil,
        Ascii.eqb_refl; reflexivity).
  replace (dquote ++ s ++ dquote)%string with ((dquote ++ s) ++ dquote)%string
    by apply append_assoc.
  rewrite HasSuffix_app. simpl andb. cbv iota.
  unfold go_slice, len. rewrite !length_append.
  change (String.length dquote) with 1.
  replace ((0 <=? 1) && (1 <=? Z.of_nat (1 + String.length s + 1) - 1)
           && (Z.of_nat (1 + String.length s + 1) - 1
               <=? Z.of_nat (1 + String.length s + 1)))%Z with true
    by (symmetry; rewrite !andb_true_iff, !Z.leb_le; lia).
  f_equal. unfold slice.
  replace (Z.to_nat (Z.of_nat (1 + String.length s + 1) - 1) - Z.to_nat 1)
    with (String.length s) by lia.
  change (Z.to_nat 1) with 1.
  rewrite append_assoc. unfold dquote at 1. simpl append.
  change (substring 1 (String.length s) (String dquote_char (s ++ dquote)))
    with (substring 0 (String.length s) (s ++ dquote)).
  apply substring_0_app.
Qed.

(** ** [extractParenContent] without a pair of parentheses *)

Lemma extractParenContent_loop_unopened (text : string) (rs : list (Z * nat)) :
  forall i depth,
  lacks 0x28 rs = true ->
  extractParenContent_loop text rs i depth (-1) = EmptyString.
Proof.
  induction rs as [|[ch w] rs IH]; intros i depth L; [ reflexivity | ].
  simpl in L. apply andb_true_iff in L as [N L]. apply negb_true_iff in N.
  simpl in N. simpl. rewrite N.
  destruct (ch =? 41)%Z.
  - rewrite andb_false_r. now apply IH.
  - now apply IH.
Qed.

Lemma extractParenContent_loop_unclosed (text : string) (rs : list (Z * nat)) :
  forall i depth start,
  lacks 0x29 rs = true ->
  extractParenContent_loop text rs i depth start = EmptyString.
Proof.
  induction rs as [|[ch w] rs IH]; intros i depth start L; [ reflexivity | ].
  simpl in L. apply andb_true_iff in L as [N L]. apply negb_true_iff in N.
  simpl in N. simpl. rewrite N.
  destruct (ch =? 40)%Z; now apply IH.
Qed.

(** X19.  [extractParenContent] returns the empty string for a text without
    an opening parenthesis and for a text without a closing one. *)
Theorem extractParenContent_without_pair (text : string) :
  lacks 0x28 (runes text) = true \/ lacks 0x29 (runes text) = true ->
  extractParenContent text = EmptyString.
Proof.
  unfold extractParenContent. intros [L | L].
  - now apply extractParenContent_loop_unopened.
  - now apply extractParenContent_loop_unclosed.
Qed.

Lemma extractParenContent_without_pair_witness :
  extractParenContent "CREATE TABLE public.t (id integer" = EmptyString.
Proof.
  apply (extractParenContent_without_pair "CREATE TABLE public.t (id integer").
  right. reflexivity.
Defined.

(** ** Plain names *)

Lemma nameByte_spec (c : ascii) :
  nameByte c = true ->
  (byte_val c < 0x80)%Z /\ IsSpace (byte_val c) = false
  /\ byte_val c <> 0x20%Z /\ byte_val c <> 0x22%Z /\ byte_val c <> 0x28%Z
  /\ byte_val c <> 0x29%Z /\ byte_val c <> 0x2C%Z.
Proof.
  unfold nameByte, IsWordChar. intros H.
  assert (R : (0x30 <= byte_val c <= 0x39 \/ 0x41 <= byte_val c <= 0x5A
               \/ byte_val c = 0x5F \/ 0x61 <= byte_val c <= 0x7A)%Z).
  { rewrite !orb_true_iff, !andb_true_iff, !Z.leb_le, Z.eqb_eq in H. lia. }
  repeat split; try lia.
  unfold IsSpace.
  repeat match goal with
         | |- _ || _ = false => apply orb_false_iff; split
         | |- _ && _ = false => apply andb_false_iff
         end;
    try (apply Z.eqb_neq; lia);
    first [ left; apply Z.leb_gt; lia | right; apply Z.leb_gt; lia ].
Qed.

Lemma eqb_byte (c d : ascii) : byte_val c <> byte_val d -> Ascii.eqb c d = false.
Proof.
  intros N. destruct (Ascii.eqb c d) eqn:E; [ | reflexivity ].
  apply Ascii.eqb_eq in E. now subst.
Qed.

Lemma plain_Split (sep : ascii) (s : string) :
  (forall c, nameByte c = true -> Ascii.eqb c sep = false) ->
  allBytes nameByte s = true -> Split s sep = [s].
Proof.
  intros S. induction s as [|c s IH]; intros A; [ reflexivity | ].
  simpl in A. apply andb_true_iff in A as [C A].
  rewrite Split_cons, (S c C), (IH A). reflexivity.
Qed.

Lemma name_not_comma (c : ascii) : nameByte c = true -> Ascii.eqb c "," = false.
Proof.
  intros H. apply eqb_byte. destruct (nameByte_spec c H) as (_ & _ & _ & _ & _ & _ & N).
  exact N.
Qed.

Lemma plain_no_quote (s : string) :
  allBytes nameByte s = true -> Index s dquote = None.
Proof.
  induction s as [|c s IH]; intros A; [ reflexivity | ].
  simpl in A. apply andb_true_iff in A as [C A].
  unfold dquote. rewrite Index_char_cons.
  replace (Ascii.eqb dquote_char c) with false.
  - unfold dquote in IH. now rewrite (IH A).
  - symmetry. rewrite Ascii.eqb_sym. apply eqb_byte.
    destruct (nameByte_spec c C) as (_ & _ & _ & N & _). exact N.
Qed.

(** ** [TrimSpace] on a text with plain ends *)

Lemma substring_all (s : string) : substring 0 (String.length s) s = s.
Proof. induction s as [|c s IH]; simpl; [ reflexivity | now rewrite IH ]. Qed.

Lemma lastByte_split (s : string) (c : ascii) :
  lastByte s = Some c -> exists t, s = (t ++ String c EmptyString)%string.
Proof.
  induction s as [|x s IH]; [ discriminate | ].
  destruct s as [|y s].
  - intros [= ->]. now exists EmptyString.
  - intros H. destruct (IH H) as [t ->]. now exists (String x t).
Qed.

Lemma lastByte_app (a b : string) :
  b <> EmptyString -> lastByte (a ++ b) = lastByte b.
Proof.
  intros N. induction a as [|x a IH]; [ reflexivity | ].
  simpl append. destruct (a ++ b)%string eqn:E.
  - destruct a; [ simpl in E; contradiction | discriminate ].
  - exact IH.
Qed.

Lemma TrimSpace_ends (c0 : ascii) (t : string) (c : ascii) :
  (byte_val c0 < 0x80)%Z -> IsSpace (byte_val c0) = false ->
  (byte_val c < 0x80)%Z -> IsSpace (byte_val c) = false ->
  lastByte (String c0 t) = Some c ->
  TrimSpace (String c0 t) = String c0 t.
Proof.
  intros A0 S0 A S L. unfold TrimSpace.
  rewrite (runes_ascii_cons c0 t A0). cbn [leading]. rewrite S0.
  cbn [from]. cbv zeta.
  destruct (lastByte_split _ _ L) as [t' E].
  rewrite E at 2.
  rewrite (runes_app_ascii t' c EmptyString A).
  rewrite (runes_ascii_cons c EmptyString A).
  change (runes EmptyString) with (@nil (Z * nat)).
  rewrite rev_app_distr. cbn [rev app leading]. rewrite S.
  unfold slice, len. rewrite !Nat.sub_0_r. apply substring_all.
Qed.

Lemma TrimSpace_blank_first (s : string) :
  TrimSpace (String " " s) = TrimSpace s.
Proof.
  unfold TrimSpace.
  rewrite (runes_ascii_cons " " s) by (vm_compute; reflexivity).
  cbn [leading]. change (IsSpace (byte_val " ")) with true. cbv iota.
  reflexivity.
Qed.

Lemma plain_ends (s : string) :
  plainName s ->
  exists c0 t c,
    s = String c0 t /\ nameByte c0 = true
    /\ lastByte s = Some c /\ nameByte c = true.
Proof.
  intros [N A]. destruct s as [|c0 t]; [ contradiction | ].
  simpl in A. apply andb_true_iff in A as [C0 A].
  assert (L : exists c, lastByte (String c0 t) = Some c /\ nameByte c = true).
  { clear N. revert c0 C0. induction t as [|x t IH]; intros c0 C0.
    - exists c0. now split.
    - simpl in A. apply andb_true_iff in A as [Cx A].
      destruct (IH A x Cx) as (c & L & Cc). exists c. split; [ exact L | exact Cc ]. }
  destruct L as (c & L & Cc). exists c0, t, c. repeat split; assumption.
Qed.

Lemma TrimSpace_plain (s : string) : plainName s -> TrimSpace s = s.
Proof.
  intros P. destruct (plain_ends s P) as (c0 & t & c & -> & C0 & L & C).
  destruct (nameByte_spec c0 C0) as (A0 & S0 & _).
  destruct (nameByte_spec c C) as (A1 & S1 & _).
  now apply (TrimSpace_ends c0 t c).
Qed.

(** ** [parseColumnList] *)

Lemma parseColumnList_loop_plain (pieces : list string) : forall names cols,
  Forall2 (fun p n => TrimSpace p = n /\ plainName n) pieces names ->
  parseColumnList_loop pieces cols = Some (cols ++ names).
Proof.
  induction pieces as [|p pieces IH]; intros names cols F;
    inversion F as [|? n ? names' [T P] F']; subst.
  - simpl. now rewrite app_nil_r.
  - simpl. destruct P as [N A].
    apply String.eqb_neq in N. rewrite N. simpl.
    rewrite (unquote_plain _ (plain_no_quote _ A)).
    rewrite (IH names' _ F'). now rewrite <- app_assoc.
Qed.

Lemma Join_padded (names : list string) :
  Join names ", " = Join (padded names) ",".
Proof.
  destruct names as [|n rest]; [ reflexivity | ].
  revert n. induction rest as [|m rest IH]; intros n; [ reflexivity | ].
  change (Join (n :: m :: rest) ", ")
    with (n ++ ", " ++ Join (m :: rest) ", ")%string.
  rewrite IH.
  change (padded (n :: m :: rest))
    with (n :: String " " m :: map (fun m => String " " m) rest).
  change (Join (n :: String " " m :: map (fun m => String " " m) rest) ",")
    with (n ++ "," ++ Join (String " " m :: map (fun m => String " " m) rest) ",")%string.
  f_equal. simpl padded.
  destruct rest as [|m2 rest]; reflexivity.
Qed.

Lemma padded_pieces (names : list string) :
  Forall plainName names ->
  Forall (fun p => Split p "," = [p]) (padded names)
  /\ Forall2 (fun p n => TrimSpace p = n /\ plainName n) (padded names) names.
Proof.
  intros F. destruct F as [|n rest P F]; [ split; constructor | ].
  simpl padded. split.
  - constructor.
    + apply plain_Split; [ apply name_not_comma | apply P ].
    + induction F as [|m rest Pm F IH]; simpl; constructor; [ | exact IH ].
      rewrite Split_cons. change (Ascii.eqb " " ",") with false. cbv iota.
      rewrite (plain_Split "," m name_not_comma (proj2 Pm)). reflexivity.
  - constructor; [ split; [ now apply TrimSpace_plain | exact P ] | ].
    induction F as [|m rest Pm F IH]; simpl; constructor; [ | exact IH ].
    split; [ | exact Pm ].
    rewrite TrimSpace_blank_first. now apply TrimSpace_plain.
Qed.

Lemma parseColumnList_pieces (names : list string) :
  Forall plainName names ->
  parseColumnList_loop (Split (Join names ", ") ",") [] = Some names.
Proof.
  intros F. destruct names as [|n rest] eqn:E; [ reflexivity | ].
  rewrite <- E in *. destruct (padded_pieces names F) as [S T].
  rewrite Join_padded, Split_Join; [ | subst; discriminate | exact S ].
  now rewrite (parseColumnList_loop_plain _ _ [] T).
Qed.

Lemma Join_plain_ends (names : list string) :
  Forall plainName names -> names <> [] ->
  exists c0 t c,
    Join names ", " = String c0 t /\ nameByte c0 = true
    /\ lastByte (Join names ", ") = Some c /\ nameByte c = true.
Proof.
  intros F N. destruct F as [|n rest P F]; [ contradiction | ]. clear N.
  revert n P. induction F as [|m rest Pm F IH]; intros n P.
  - simpl. apply plain_ends. exact P.
  - destruct (IH m Pm) as (d0 & u & d & E & D0 & L & D).
    destruct (plain_ends n P) as (c0 & t & c & -> & C0 & _ & _).
    change (Join (String c0 t :: m :: rest) ", ")
      with (String c0 t ++ ", " ++ Join (m :: rest) ", ")%string.
    exists c0, (t ++ ", " ++ Join (m :: rest) ", ")%string, d.
    repeat split; try assumption.
    rewrite lastByte_app by discriminate.
    change (", " ++ Join (m :: rest) ", ")%string
      with (String "," (String " " (Join (m :: rest) ", "))).
    rewrite E in *. exact L.
Qed.

Lemma HasSuffix_char_last (s : string) (q : ascii) :
  HasSuffix s (String q EmptyString)
  = match lastByte s with Some c => Ascii.eqb c q | None => false end.
Proof.
  induction s as [|x s IH]; [ reflexivity | ].
  rewrite HasSuffix_char_cons. destruct s as [|y s]; [ reflexivity | exact IH ].
Qed.

(** X20.  [parseColumnList] gives back the names of a column list: for
    names made of ASCII letters, digits and underscores, joined by a comma
    and a blank, the result is the list of the names, with or without
    parentheses around the list. *)
Theorem parseColumnList_round_trip (names : list string) :
  Forall plainName names ->
  parseColumnList (Join names ", ") = Some names
  /\ parseColumnList ("(" ++ Join names ", " ++ ")") = Some names.
Proof.
  intros F. destruct names as [|n0 rest0] eqn:EN; [ split; reflexivity | ].
  rewrite <- EN in *. assert (NE : names <> []) by (subst; discriminate).
  destruct (Join_plain_ends names F NE) as (c0 & t & c & E & C0 & L & C).
  destruct (nameByte_spec c0 C0) as (A0 & S0 & _ & _ & O0 & _).
  destruct (nameByte_spec c C) as (A1 & S1 & _ & _ & _ & O1 & _).
  pose proof (parseColumnList_pieces names F) as R.
  split.
  - unfold parseColumnList. cbv zeta.
    rewrite E, (TrimSpace_ends c0 t c A0 S0 A1 S1) by (rewrite <- E; exact L).
    unfold TrimPrefix. rewrite HasPrefix_cons.
    replace (Ascii.eqb "(" c0) with false
      by (symmetry; rewrite Ascii.eqb_sym; apply eqb_byte; exact O0).
    cbn [andb]. unfold TrimSuffix. rewrite HasSuffix_char_last.
    rewrite <- E, L.
    replace (Ascii.eqb c ")") with false by (symmetry; apply eqb_byte; exact O1).
    exact R.
  - unfold parseColumnList. cbv zeta.
    change ("(" ++ Join names ", " ++ ")")%string
      with (String "(" (Join names ", " ++ ")")).
    rewrite (TrimSpace_ends "(" (Join names ", " ++ ")") ")");
      [ | vm_compute; reflexivity | reflexivity | vm_compute; reflexivity
        | reflexivity | ].
    + unfold TrimPrefix. cbn [HasPrefix]. rewrite Ascii.eqb_refl, HasPrefix_nil.
      cbn [andb len String.length from].
      unfold TrimSuffix. rewrite HasSuffix_app. unfold slice, len.
      rewrite length_append. cbn [String.length].
      replace (String.length (Join names ", ") + 1 - 1 - 0)
        with (String.length (Join names ", ")) by lia.
      rewrite substring_0_app. exact R.
    + change (String "(" (Join names ", " ++ ")"))
        with (("(" ++ Join names ", ") ++ ")")%string.
      rewrite lastByte_app by discriminate. reflexivity.
Qed.

Lemma parseColumnList_round_trip_witness :
  parseColumnList (Join ["customer_id"; "at"] ", ") = Some ["customer_id"; "at"]
  /\ parseColumnList ("(" ++ Join ["customer_id"; "at"] ", " ++ ")")
     = Some ["customer_id"; "at"].
Proof.
  apply (parseColumnList_round_trip ["customer_id"; "at"]).
  repeat constructor; discriminate.
Defined.

(** ** [RunAnalyze] *)

Import Run.

Section RunProperties.

Variable given : string -> CheckFunc.
Variable Time : Type.
Variable now : Time.

Lemma runChecks_results (schema : ParsedSchema) (verbose : bool) (n : nat)
      (checks : list CheckDef) : forall i,
  Forall2 (resultOf schema) checks (snd (runChecks schema verbose n i checks)).
Proof.
  induction checks as [|check checks IH]; intros i; simpl; constructor;
    [ | apply IH ].
  unfold runCheck, resultOf.
  destruct (Fn check schema (Name check) (Category check)); simpl; repeat split.
Qed.

Lemma runChecks_quiet (schema : ParsedSchema) (n : nat) (checks : list CheckDef) :
  forall i,
  fst (runChecks schema false n i checks) = []
  /\ forall verbose,
       snd (runChecks schema verbose n i checks)
       = snd (runChecks schema false n i checks).
Proof.
  induction checks as [|check checks IH]; intros i; simpl;
    [ split; reflexivity | ].
  destruct (IH (S i)) as [Q S]. rewrite Q. split.
  - unfold runCheck. destruct (Fn check _ _ _); reflexivity.
  - intros verbose. rewrite (S verbose). f_equal.
    unfold runCheck. destruct (Fn check _ _ _); reflexivity.
Qed.

Lemma selected_wanted (categories : list string) (category : string) :
  selected (catFilter categories) category = true <-> wanted categories category.
Proof.
  unfold catFilter, selected, wanted, member.
  destruct categories as [|c cs]; cbn [List.length Nat.ltb Nat.leb].
  - split; [ now left | reflexivity ].
  - rewrite existsb_exists. split.
    + intros (x & I & E). apply String.eqb_eq in E. subst. now right.
    + intros [D | I]; [ discriminate | ].
      exists category. split; [ exact I | apply String.eqb_refl ].
Qed.

(** X21.  The results of [RunAnalyze] are, in the order of the two tables,
    one result for each static check of a wanted category and then one
    skipped result for each live check of a wanted category; every category
    is wanted when none is asked for, which gives 56 results.  The result of
    a static check holds the findings its function returned, or no finding
    and the panic as its error: a check that panics stops no other check. *)
Theorem RunAnalyze_results (schema : ParsedSchema) (filePath : string)
        (categories : list string) (verbose : bool) :
  let report := snd (fst (RunAnalyze given Time now schema filePath categories verbose)) in
  exists ran skipped,
    ScanReport.Results report = ran ++ skipped
    /\ Forall2 (resultOf schema)
               (filter (fun check => selected (catFilter categories) (Category check))
                       (StaticChecks given))
               ran
    /\ Forall2 skippedOf
               (filter (fun skip => selected (catFilter categories) (SkippedCategory skip))
                       SkippedChecks)
               skipped
    /\ Forall (fun r => wanted categories (CheckResult.Category r))
              (ScanReport.Results report)
    /\ (categories = [] -> List.length (ScanReport.Results report) = 56).
Proof.
  cbv zeta. unfold RunAnalyze. cbv zeta. cbn [fst snd ScanReport.Results].
  set (checks := filter _ (StaticChecks given)).
  set (skips := filter _ SkippedChecks).
  exists (snd (runChecks schema verbose (List.length checks) 0 checks)),
         (map skippedResult skips).
  assert (R : Forall2 (resultOf schema) checks
                (snd (runChecks schema verbose (List.length checks) 0 checks)))
    by apply runChecks_results.
  assert (S : Forall2 skippedOf skips (map skippedResult skips)).
  { clear. induction skips as [|s skips IH]; simpl; constructor; [ | exact IH ].
    unfold skippedOf, skippedResult. simpl. repeat split. }
  split; [ reflexivity | ]. split; [ exact R | ]. split; [ exact S | ].
  split.
  - apply Forall_app. split.
    + assert (W : Forall (fun check => wanted categories (Category check)) checks).
      { apply Forall_forall. intros check I. apply filter_In in I as [_ I].
        now apply selected_wanted. }
      clear - R W. induction R as [|check r checks rs H R IH]; constructor.
      * inversion W; subst. destruct H as (_ & -> & _). assumption.
      * apply IH. now inversion W.
    + apply Forall_forall. intros r I. apply in_map_iff in I as (s & <- & I).
      apply filter_In in I as [_ I]. simpl. now apply selected_wanted.
  - intros ->. subst checks skips. rewrite length_app, length_map.
    apply Forall2_length in R. rewrite <- R. reflexivity.
Qed.

(** X22.  The flag [verbose] changes what [RunAnalyze] writes and nothing
    else: without it nothing is written, with it the report is the same, and
    the error is nil either way. *)
Theorem RunAnalyze_verbose_only_writes (schema : ParsedSchema)
        (filePath : string) (categories : list string) (verbose : bool) :
  fst (fst (RunAnalyze given Time now schema filePath categories false)) = []
  /\ snd (fst (RunAnalyze given Time now schema filePath categories verbose))
     = snd (fst (RunAnalyze given Time now schema filePath categories false))
  /\ snd (RunAnalyze given Time now schema filePath categories verbose) = None.
Proof.
  unfold RunAnalyze. cbv zeta. cbn [fst snd].
  set (checks := filter _ (StaticChecks given)).
  destruct (runChecks_quiet schema (List.length checks) checks 0) as [Q S].
  split; [ | split ].
  - rewrite Q. reflexivity.
  - rewrite (S verbose). reflexivity.
  - reflexivity.
Qed.

(** *** The name of the database *)

Lemma Ext_loop_suffix (path : string) (n : nat) :
  n <= String.length path ->
  Filepath.Ext_loop path n = EmptyString
  \/ exists i, i < String.length path /\ Filepath.Ext_loop path n = from i path.
Proof.
  induction n as [|i IH]; intros L; [ now left | ].
  simpl. destruct (String.get i path); [ | now left ].
  destruct (Filepath.IsPathSeparator a); [ now left | ].
  destruct (Ascii.eqb a "."); [ right; exists i; split; [ lia | reflexivity ] | ].
  apply IH. lia.
Qed.

Lemma length_from (s : string) : forall i,
  i <= String.length s -> String.length (from i s) = String.length s - i.
Proof.
  induction s as [|c s IH]; intros [|i] L; simpl in *; try lia.
  apply IH. lia.
Qed.


End RunProperties.

(** ** Texts without a double quote *)

Lemma allBytes_app (f : ascii -> bool) (a b : string) :
  allBytes f (a ++ b) = allBytes f a && allBytes f b.
Proof.
  induction a as [|c a IH]; simpl; [ reflexivity | ].
  now rewrite IH, andb_assoc.
Qed.

Lemma allBytes_substring (f : ascii -> bool) (s : string) : forall n m,
  allBytes f s = true -> allBytes f (substring n m s) = true.
Proof.
  induction s as [|c s IH]; intros n m A.
  - destruct n, m; reflexivity.
  - simpl in A. apply andb_true_iff in A as [C A].
    destruct n as [|n]; destruct m as [|m]; simpl; try reflexivity.
    + rewrite C. now apply IH.
    + now apply IH.
    + now apply IH.
Qed.

Lemma allBytes_from (f : ascii -> bool) (s : string) : forall k,
  allBytes f s = true -> allBytes f (from k s) = true.
Proof.
  induction s as [|c s IH]; intros [|k] A; simpl; try exact A.
  simpl in A. apply andb_true_iff in A as [_ A]. now apply IH.
Qed.

Lemma noQuote_slice (s : string) (a b : nat) : noQuote s -> noQuote (slice a b s).
Proof. apply allBytes_substring. Qed.

Lemma noQuote_from (s : string) (k : nat) : noQuote s -> noQuote (from k s).
Proof. apply allBytes_from. Qed.

Lemma noQuote_TrimSpace (s : string) : noQuote s -> noQuote (TrimSpace s).
Proof. intros H. unfold TrimSpace. apply noQuote_slice, noQuote_from, H. Qed.

Lemma noQuote_TrimPrefix (s p : string) : noQuote s -> noQuote (TrimPrefix s p).
Proof.
  intros H. unfold TrimPrefix. destruct (HasPrefix s p); [ | exact H ].
  now apply noQuote_from.
Qed.

Lemma noQuote_TrimSuffix (s p : string) : noQuote s -> noQuote (TrimSuffix s p).
Proof.
  intros H. unfold TrimSuffix. destruct (HasSuffix s p); [ | exact H ].
  now apply noQuote_slice.
Qed.

Lemma noQuote_append (a b : string) : noQuote a -> noQuote b -> noQuote (a ++ b).
Proof. unfold noQuote. intros A B. now rewrite allBytes_app, A, B. Qed.

Lemma noQuote_Split (sep : ascii) (s : string) :
  noQuote s -> Forall noQuote (Split s sep).
Proof.
  unfold noQuote. induction s as [|c s IH]; intros A; [ repeat constructor | ].
  simpl in A. apply andb_true_iff in A as [C A]. specialize (IH A).
  rewrite Split_cons. destruct (Ascii.eqb c sep).
  - constructor; [ reflexivity | exact IH ].
  - destruct (Split s sep) as [|x r]; [ constructor | ].
    inversion IH; subst. constructor; [ | assumption ].
    simpl. now rewrite C.
Qed.

Lemma noQuote_Join (sep : string) (l : list string) :
  noQuote sep -> Forall noQuote l -> noQuote (Join l sep).
Proof.
  intros S F. induction F as [|x l X F IH]; [ reflexivity | ].
  destruct l as [|y l]; [ exact X | ].
  change (Join (x :: y :: l) sep) with (x ++ sep ++ Join (y :: l) sep)%string.
  repeat apply noQuote_append; assumption.
Qed.

Lemma noQuote_group (s : string) (loc : caps) (i : nat) :
  noQuote s -> noQuote (group_text s loc i).
Proof.
  intros H. unfold group_text. destruct (get_cap i loc) as [[a b]|];
    [ now apply noQuote_slice | reflexivity ].
Qed.

Lemma noQuote_sub (re : regex) (s : string) (loc : caps) (i : nat) :
  noQuote s -> noQuote (sub (submatches re s loc) i).
Proof.
  intros H. unfold sub, submatches.
  destruct (nth_in_or_default i (map (group_text s loc) (seq 0 (S (ngroups re))))
                              EmptyString) as [I | ->]; [ | reflexivity ].
  apply in_map_iff in I as (j & <- & _). now apply noQuote_group.
Qed.

Lemma noQuote_match (re : regex) (s : string) (m : list string) (i : nat) :
  FindStringSubmatch re s = Some m -> noQuote s -> noQuote (sub m i).
Proof.
  unfold FindStringSubmatch. destruct (FindStringSubmatchIndex re s) as [loc|];
    [ | discriminate ].
  intros [= <-]. apply noQuote_sub.
Qed.

Lemma noQuote_extractParenContent_loop (text : string) (rs : list (Z * nat)) :
  forall i depth start,
  noQuote text -> noQuote (extractParenContent_loop text rs i depth start).
Proof.
  induction rs as [|[ch w] rs IH]; intros i depth start H; simpl;
    [ reflexivity | ].
  destruct (ch =? 40)%Z; [ now apply IH | ].
  destruct (ch =? 41)%Z; [ | now apply IH ].
  destruct (_ && _); [ now apply noQuote_slice | now apply IH ].
Qed.

Lemma noQuote_extractParenContent (text : string) :
  noQuote text -> noQuote (extractParenContent text).
Proof. apply noQuote_extractParenContent_loop. Qed.

(** the runes of such a text are written back without a double quote *)
Lemma noQuote_written (s : string) : forall skip,
  skip <= String.length s ->
  noQuote s ->
  Forall (fun rw => noQuote (EncodeRune (fst rw))) (runes_from skip s).
Proof.
  induction s as [|c s IH]; intros skip L H; [ constructor | ].
  assert (Hs : noQuote s)
    by (unfold noQuote in *; simpl in H; now apply andb_true_iff in H as [_ H]).
  destruct skip as [|k].
  - rewrite runes_from_0. constructor.
    + destruct (valid_token (DecodeRuneInString (String c s))) eqn:V.
      * destruct (decode_encode c s V) as [E _]. rewrite E.
        now apply allBytes_substring.
      * unfold valid_token in V. apply negb_false_iff in V.
        apply andb_true_iff in V as [V _]. apply Z.eqb_eq in V. rewrite V.
        reflexivity.
    + apply IH; [ | exact Hs ].
      pose proof (decode_width c s) as W. cbn [String.length] in W. lia.
  - rewrite runes_from_S. apply IH; [ simpl in L; lia | exact Hs ].
Qed.

Lemma noQuote_splitBodyParts_loop (rs : list (Z * nat)) :
  forall parts depth current,
  Forall (fun rw => noQuote (EncodeRune (fst rw))) rs ->
  Forall noQuote parts -> noQuote current ->
  Forall noQuote (splitBodyParts_loop rs parts depth current).
Proof.
  induction rs as [|[ch w] rs IH]; intros parts depth current R P C; simpl.
  - destruct (0 <? len current)%nat; [ | exact P ].
    apply Forall_app. split; [ exact P | now constructor ].
  - inversion R as [|? ? E R']; subst. simpl in E.
    destruct (ch =? 40)%Z;
      [ apply IH; [ exact R' | exact P | now apply noQuote_append ] | ].
    destruct (ch =? 41)%Z;
      [ apply IH; [ exact R' | exact P | now apply noQuote_append ] | ].
    destruct (ch =? 44)%Z;
      [ | apply IH; [ exact R' | exact P | now apply noQuote_append ] ].
    destruct (depth =? 0)%Z.
    + apply IH; [ exact R' | | reflexivity ].
      apply Forall_app. split; [ exact P | now constructor ].
    + apply IH; [ exact R' | exact P | now apply noQuote_append ].
Qed.

Lemma noQuote_splitBodyParts (body : string) :
  noQuote body -> Forall noQuote (splitBodyParts body).
Proof.
  intros H. unfold splitBodyParts.
  apply noQuote_splitBodyParts_loop; [ | constructor | reflexivity ].
  apply noQuote_written; [ lia | exact H ].
Qed.

(** ** No panic without a double quote *)

Lemma unquote_noQuote (s : string) : noQuote s -> unquote s = Some s.
Proof.
  intros H. unfold unquote.
  destruct (HasPrefix s dquote) eqn:P; [ | reflexivity ].
  apply HasPrefix_char in P as [t ->].
  unfold noQuote in H. simpl in H. discriminate.
Qed.

Lemma splitQualified_noQuote (name d : string) :
  noQuote name -> exists sn, splitQualified name d = Some sn.
Proof.
  intros H. unfold splitQualified. destruct (Index name ".") as [i|].
  - rewrite (unquote_noQuote _ (noQuote_slice _ _ _ H)).
    rewrite (unquote_noQuote _ (noQuote_from _ _ H)). now eexists.
  - rewrite (unquote_noQuote _ H). now eexists.
Qed.

Lemma parseColumnList_loop_noQuote (pieces : list string) : forall cols,
  Forall noQuote pieces -> exists l, parseColumnList_loop pieces cols = Some l.
Proof.
  induction pieces as [|p pieces IH]; intros cols F; simpl; [ now eexists | ].
  inversion F as [|? ? P F']; subst.
  destruct (negb (String.eqb (TrimSpace p) EmptyString)); [ | now apply IH ].
  rewrite (unquote_noQuote _ (noQuote_TrimSpace _ P)). now apply IH.
Qed.

Lemma parseColumnList_noQuote (text : string) :
  noQuote text -> exists l, parseColumnList text = Some l.
Proof.
  intros H. unfold parseColumnList. cbv zeta.
  apply parseColumnList_loop_noQuote, noQuote_Split, noQuote_TrimSuffix,
    noQuote_TrimPrefix, noQuote_TrimSpace, H.
Qed.

Lemma parseColumn_noQuote (line : string) :
  noQuote line -> parseColumn line <> None.
Proof.
  intros H. unfold parseColumn. cbv zeta.
  destruct (_ || _); [ discriminate | ].
  destruct (MatchString reTableConstraintKw _); [ discriminate | ].
  destruct (FindStringSubmatch reColumnLine _) as [m|] eqn:M; [ | discriminate ].
  rewrite (unquote_noQuote (sub m 1)).
  - destruct (constraintKeyword _); discriminate.
  - eapply noQuote_match; [ exact M | ].
    apply noQuote_TrimSuffix, noQuote_TrimSpace, H.
Qed.

Lemma inlineForeignKey_noQuote (conName rest : string) (tbl : TableDef.t)
      (sp : string) :
  noQuote rest -> inlineForeignKey conName rest tbl sp <> None.
Proof.
  intros H. unfold inlineForeignKey.
  destruct (parseColumnList_noQuote (extractParenContent rest)) as [cols ->];
    [ now apply noQuote_extractParenContent | ].
  destruct (FindStringSubmatch reFkReferences rest) as [ref|] eqn:R.
  - destruct (splitQualified_noQuote (sub ref 1) sp) as [rsn ->];
      [ eapply noQuote_match; eassumption | ].
    destruct (parseColumnList_noQuote (sub ref 2)) as [rc ->];
      [ eapply noQuote_match; eassumption | ].
    discriminate.
  - discriminate.
Qed.

Lemma parseInlineConstraint_noQuote (text : string) (tbl : TableDef.t)
      (sp : string) (schema : ParsedSchema) :
  noQuote text -> parseInlineConstraint text tbl sp schema <> None.
Proof.
  intros H. unfold parseInlineConstraint.
  assert (N : exists conName rest,
             match FindStringSubmatch reConstraintName text with
             | Some m =>
               match unquote (sub m 1) with
               | Some conName => Some (conName, from (len (sub m 0)) text)
               | None => None
               end
             | None => Some (EmptyString, text)
             end = Some (conName, rest) /\ noQuote rest).
  { destruct (FindStringSubmatch reConstraintName text) as [m|] eqn:M.
    - rewrite (unquote_noQuote (sub m 1)) by (eapply noQuote_match; eassumption).
      eexists _, _. split; [ reflexivity | now apply noQuote_from ].
    - eexists _, _. split; [ reflexivity | exact H ]. }
  destruct N as (conName & rest & -> & Hr). cbn [fst snd].
  destruct (HasPrefix _ "PRIMARY KEY").
  { destruct (parseColumnList_noQuote (extractParenContent rest)) as [cols ->];
      [ now apply noQuote_extractParenContent | discriminate ]. }
  destruct (HasPrefix _ "UNIQUE").
  { destruct (parseColumnList_noQuote (extractParenContent rest)) as [cols ->];
      [ now apply noQuote_extractParenContent | discriminate ]. }
  destruct (HasPrefix _ "FOREIGN KEY"); [ | discriminate ].
  destruct (inlineForeignKey conName rest tbl sp) eqn:F; [ discriminate | ].
  now apply inlineForeignKey_noQuote in F.
Qed.

Lemma parseTableBody_loop_noQuote (parts : list string) : forall tbl sp schema,
  Forall noQuote parts -> parseTableBody_loop parts tbl sp schema <> None.
Proof.
  induction parts as [|part parts IH]; intros tbl sp schema F; simpl;
    [ discriminate | ].
  inversion F as [|? ? P F']; subst.
  destruct (String.eqb (TrimSpace part) EmptyString); [ now apply IH | ].
  destruct (MatchString reTableConstraintKw (TrimSpace part)).
  - destruct (parseInlineConstraint _ _ _ _) eqn:E; [ now apply IH | ].
    apply parseInlineConstraint_noQuote in E; [ contradiction | ].
    now apply noQuote_TrimSpace.
  - destruct (parseColumn (TrimSpace part)) as [[c|]|] eqn:E;
      [ now apply IH | now apply IH | ].
    apply parseColumn_noQuote in E; [ contradiction | ].
    now apply noQuote_TrimSpace.
Qed.

Ltac total_calls H :=
  repeat match goal with
         | |- context [unquote (sub (submatches ?re ?s ?loc) ?i)] =>
           rewrite (unquote_noQuote (sub (submatches re s loc) i))
             by (apply noQuote_sub; exact H)
         | |- context [splitQualified (sub (submatches ?re ?s ?loc) ?i) ?d] =>
           let sn := fresh "sn" in
           let E := fresh "E" in
           destruct (splitQualified_noQuote (sub (submatches re s loc) i) d
                                            (noQuote_sub re s loc i H))
             as [sn E];
           rewrite E; clear E
         end.

Lemma processStatement_noQuote (stmt sp : string) (schema : ParsedSchema) :
  noQuote stmt -> processStatement stmt sp schema <> None.
Proof.
  intros H. unfold processStatement. destruct (recognise stmt) as
    [loc|loc|loc|loc|loc|loc|loc|loc|loc|loc|].
  - unfold doCreateExtension. cbv zeta. total_calls H.
    destruct (negb (String.eqb _ EmptyString)); destruct (negb (excludedSchemas _));
      discriminate.
  - unfold doCreateTypeEnum. cbv zeta. total_calls H.
    destruct (negb (excludedSchemas _)); discriminate.
  - unfold doCreateSequence. cbv zeta. total_calls H.
    destruct (negb (excludedSchemas _)); discriminate.
  - unfold doCreateTable. cbv zeta.
    destruct (negb (MatchString reCreateLead stmt)); [ discriminate | ].
    total_calls H.
    destruct (excludedSchemas (fst sn)); [ discriminate | ].
    destruct (negb (String.eqb (extractParenContent stmt) EmptyString)).
    + destruct (parseTableBody _ _ _ _) eqn:B; [ discriminate | ].
      unfold parseTableBody in B.
      apply parseTableBody_loop_noQuote in B; [ contradiction | ].
      apply noQuote_splitBodyParts, noQuote_extractParenContent, H.
    + discriminate.
  - unfold doAlterAddConstraint. cbv zeta. total_calls H.
    destruct (excludedSchemas (fst sn)); [ discriminate | ].
    set (afterType := from (cap_end loc 3) stmt).
    assert (Ha : noQuote afterType) by (now apply noQuote_from).
    assert (C : exists cols,
               (if negb (String.eqb (extractParenContent afterType) EmptyString)
                   && negb (String.eqb
                              (ToUpper (ReplaceAll (sub (submatches reAlterAddConstraint stmt loc) 3) "  " " "))
                              "EXCLUDE")
                then parseColumnList (extractParenContent afterType)
                else Some []) = Some cols).
    { destruct (_ && _); [ | now eexists ].
      apply parseColumnList_noQuote, noQuote_extractParenContent, Ha. }
    destruct C as [cols ->].
    destruct (String.eqb _ "FOREIGN KEY"); [ | discriminate ].
    destruct (FindStringSubmatch reFkReferences afterType) as [ref|] eqn:R;
      [ | discriminate ].
    destruct (splitQualified_noQuote (sub ref 1) sp) as [rsn ->];
      [ eapply noQuote_match; eassumption | ].
    destruct (parseColumnList_noQuote (sub ref 2)) as [rc ->];
      [ eapply noQuote_match; eassumption | ].
    discriminate.
  - unfold doCreateIndex. cbv zeta. total_calls H.
    destruct (excludedSchemas (fst sn)); [ discriminate | ].
    destruct (negb (String.eqb _ EmptyString)); [ | discriminate ].
    destruct (parseColumnList_noQuote
                (extractParenContent (from (cap_end loc 3) stmt))) as [cols ->];
      [ now apply noQuote_extractParenContent, noQuote_from | discriminate ].
  - unfold doAlterSetDefault. cbv zeta. total_calls H. discriminate.
  - unfold doAlterAddIdentity. cbv zeta. total_calls H. discriminate.
  - unfold doAlterSeqOwned. cbv zeta. total_calls H. discriminate.
  - unfold doCreateRule. cbv zeta. total_calls H.
    destruct (negb (excludedSchemas _)); discriminate.
  - discriminate.
Qed.

Lemma processStatements_noQuote (l : list statementInfo) : forall schema,
  Forall (fun si => noQuote (stmt si)) l -> processStatements l schema <> None.
Proof.
  induction l as [|x l IH]; intros schema F; simpl; [ discriminate | ].
  inversion F as [|? ? X F']; subst.
  destruct (processStatement _ _ _) eqn:E; [ now apply IH | ].
  now apply processStatement_noQuote in E.
Qed.

Lemma splitLines_noQuote (lines : list string) : forall st,
  Forall noQuote lines ->
  Forall (fun si => noQuote (stmt si)) (results st) ->
  Forall noQuote (buf st) ->
  Forall (fun si => noQuote (stmt si)) (results (splitLines lines st))
  /\ Forall noQuote (buf (splitLines lines st)).
Proof.
  induction lines as [|l lines IH]; intros st L R B; [ split; assumption | ].
  inversion L as [|? ? Hl L']; subst.
  rewrite splitLines_cons. apply IH; [ exact L' | | ].
  - destruct (skipped l) eqn:K.
    + destruct (splitLine_skipped st l K) as (-> & _). exact R.
    + rewrite (splitLine_kept st l K). cbv zeta.
      destruct (negb _ && HasSuffix _ _); cbn [results]; [ | exact R ].
      apply Forall_snoc; [ exact R | ]. cbn [stmt].
      apply noQuote_Join; [ reflexivity | ].
      apply Forall_app. split; [ exact B | now constructor ].
  - destruct (skipped l) eqn:K.
    + destruct (splitLine_skipped st l K) as (_ & -> & _). exact B.
    + rewrite (splitLine_kept st l K). cbv zeta.
      destruct (negb _ && HasSuffix _ _); cbn [buf]; [ constructor | ].
      apply Forall_app. split; [ exact B | now constructor ].
Qed.

Lemma Contains_noQuote (s : string) : Contains s dquote = false -> noQuote s.
Proof.
  intros H. apply Contains_false in H. unfold noQuote, dquote in *.
  induction s as [|c s IH]; [ reflexivity | ].
  rewrite Index_char_cons in H. simpl. unfold notQuote at 1.
  rewrite Ascii.eqb_sym.
  destruct (Ascii.eqb dquote_char c); [ discriminate | ]. simpl.
  apply IH. destruct (Index s _); [ discriminate | reflexivity ].
Qed.

(** X24.  [ParseDump] does not panic on a dump that holds no double quote:
    it returns a model. *)
Theorem ParseDump_total_without_quotes (data : string) :
  Contains data dquote = false ->
  exists model, ParseDump data = Some model.
Proof.
  intros H. apply Contains_noQuote in H.
  destruct (ParseDump data) as [model|] eqn:E; [ now exists model | ].
  exfalso. unfold ParseDump in E. cbv zeta in E.
  apply processStatements_noQuote in E; [ exact E | ].
  unfold splitStatements. cbv zeta. cbn [fst].
  set (st0 := mkSeg [] [] false EmptyString "public" (PgVersion emptySchema)).
  destruct (splitLines_noQuote (Split data "010") st0) as [R B];
    [ now apply noQuote_Split | constructor | constructor | ].
  unfold flush. destruct (0 <? _)%nat; [ | exact R ].
  apply Forall_snoc; [ exact R | ]. cbn [stmt].
  apply noQuote_Join; [ reflexivity | exact B ].
Qed.

Lemma ParseDump_total_without_quotes_witness :
  exists model, ParseDump mixed_dump = Some model.
Proof.
  apply (ParseDump_total_without_quotes mixed_dump). reflexivity.
Defined.

(** ** Exclusion constraints of a table body *)

Lemma processStatement_inlineKinds (stmt sp : string) (schema schema' : ParsedSchema) :
  addsConstraint (mkStmt stmt sp) = false ->
  processStatement stmt sp schema = Some schema' ->
  Forall inlineKind (Constraints schema) ->
  Forall inlineKind (Constraints schema').
Proof.
  unfold processStatement, addsConstraint. cbn [Parser.stmt]. intros N H F.
  destruct (recognise stmt) as [loc|loc|loc|loc|loc|loc|loc|loc|loc|loc|] eqn:R;
    try (match type of R with
         | _ = ?sh => apply (dispatch_writes sh stmt sp) in H
         end;
         simpl in H;
         first [ destruct H as (? & _ & ->) | destruct H as (? & -> & _)
               | subst schema' ];
         exact F).
  - apply doCreateTable_kinds in H as [-> | (tbl & cs & _ & -> & K)]; [ exact F | ].
    apply Forall_app. split; [ exact F | ].
    eapply Forall_impl; [ | exact K ]. intros c (_ & _ & T). exact T.
  - discriminate N.
Qed.

Lemma processStatements_inlineKinds (l : list statementInfo) : forall schema schema',
  existsb addsConstraint l = false ->
  processStatements l schema = Some schema' ->
  Forall inlineKind (Constraints schema) ->
  Forall inlineKind (Constraints schema').
Proof.
  induction l as [|x l IH]; intros schema schema' N H F; simpl in H.
  - now injection H as <-.
  - cbn [existsb] in N. apply orb_false_iff in N as [Nx N'].
    destruct (processStatement _ _ _) as [mid|] eqn:E; [ | discriminate ].
    eapply IH; [ exact N' | exact H | ].
    eapply processStatement_inlineKinds; [ | exact E | exact F ].
    destruct x; exact Nx.
Qed.

(** X25.  From the dump to the report: when no statement of a dump is an
    ALTER TABLE ... ADD CONSTRAINT, every constraint of the parsed model is
    a PRIMARY KEY, a UNIQUE or a FOREIGN KEY, and [checkExclusionConstraints]
    reports nothing, whatever the bodies of the tables declare. *)
Theorem exclusion_needs_alter_table (data : string) (model : ParsedSchema)
        (checkName category : string) :
  ParseDump data = Some model ->
  existsb addsConstraint (fst (splitStatements data emptySchema "public")) = false ->
  Forall inlineKind (Constraints model)
  /\ checkExclusionConstraints model checkName category = [].
Proof.
  unfold ParseDump. cbv zeta. intros H N.
  assert (K : Forall inlineKind (Constraints model)).
  { eapply processStatements_inlineKinds; [ exact N | exact H | ].
    unfold splitStatements. simpl. constructor. }
  split; [ exact K | ].
  unfold checkExclusionConstraints.
  induction K as [|c cs T K IH]; [ reflexivity | ].
  cbn [flat_map]. rewrite IH.
  destruct T as [-> | [-> | ->]]; reflexivity.
Qed.

Lemma exclusion_needs_alter_table_witness :
  exists model,
    ParseDump rooms_dump = Some model
    /\ Forall inlineKind (Constraints model)
    /\ checkExclusionConstraints model "exclusion_constraints" "schema" = [].
Proof.
  destruct (ParseDump rooms_dump) as [model|] eqn:E;
    [ | vm_compute in E; discriminate E ].
  exists model. split; [ reflexivity | ].
  apply (exclusion_needs_alter_table rooms_dump model); [ exact E | ].
  vm_compute. reflexivity.
Defined.

(** ** Comment lines and blank lines *)

Lemma parseInlineConstraint_any_version v text tbl sp s :
  parseInlineConstraint text tbl sp (with_PgVersion v s)
  = option_map (with_PgVersion v) (parseInlineConstraint text tbl sp s).
Proof.
  unfold parseInlineConstraint.
  destruct (match FindStringSubmatch reConstraintName text with
            | Some m => _ | None => _ end) as [nr|]; [ | reflexivity ].
  cbv zeta.
  repeat match goal with
         | |- context [if ?b then _ else _] => destruct b
         | |- context [match ?e with Some _ => _ | None => _ end] => destruct e
         end; reflexivity.
Qed.

Lemma parseTableBody_loop_any_version v parts : forall tbl sp s,
  parseTableBody_loop parts tbl sp (with_PgVersion v s)
  = option_map (fun ts => (fst ts, with_PgVersion v (snd ts)))
               (parseTableBody_loop parts tbl sp s).
Proof.
  induction parts as [|part more IH]; intros tbl sp s; [ reflexivity | ].
  cbn [parseTableBody_loop]. cbv zeta.
  destruct (String.eqb _ EmptyString); [ apply IH | ].
  destruct (MatchString reTableConstraintKw _).
  - rewrite parseInlineConstraint_any_version.
    destruct (parseInlineConstraint _ tbl sp s); [ apply IH | reflexivity ].
  - destruct (parseColumn _) as [[c|]|]; [ apply IH | apply IH | reflexivity ].
Qed.

Ltac version_cases :=
  cbv zeta;
  repeat match goal with
         | |- context [match ?e with Some _ => _ | None => None end] =>
           destruct e; [ | reflexivity ]
         | |- context [if ?b then _ else _] => destruct b
         end;
  try reflexivity.

Lemma backfillColumn_any_version v upd s n col schema :
  backfillColumn upd s n col (with_PgVersion v schema)
  = with_PgVersion v (backfillColumn upd s n col schema).
Proof.
  unfold backfillColumn, GetTable. cbn [Tables with_PgVersion].
  destruct (negb (excludedSchemas s)); [ | reflexivity ].
  destruct (GetTable_from 0 (Tables schema) s n); reflexivity.
Qed.

Lemma doCreateTable_any_version v stmt sp s loc :
  doCreateTable stmt sp (with_PgVersion v s) loc
  = option_map (with_PgVersion v) (doCreateTable stmt sp s loc).
Proof.
  unfold doCreateTable. cbv zeta.
  destruct (negb (MatchString reCreateLead stmt)); [ reflexivity | ].
  destruct (splitQualified _ sp) as [sn|]; [ | reflexivity ].
  destruct (excludedSchemas (fst sn)); [ reflexivity | ].
  destruct (negb (String.eqb (extractParenContent stmt) EmptyString)).
  - unfold parseTableBody. rewrite parseTableBody_loop_any_version.
    destruct (parseTableBody_loop _ _ _ s) as [[t s']|]; reflexivity.
  - reflexivity.
Qed.

Lemma processStatement_any_version v stmt sp s :
  processStatement stmt sp (with_PgVersion v s)
  = option_map (with_PgVersion v) (processStatement stmt sp s).
Proof.
  unfold processStatement. destruct (recognise stmt) as [loc|loc|loc|loc|loc|loc|loc|loc|loc|loc|].
  - unfold doCreateExtension. version_cases.
  - unfold doCreateTypeEnum. version_cases.
  - unfold doCreateSequence. version_cases.
  - apply doCreateTable_any_version.
  - unfold doAlterAddConstraint. version_cases.
  - unfold doCreateIndex. version_cases.
  - unfold doAlterSetDefault. version_cases.
    cbn [option_map]. now rewrite backfillColumn_any_version.
  - unfold doAlterAddIdentity. version_cases.
    cbn [option_map]. now rewrite backfillColumn_any_version.
  - unfold doAlterSeqOwned. version_cases.
  - unfold doCreateRule. version_cases.
  - reflexivity.
Qed.

Lemma processStatements_any_version v stmts : forall s,
  processStatements stmts (with_PgVersion v s)
  = option_map (with_PgVersion v) (processStatements stmts s).
Proof.
  induction stmts as [|si stmts IH]; intros s; [ reflexivity | ].
  cbn [processStatements]. rewrite processStatement_any_version.
  destruct (processStatement _ _ s) as [s'|]; [ apply IH | reflexivity ].
Qed.

(** the progress of the segmenter over a line depends on its progress so
    far, not on the version *)
Lemma progress_splitLine st st' l :
  progress st = progress st' ->
  progress (splitLine st l) = progress (splitLine st' l).
Proof.
  unfold progress. intros [= R B D G P].
  destruct (skipped l) eqn:K.
  - destruct (splitLine_skipped st l K) as (-> & -> & -> & -> & ->).
    destruct (splitLine_skipped st' l K) as (-> & -> & -> & -> & ->).
    congruence.
  - rewrite (splitLine_kept st l K), (splitLine_kept st' l K). cbv zeta.
    rewrite R, B, D, G, P.
    destruct (negb _ && HasSuffix _ _); reflexivity.
Qed.

Lemma progress_splitLines lines : forall st st',
  progress st = progress st' ->
  progress (splitLines lines st) = progress (splitLines lines st').
Proof.
  induction lines as [|l lines IH]; intros st st' E; [ exact E | ].
  rewrite !splitLines_cons. apply IH. now apply progress_splitLine.
Qed.

Lemma progress_kept lines : forall st,
  progress (splitLines lines st) = progress (splitLines (kept lines) st).
Proof.
  induction lines as [|l lines IH]; intros st; [ reflexivity | ].
  rewrite splitLines_cons. unfold kept. cbn [filter]. fold (kept lines).
  destruct (skipped l) eqn:K; cbn [negb].
  - rewrite IH. apply progress_splitLines. unfold progress.
    destruct (splitLine_skipped st l K) as (-> & -> & -> & -> & ->).
    reflexivity.
  - rewrite splitLines_cons. apply IH.
Qed.

Lemma flush_progress st st' :
  progress st = progress st' -> flush st = flush st'.
Proof.
  unfold progress, flush. intros [= R B D G P]. now rewrite R, B, P.
Qed.

Lemma statements_of_kept (a b : string) (sa sb : ParsedSchema) (sp : string) :
  kept (Split a "010") = kept (Split b "010") ->
  fst (splitStatements a sa sp) = fst (splitStatements b sb sp).
Proof.
  intros E. unfold splitStatements. cbv zeta. cbn [fst].
  apply flush_progress.
  rewrite progress_kept, (progress_kept (Split b "010")), E.
  apply progress_splitLines. reflexivity.
Qed.

(** X26.  Comment lines and blank lines only give the version: two dumps
    whose other lines are the same, in the same order, are parsed to the
    same model apart from [PgVersion], and one panics exactly when the other
    does.  This holds for the lines inside dollar-quoted bodies too. *)
Theorem comments_only_give_the_version (a b : string) :
  kept (Split a "010") = kept (Split b "010") ->
  option_map (with_PgVersion EmptyString) (ParseDump a)
  = option_map (with_PgVersion EmptyString) (ParseDump b).
Proof.
  intros E. unfold ParseDump. cbv zeta.
  rewrite (statements_of_kept a b emptySchema emptySchema "public" E).
  set (stmts := fst (splitStatements b emptySchema "public")).
  assert (V : forall t, snd (splitStatements t emptySchema "public")
                        = with_PgVersion (PgVersion (snd (splitStatements t emptySchema "public")))
                                         emptySchema) by reflexivity.
  rewrite (V a), (V b), !processStatements_any_version.
  destruct (processStatements stmts emptySchema); reflexivity.
Qed.

Lemma comments_only_give_the_version_witness :
  kept (Split bare_dump "010") = kept (Split commented_dump "010")
  /\ option_map (with_PgVersion EmptyString) (ParseDump bare_dump)
     = option_map (with_PgVersion EmptyString) (ParseDump commented_dump).
Proof.
  assert (E : kept (Split bare_dump "010") = kept (Split commented_dump "010"))
    by (vm_compute; reflexivity).
  split; [ exact E | exact (comments_only_give_the_version _ _ E) ].
Defined.

(** ** Where a statement ends *)

Lemma terminated_splitLine (st : segmenter) (l : string) :
  oneLine l ->
  Forall oneLine (buf st) ->
  Forall terminated (results st) ->
  Forall terminated (results (splitLine st l)).
Proof.
  intros L B T. destruct (skipped l) eqn:K.
  - destruct (splitLine_skipped st l K) as (-> & _). exact T.
  - rewrite (splitLine_kept st l K). cbv zeta.
    destruct (negb _ && HasSuffix _ _) eqn:C; cbn [results]; [ | exact T ].
    apply andb_true_iff in C as [_ C].
    apply Forall_app. split; [ exact T | ]. constructor; [ | constructor ].
    exists (buf st), l. split; [ | exact C ].
    unfold linesOf. cbn [Parser.stmt]. unfold LF. apply Split_Join.
    + destruct (buf st); discriminate.
    + apply Forall_app. split; [ exact B | now constructor ].
Qed.

Lemma terminated_splitLines (lines : list string) : forall st,
  Forall oneLine lines ->
  Forall oneLine (buf st) ->
  Forall terminated (results st) ->
  Forall terminated (results (splitLines lines st)).
Proof.
  induction lines as [|l lines IH]; intros st L B T; [ exact T | ].
  inversion L as [|? ? Hl Hls]; subst. rewrite splitLines_cons.
  apply IH; [ exact Hls | apply (held_splitLine st l Hl B) | ].
  now apply terminated_splitLine.
Qed.

(** X27.  A statement ends where a line ends with a semicolon: of the
    statements the segmenter returns, every one but the last has a last line
    that ends with a semicolon once its blanks are trimmed.  The last one
    may be the text left in the buffer at the end of the input. *)
Theorem statements_end_at_a_semicolon (text : string) (schema : ParsedSchema)
        (sp : string) :
  Forall terminated (removelast (fst (splitStatements text schema sp))).
Proof.
  unfold splitStatements. cbv zeta. cbn [fst].
  set (st0 := mkSeg [] [] false EmptyString sp (PgVersion schema)).
  assert (T : Forall terminated (results (splitLines (Split text "010") st0))).
  { apply terminated_splitLines; [ apply Split_pieces | constructor | constructor ]. }
  unfold flush. destruct (0 <? _)%nat.
  - rewrite removelast_last. exact T.
  - clear - T. induction T as [|x r Hx Hr IH]; [ constructor | ].
    destruct r; [ constructor | ].
    change (Forall terminated (x :: removelast (s :: r))).
    constructor; assumption.
Qed.
